(** * A crawl pipeline: scheduler, retry, de-duplication and extraction

    A shallow embedding of the parts of the crawler whose behaviour its
    specification fixes:

    - [utils.ts]: [withRetry], [runInBatches], [deduplicateUrls];
    - [crawler.ts]: [crawlPage], [extractContent], [extractLinks],
      [extractJsonLd], [extractPrice], [resolveOffers], [classifyPage];
    - [product-extractor.ts], in its two versions (fixed variant record and
      dynamic variant map): [parsePrice], [formatPrice], [cleanText],
      [toSnakeCase] and the variant part of [extractProduct].

    JavaScript strings are sequences of UTF-16 code units, numbers are
    binary64 floats, the parsed page is a tree of elements and text nodes
    queried by the few selector forms the code uses. *)

From Stdlib Require Import ZArith NArith List String Ascii Bool Lia Floats.
From Stdlib Require Import DecimalString.
From stdpp Require Import base option list gmap.

Set Warnings "-register-all".

Local Open Scope N_scope.

(** ** JavaScript strings *)

Module JS.

(** A string is its list of UTF-16 code units. *)
Abbreviation jstr := (list N).

(** An ASCII literal as a JavaScript string. *)
Definition lit (s : string) : jstr :=
  List.map N_of_ascii (list_ascii_of_string s).

Definition jstr_eqb (a b : jstr) : bool := bool_decide (a = b).

(** The class [\s] of a regular expression, which is also what [trim]
    removes: white space and line terminators. *)
Definition is_ws (c : N) : bool :=
  ((9 <=? c) && (c <=? 13)) || (c =? 32) || (c =? 160) || (c =? 5760)
  || ((8192 <=? c) && (c <=? 8202)) || (c =? 8232) || (c =? 8233)
  || (c =? 8239) || (c =? 8287) || (c =? 12288) || (c =? 65279).

(** The class [\d]: ASCII digits only. *)
Definition is_digit (c : N) : bool := (48 <=? c) && (c <=? 57).

(** [s.replace(/\s+/g, " ")]: every maximal run of white space becomes one
    space.  [in_run] tells that the previous code unit was white space. *)
Fixpoint collapse_from (in_run : bool) (s : jstr) : jstr :=
  match s with
  | [] => []
  | c :: r =>
      if is_ws c
      then (if in_run then collapse_from true r else 32 :: collapse_from true r)
      else c :: collapse_from false r
  end.

Definition collapse_ws (s : jstr) : jstr := collapse_from false s.

Fixpoint trimStart (s : jstr) : jstr :=
  match s with
  | [] => []
  | c :: r => if is_ws c then trimStart r else s
  end.

Definition trimEnd (s : jstr) : jstr := rev (trimStart (rev s)).

Definition trim (s : jstr) : jstr := trimEnd (trimStart s).

(** [s.split(/\s+/)]: the pieces between the maximal runs of white space;
    a run at either end leaves an empty piece there, and the empty string
    splits into one empty piece. *)
Fixpoint split_from (in_run : bool) (cur : jstr) (s : jstr) : list jstr :=
  match s with
  | [] => [cur]
  | c :: r =>
      if is_ws c
      then (if in_run then split_from true [] r else cur :: split_from true [] r)
      else split_from false (cur ++ [c]) r
  end.

Definition split_ws (s : jstr) : list jstr := split_from false [] s.

(** [s.slice(0, n)]. *)
Definition slice0 (n : nat) (s : jstr) : jstr := take n s.

Fixpoint startsWith (p s : jstr) : bool :=
  match p, s with
  | [], _ => true
  | _ :: _, [] => false
  | a :: p', b :: s' => (a =? b) && startsWith p' s'
  end.

(** [s.includes(p)], and [/p/.test(s)] for a pattern without operators. *)
Fixpoint includes (p s : jstr) : bool :=
  startsWith p s || match s with [] => false | _ :: r => includes p r end.

(** [toLowerCase].  The ASCII capitals, and the two code units outside
    ASCII whose lower case has ASCII units: the Kelvin sign becomes k and
    the dotted capital I becomes i followed by a combining dot.  The lower
    case of any other unit is outside ASCII; such a unit is left as it is,
    which no test of the code can tell apart (its results are compared
    with ASCII literals, searched for one, or have every unit outside
    [a-z0-9] replaced). *)
Definition lower_unit (c : N) : jstr :=
  if (65 <=? c) && (c <=? 90) then [c + 32]
  else if c =? 8490 then [107]
  else if c =? 304 then [105; 775]
  else [c].

Definition toLowerCase (s : jstr) : jstr := List.concat (List.map lower_unit s).

(** A natural number in decimal, as template literals print it. *)
Definition of_nat (n : nat) : jstr :=
  lit (NilZero.string_of_uint (Nat.to_uint n)).

Definition of_Z_nonneg (z : Z) : jstr :=
  lit (NilZero.string_of_uint (N.to_uint (Z.to_N z))).

End JS.
Import JS.

(** ** JavaScript numbers *)

Module Num.

Local Open Scope Z_scope.

(** The value of a string of ASCII digits, most significant first. *)
Definition digits_value (ds : jstr) : Z :=
  fold_left (fun acc c => 10 * acc + (Z.of_N c - 48)) ds 0.

(** The binary64 number nearest to [m / 10^k] (ties to even), which is
    what reading the decimal literal with digits [m] and [k] digits after
    the point gives. *)
Definition of_decimal (m : Z) (k : nat) : float :=
  match m with
  | Zpos p =>
      SF2Prim (SFdiv prec emax (S754_finite false p 0)
                 (S754_finite false (Z.to_pos (10 ^ Z.of_nat k)) 0))
  | _ => PrimFloat.zero
  end.

(** Is the finite number [m * 2^e] (with [m > 0]) at least [10^21]? *)
Definition ge_1e21 (m : positive) (e : Z) : bool :=
  if 0 <=? e then 10 ^ 21 <=? Zpos m * 2 ^ e
  else 10 ^ 21 * 2 ^ (- e) <=? Zpos m.

(** The integer [n] for which [n / 100 - m * 2^e] is closest to zero, the
    larger one when two are as close. *)
Definition scaled_round (m : positive) (e : Z) : Z :=
  if 0 <=? e then 100 * Zpos m * 2 ^ e
  else (200 * Zpos m + 2 ^ (- e)) / 2 ^ (1 - e).

(** The digits of [n] with a point before the last two, padded with zeros
    on the left to three digits at least. *)
Definition fixed_digits (n : Z) : jstr :=
  let ds := of_Z_nonneg n in
  let ds' := if (length ds <=? 2)%nat
             then repeat 48%N (3 - length ds)%nat ++ ds else ds in
  take (length ds' - 2)%nat ds' ++ lit "." ++ drop (length ds' - 2)%nat ds'.

Section ToString.

(** [Number.prototype.toString], the shortest decimal that reads back as
    the number.  It is the platform's; the code reaches it for a number of
    a JSON-LD block and for a price of [10^21] or more. *)
Variable Number_toString : float -> jstr.

(** [x.toFixed(2)]. *)
Definition toFixed2 (x : float) : jstr :=
  match Prim2SF x with
  | S754_nan => lit "NaN"
  | S754_infinity s => if s then lit "-Infinity" else lit "Infinity"
  | S754_zero _ => lit "0.00"
  | S754_finite s m e =>
      if ge_1e21 m e then Number_toString x
      else (if s then lit "-" else []) ++ fixed_digits (scaled_round m e)
  end.

End ToString.

Definition isNaN (x : float) : bool :=
  match Prim2SF x with S754_nan => true | _ => false end.

End Num.

(** ** JSON values *)

Module Json.

Inductive json :=
| JNull
| JBool (b : bool)
| JNum (x : float)
| JStr (s : jstr)
| JArr (items : list json)
| JObj (fields : list (jstr * json)).

(** [v[k]] for a name [k] that no prototype defines (the code reads
    [offers], [price], [lowPrice], [priceCurrency] and [@type]): the own
    property of an object, [undefined] (here [None]) on anything else.  A
    parsed object has each key once. *)
Definition prop (v : json) (k : jstr) : option json :=
  match v with
  | JObj fields => snd <$> List.find (fun p => jstr_eqb (fst p) k) fields
  | _ => None
  end.

(** [a ?? b] where [b] is never nullish: [b] when [a] is [undefined] or
    [null]. *)
Definition nullish_or (a : option json) (b : json) : json :=
  match a with
  | None | Some JNull => b
  | Some v => v
  end.

(** Truthiness (a parsed number is never NaN). *)
Definition truthy (v : json) : bool :=
  match v with
  | JNull => false
  | JBool b => b
  | JNum x => negb (PrimFloat.eqb x PrimFloat.zero)
  | JStr s => negb (jstr_eqb s [])
  | JArr _ | JObj _ => true
  end.

(** [typeof v === "object"] for a truthy [v]. *)
Definition is_object (v : json) : bool :=
  match v with JArr _ | JObj _ => true | _ => false end.

Section ToString.

Variable Number_toString : float -> jstr.

Definition join_comma (parts : list jstr) : jstr :=
  match parts with
  | [] => []
  | p :: ps => p ++ List.concat (List.map (fun q => lit "," ++ q) ps)
  end.

(** [String(v)]. An array prints its items separated by commas, [null]
    items as nothing. *)
Fixpoint String_of (v : json) : jstr :=
  match v with
  | JNull => lit "null"
  | JBool b => if b then lit "true" else lit "false"
  | JNum x => Number_toString x
  | JStr s => s
  | JArr items =>
      join_comma
        (List.map (fun i => match i with JNull => [] | _ => String_of i end)
           items)
  | JObj _ => lit "[object Object]"
  end.

End ToString.

End Json.

(** ** The parsed page and its queries *)

Module Cheerio.

(** The tree the HTML parser builds: text nodes and elements with their
    attributes (names in lower case, each once) and children.  Comments and
    the like take no part in any query of the code and are left out. *)
Inductive node :=
| Text (data : jstr)
| Elem (name : jstr) (attribs : list (jstr * jstr)) (children : list node).

Definition attr_of (attribs : list (jstr * jstr)) (k : jstr) : option jstr :=
  snd <$> List.find (fun p => jstr_eqb (fst p) k) attribs.

(** The simple selectors of the code: [tag], [.class], [#id], [[attr]] and
    [[attr="value"]].  The value of a few attributes of HTML, [type] among
    them, is compared without regard to case: [SEqI], whose [v] is in
    lower case. *)
Inductive simple :=
| STag (t : jstr)
| SClass (c : jstr)
| SId (i : jstr)
| SHas (a : jstr)
| SEq (a v : jstr)
| SEqI (a v : jstr).

Definition matches_simple (s : simple) (name : jstr)
    (attribs : list (jstr * jstr)) : bool :=
  match s with
  | STag t => jstr_eqb name t
  | SClass c =>
      match attr_of attribs (lit "class") with
      | Some v => bool_decide (c ∈ split_ws v)
      | None => false
      end
  | SId i =>
      match attr_of attribs (lit "id") with
      | Some v => jstr_eqb v i
      | None => false
      end
  | SHas a => bool_decide (is_Some (attr_of attribs a))
  | SEq a v =>
      match attr_of attribs a with
      | Some w => jstr_eqb w v
      | None => false
      end
  | SEqI a v =>
      match attr_of attribs a with
      | Some w => (length w =? length v)%nat && jstr_eqb (toLowerCase w) v
      | None => false
      end
  end.

(** [a.b[c]]: all simple selectors hold of one element. *)
Definition compound := list simple.

Definition matches_compound (c : compound) (e : jstr * list (jstr * jstr)) : bool :=
  forallb (fun s => matches_simple s (fst e) (snd e)) c.

(** The ancestors (nearest first) match the compounds [cs] (innermost
    first) of a descendant chain.  Taking the nearest ancestor that matches
    leaves the most ancestors for the rest. *)
Fixpoint match_ancestors (cs : list compound)
    (anc : list (jstr * list (jstr * jstr))) : bool :=
  match cs with
  | [] => true
  | c :: cs' =>
      match anc with
      | [] => false
      | a :: anc' =>
          if matches_compound c a then match_ancestors cs' anc'
          else match_ancestors cs anc'
      end
  end.

(** [c1 c2 ... cn], outermost first: a chain of descendant combinators. *)
Definition complex := list compound.

Definition matches_complex (cx : complex)
    (anc : list (jstr * list (jstr * jstr)))
    (e : jstr * list (jstr * jstr)) : bool :=
  match rev cx with
  | [] => false
  | c :: outer => matches_compound c e && match_ancestors outer anc
  end.

(** [x1, x2, ...]: a list of alternatives. *)
Definition selector := list complex.

Definition matches (sel : selector)
    (anc : list (jstr * list (jstr * jstr)))
    (e : jstr * list (jstr * jstr)) : bool :=
  existsb (fun cx => matches_complex cx anc e) sel.

(** The elements under [n] (and [n]) that match, in document order. *)
Fixpoint select_in (sel : selector)
    (anc : list (jstr * list (jstr * jstr))) (n : node) : list node :=
  match n with
  | Text _ => []
  | Elem t a cs =>
      (if matches sel anc (t, a) then [n] else [])
      ++ List.concat (List.map (select_in sel ((t, a) :: anc)) cs)
  end.

(** [$(sel)] on the document whose top-level nodes are [forest]: the
    ancestors a chain may use are those inside the forest. *)
Definition select (sel : selector) (forest : list node) : list node :=
  List.concat (List.map (select_in sel []) forest).

(** [$el.find(sel)]: the elements under [$el] that match.  The chain of
    a descendant selector is looked for from [$el] down: the element
    itself may be the outermost part of the chain, and nothing above it
    may. *)
Definition find (sel : selector) (n : node) : list node :=
  match n with
  | Text _ => []
  | Elem t a cs => List.concat (List.map (select_in sel [(t, a)]) cs)
  end.

(** [$(sel).remove()]: the forest without the matching elements (and what
    is under them). *)
Fixpoint remove_in (sel : selector)
    (anc : list (jstr * list (jstr * jstr))) (n : node) : list node :=
  match n with
  | Text _ => [n]
  | Elem t a cs =>
      if matches sel anc (t, a) then []
      else [Elem t a (List.concat (List.map (remove_in sel ((t, a) :: anc)) cs))]
  end.

Definition remove (sel : selector) (forest : list node) : list node :=
  List.concat (List.map (remove_in sel []) forest).

(** The text of a node: its text nodes, in order. *)
Fixpoint textContent (n : node) : jstr :=
  match n with
  | Text d => d
  | Elem _ _ cs => List.concat (List.map textContent cs)
  end.

(** [.text()] of a selection: the texts of all its elements; the empty
    string for the empty selection. *)
Definition text (sel : list node) : jstr :=
  List.concat (List.map textContent sel).

(** [.first()]: the selection of the first element, or the empty one. *)
Definition first (sel : list node) : list node := take 1%nat sel.

(** [.attr(k)]: the attribute of the first element; [undefined] (here
    [None]) when the selection is empty or the attribute is absent. *)
Definition attr (sel : list node) (k : jstr) : option jstr :=
  match sel with
  | Elem _ a _ :: _ => attr_of a k
  | _ => None
  end.

(** [.html()] of a selection of [script] elements: the text of the first,
    which the parser keeps as it is; [null] (here [None]) for the empty
    selection. *)
Definition html (sel : list node) : option jstr :=
  match sel with
  | n :: _ => Some (textContent n)
  | [] => None
  end.

(** Selectors with one simple part. *)
Definition tag (t : string) : complex := [[STag (lit t)]].
Definition cls (c : string) : complex := [[SClass (lit c)]].

End Cheerio.

(** ** utils.ts *)

Module Utils.

(** *** withRetry *)

(** What can be observed of a run: each start of the operation and each
    suspension, in order. *)
Inductive event :=
| Called
| Slept (ms : N).

Section Retry.

Context {S E T : Type}.

(** The state the operation works on (the network, a counter, ...) and the
    events so far. *)
Record world := World { op_state : S; trace : list event }.

(** An asynchronous computation: from a world to a settled promise,
    rejected with an error or fulfilled with a value, and the world then. *)
Definition M (A : Type) : Type := world -> (E + A) * world.

Definition throw {A} (e : E) : M A := fun w => (inl e, w).

Definition bind {A B} (m : M A) (k : A -> M B) : M B :=
  fun w => match m w with
           | (inl e, w') => (inl e, w')
           | (inr a, w') => k a w'
           end.

(** [try { m } catch (e) { h(e) }]. *)
Definition try_catch {A} (m : M A) (h : E -> M A) : M A :=
  fun w => match m w with
           | (inl e, w') => h e w'
           | (inr a, w') => (inr a, w')
           end.

(** [await fn()]: one run of the operation. *)
Definition call (fn : S -> (E + T) * S) : M T :=
  fun w => let '(r, s') := fn (op_state w) in
           (r, World s' (trace w ++ [Called])).

(** [await sleep(ms)]. *)
Definition sleep (ms : N) : M unit :=
  fun w => (inr tt, World (op_state w) (trace w ++ [Slept ms])).

Definition withRetry (fn : S -> (E + T) * S) : M T :=
  try_catch (call fn) (fun firstError =>
    bind (sleep 1000) (fun _ =>
      try_catch (call fn) (fun _ => throw firstError))).

End Retry.

Arguments world : clear implicits.
Arguments M : clear implicits.

(** *** runInBatches *)

Section Batches.

Context {T R E : Type}.

(** What can be observed of a run: the start of a task, the call of
    [onItemDone] with its four arguments, and the suspension between two
    windows. *)
Inductive batch_event :=
| Started (item : T)
| ItemDone (completed total : nat) (item : T) (result : R)
| Waited (ms : N).

(** What the promise of [processor(item)] settles to. *)
Variable processor : T -> E + R.

(** The order in which the tasks of the window that starts at index [i]
    settle, as positions in the window.  The event loop decides it; the
    code does not. *)
Variable sched : nat -> list nat.

(** The variables the tasks of a window share, the slots of [Promise.all]
    and its first rejection. *)
Record window_state := WindowState {
  completed : nat;
  log : list batch_event;
  slots : list (option R);
  rejected : option E
}.

(** The task at position [k] of the window settles.  A fulfilled task
    counts itself, reports, and fills its slot of [Promise.all]; a
    rejected one rejects [Promise.all] if nothing has yet. *)
Definition settle (total : nat) (batch : list T) (st : window_state)
    (k : nat) : window_state :=
  match batch !! k with
  | None => st
  | Some item =>
      match processor item with
      | inr result =>
          WindowState (completed st + 1)
            (log st ++ [ItemDone (completed st + 1) total item result])
            (<[k := Some result]> (slots st))
            (rejected st)
      | inl e =>
          WindowState (completed st) (log st) (slots st)
            (match rejected st with Some e0 => Some e0 | None => Some e end)
      end
  end.

(** [await Promise.all(batch.map(async item => ...))]: every task starts,
    in order; they settle in the order [order]; the promise is rejected
    with the first rejection, fulfilled with the slots when all are
    filled, and never settles ([None]) otherwise. *)
Definition run_window (total : nat) (batch : list T) (order : list nat)
    (completed0 : nat) (log0 : list batch_event)
    : option (E + list R) * nat * list batch_event :=
  let st0 := WindowState completed0 (log0 ++ List.map Started batch)
               (replicate (length batch) None) None in
  let st := fold_left (settle total batch) order st0 in
  (match rejected st with
   | Some e => Some (inl e)
   | None => inr <$> mapM id (slots st)
   end, completed st, log st).

(** The [for] loop, [fuel] turns of it at most. *)
Fixpoint batches_loop (fuel : nat) (items : list T) (concurrency : nat)
    (delayMs : N) (i : nat) (results : list R) (completed0 : nat)
    (log0 : list batch_event)
    : option ((E + list R) * list batch_event) :=
  match fuel with
  | O => None
  | Datatypes.S fuel' =>
      if (i <? length items)%nat then
        let batch := take concurrency (drop i items) in
        match run_window (length items) batch (sched i) completed0 log0 with
        | (None, _, _) => None
        | (Some (inl e), _, log1) => Some (inl e, log1)
        | (Some (inr batchResults), completed1, log1) =>
            let log2 := if (i + concurrency <? length items)%nat
                        then log1 ++ [Waited delayMs] else log1 in
            batches_loop fuel' items concurrency delayMs (i + concurrency)
              (results ++ batchResults) completed1 log2
        end
      else Some (inr results, log0)
  end.

Definition runInBatches (fuel : nat) (items : list T) (concurrency : nat)
    (delayMs : N) : option ((E + list R) * list batch_event) :=
  batches_loop fuel items concurrency delayMs 0 [] 0 [].

End Batches.

(** *** deduplicateUrls *)

(** [url.replace(re, empty)] where [re] matches one slash at the end of
    the input: the URL without its last code unit when that is a slash. *)
Definition strip_trailing_slash (url : jstr) : jstr :=
  match rev url with
  | 47 :: r => rev r
  | _ => url
  end.

(** One turn of the loop on the pair of [seen] and [unique]. *)
Definition dedupe_step (st : gset jstr * list jstr) (url : jstr)
    : gset jstr * list jstr :=
  let normalized := strip_trailing_slash url in
  if decide (normalized ∈ st.1) then st
  else ({[normalized]} ∪ st.1, st.2 ++ [url]).

Definition deduplicateUrls (urls : list jstr) : list jstr :=
  (fold_left dedupe_step urls (∅, [])).2.

(** *** getErrorMessage, getErrorStatus *)

(** What a [catch] can receive: an error of the HTTP client, with its
    code, the status and status text of its response and the URL of its
    request when it has them, or another error with its message. *)
Inductive error :=
| AxiosError (code : option jstr) (response : option (nat * jstr))
    (config_url : option jstr) (message : jstr)
| OtherError (message : jstr).

Definition getErrorMessage (err : error) : jstr :=
  match err with
  | AxiosError code response config_url message =>
      if bool_decide (code = Some (lit "ECONNABORTED")) then lit "Request timed out"
      else if bool_decide (code = Some (lit "ENOTFOUND"))
      then lit "DNS lookup failed: " ++ default (lit "unknown host") config_url
      else if bool_decide (code = Some (lit "ERR_TLS_CERT_ALTNAME_INVALID"))
      then lit "SSL certificate error"
      else if bool_decide (code = Some (lit "ECONNRESET")) then lit "Connection reset by server"
      else if bool_decide (code = Some (lit "ECONNREFUSED")) then lit "Connection refused"
      else match response with
           | Some (status, statusText) =>
               lit "HTTP " ++ of_nat status ++ lit ": " ++ statusText
           | None => message
           end
  | OtherError message => message
  end.

Definition getErrorStatus (err : error) : option nat :=
  match err with
  | AxiosError _ (Some (status, _)) _ _ => Some status
  | _ => None
  end.

End Utils.

(** ** crawler.ts *)

Module Crawler.

Import Json Cheerio Utils.

(** The two components of a parsed URL that the code reads. *)
Record URL := MkURL { hostname : jstr; pathname : jstr }.

(** *** new URL(s), without a base *)

(** The URL parser first drops leading and trailing C0 controls and
    spaces and every tab and newline.  It then fails unless the input
    starts with a scheme: an ASCII letter, then letters, digits, [+], [-]
    or [.], then a colon. *)
Definition is_c0_or_space (c : N) : bool := c <=? 32.

Fixpoint strip_c0_start (s : jstr) : jstr :=
  match s with
  | [] => []
  | c :: r => if is_c0_or_space c then strip_c0_start r else s
  end.

Definition url_preprocess (s : jstr) : jstr :=
  List.filter (fun c => negb ((c =? 9) || (c =? 10) || (c =? 13)))
    (rev (strip_c0_start (rev (strip_c0_start s)))).

Definition is_alpha (c : N) : bool :=
  ((65 <=? c) && (c <=? 90)) || ((97 <=? c) && (c <=? 122)).

Fixpoint scheme_rest (s : jstr) : bool :=
  match s with
  | [] => false
  | c :: r =>
      if c =? 58 then true
      else if is_alpha c || is_digit c || (c =? 43) || (c =? 45) || (c =? 46)
      then scheme_rest r
      else false
  end.

Definition has_scheme (s : jstr) : bool :=
  match url_preprocess s with
  | c :: r => is_alpha c && scheme_rest r
  | [] => false
  end.

(** The fields of [PageData] that the extraction functions below compute
    ([title], [h1], the [meta] fields, the images, the serialized JSON-LD
    and the time stamp are read straight off the page or the clock). *)
Inductive page_type := article | category | product | gallery | page.

Record PageData := MkPageData {
  url : jstr;
  status_code : nat;
  content : jstr;
  word_count : nat;
  internal_links : list jstr;
  internal_links_count : nat;
  external_links_count : nat;
  json_ld_found : bool;
  price : jstr;
  currency : jstr;
  page_type_of : page_type
}.

Inductive CrawlResult :=
| Success (data : PageData)
| Failure (url : jstr) (status_code : option nat) (error_message : jstr).

(** The response of [http.get]: its status and its body as
    [cheerio.load] parses it. *)
Record response := MkResponse { status : nat; data : list node }.

(** *** Selectors *)

Definition noise : selector :=
  [tag "script"; tag "style"; tag "noscript"; tag "iframe"; tag "svg";
   tag "nav"; tag "header"; tag "footer"].

Definition CONTENT_SELECTORS : list selector :=
  [[tag "main"]; [tag "article"]; [cls "main-content"]; [cls "content"];
   [[[SId (lit "content")]]]; [cls "page-content"]].

(** [a[href]] *)
Definition sel_a_href : selector := [[[STag (lit "a"); SHas (lit "href")]]].

(** [script[type="application/ld+json"]] *)
Definition sel_json_ld : selector :=
  [[[STag (lit "script"); SEqI (lit "type") (lit "application/ld+json")]]].

(** [[itemprop="price"]] and [[itemprop="priceCurrency"]] *)
Definition sel_itemprop_price : selector :=
  [[[SEq (lit "itemprop") (lit "price")]]].
Definition sel_itemprop_currency : selector :=
  [[[SEq (lit "itemprop") (lit "priceCurrency")]]].

(** [.price, .product-price] *)
Definition sel_price_class : selector := [cls "price"; cls "product-price"].

(** *** extractContent *)

(** The loop over [CONTENT_SELECTORS]: the text of the first element of
    the first selector that matches anything. *)
Fixpoint first_container (sels : list selector) (doc : list node) : jstr :=
  match sels with
  | [] => []
  | sel :: rest =>
      let el := first (select sel doc) in
      if (0 <? length el)%nat then text el else first_container rest doc
  end.

(** The cleaned text before it is cut. *)
Definition content_raw (doc : list node) : jstr :=
  let text0 := first_container CONTENT_SELECTORS doc in
  let text1 := if jstr_eqb text0 [] then text (first (select [tag "body"] doc))
               else text0 in
  trim (collapse_ws text1).

(** [extractContent] changes the page it is given: the second component is
    the page without the noise elements, which is the page that everything
    after it in [crawlPage] reads. *)
Definition extractContent (doc : list node) : jstr * list node :=
  let doc' := remove noise doc in
  (slice0 2000 (content_raw doc'), doc').

Section Platform.

(** The platform's [Number.prototype.toString], [JSON.parse] ([None] when
    it throws), and the URL parser on an input that starts with a scheme
    ([None] when it fails). *)
Variable Number_toString : float -> jstr.
Variable JSON_parse : jstr -> option json.
Variable URL_of_absolute : jstr -> option URL.

Definition newURL (s : jstr) : option URL :=
  if has_scheme s then URL_of_absolute s else None.

(** *** extractLinks *)

Definition link_step (baseHost : jstr) (acc : list jstr * nat) (el : node)
    : list jstr * nat :=
  let href := default [] (attr [el] (lit "href")) in
  if jstr_eqb href [] || startsWith (lit "#") href
     || startsWith (lit "mailto:") href || startsWith (lit "tel:") href
  then acc
  else
    let isRelative := startsWith (lit "/") href && negb (startsWith (lit "//") href) in
    if isRelative then (acc.1 ++ [href], acc.2)
    else
      match newURL href with
      | Some u =>
          if jstr_eqb (hostname u) baseHost then (acc.1 ++ [href], acc.2)
          else (acc.1, Datatypes.S acc.2)
      | None => acc
      end.

Definition extractLinks (doc : list node) (baseHost : jstr) : list jstr * nat :=
  fold_left (link_step baseHost) (select sel_a_href doc) ([], O).

(** *** extractJsonLd *)

Definition extractJsonLd (doc : list node) : option json :=
  match html (first (select sel_json_ld doc)) with
  | None => None
  | Some script => if jstr_eqb script [] then None else JSON_parse script
  end.

(** *** resolveOffers, extractPrice *)

Definition resolveOffers (obj : json) : option json :=
  match prop obj (lit "offers") with
  | Some offers =>
      if truthy offers && is_object offers then
        match offers with
        | JArr items =>
            match items with
            | JNull :: _ | [] => None
            | first_offer :: _ => Some first_offer
            end
        | _ => Some offers
        end
      else None
  | None => None
  end.

(** [a ?? b] on values that may be [undefined]. *)
Definition nullish {A} (a b : option A) : option A :=
  match a with Some v => Some v | None => b end.

(** The JSON-LD source of [extractPrice]: the pair it returns from inside
    the first [if], when it does. *)
Definition price_from_json_ld (jsonLd : option json) : option (jstr * jstr) :=
  match jsonLd with
  | Some j =>
      if truthy j then
        match resolveOffers j with
        | Some offers =>
            if truthy offers then
              let p := String_of Number_toString
                         (nullish_or (prop offers (lit "price"))
                            (nullish_or (prop offers (lit "lowPrice")) (JStr []))) in
              let c := String_of Number_toString
                         (nullish_or (prop offers (lit "priceCurrency")) (JStr [])) in
              if jstr_eqb p [] then None else Some (p, c)
            else None
        | None => None
        end
      else None
  | None => None
  end.

(** The three operands of the chain of [??] in [extractPrice]. *)
Definition price_itemprop_content (doc : list node) : option jstr :=
  trim <$> attr (select sel_itemprop_price doc) (lit "content").

Definition price_itemprop_text (doc : list node) : option jstr :=
  Some (trim (text (select sel_itemprop_price doc))).

Definition price_class_text (doc : list node) : option jstr :=
  Some (trim (List.filter (fun c => is_digit c || (c =? 46) || (c =? 44))
                (text (first (select sel_price_class doc))))).

Definition extractPrice (doc : list node) (jsonLd : option json) : jstr * jstr :=
  match price_from_json_ld jsonLd with
  | Some r => r
  | None =>
      let price :=
        nullish (price_itemprop_content doc)
          (nullish (price_itemprop_text doc) (price_class_text doc)) in
      let currency :=
        default [] (trim <$> attr (select sel_itemprop_currency doc) (lit "content")) in
      (default [] price, currency)
  end.

(** *** classifyPage *)

(** After [/a/]: digits, one at least, then a slash. *)
Fixpoint digits_then_slash (seen : bool) (s : jstr) : bool :=
  match s with
  | [] => false
  | c :: r => if is_digit c then digits_then_slash true r else seen && (c =? 47)
  end.

(** The pattern of article paths: [/a/], digits, a slash, anywhere. *)
Fixpoint re_article (s : jstr) : bool :=
  (startsWith (lit "/a/") s && digits_then_slash false (drop 3 s))
  || match s with [] => false | _ :: r => re_article r end.

Definition re_category (path : jstr) : bool :=
  includes (lit "/c/") path || includes (lit "/choose-") path.

Definition re_product (path : jstr) : bool := includes (lit "/p/") path.

(** [/gallery/i]: without the [u] flag a unit outside ASCII never matches
    an ASCII letter, so the test is a search in the ASCII lower case. *)
Definition re_gallery (path : jstr) : bool :=
  includes (lit "gallery")
    (List.map (fun c => if (65 <=? c) && (c <=? 90) then c + 32 else c) path).

(** The four tests on the path, [None] when none holds. *)
Definition classifyPath (path : jstr) : option page_type :=
  if re_article path then Some article
  else if re_category path then Some category
  else if re_product path then Some product
  else if re_gallery path then Some gallery
  else None.

(** The lower-cased [@type] of the block, the empty string without one. *)
Definition ld_type (j : json) : jstr :=
  toLowerCase (String_of Number_toString
                 (nullish_or (prop j (lit "@type")) (JStr []))).

Definition classifyType (jsonLd : option json) : page_type :=
  match jsonLd with
  | Some j =>
      if truthy j then
        let type := ld_type j in
        if jstr_eqb type (lit "product") then product
        else if jstr_eqb type (lit "article") || jstr_eqb type (lit "newsarticle")
                || jstr_eqb type (lit "blogposting")
        then article
        else page
      else page
  | None => page
  end.

(** [None] when [new URL(url)] throws. *)
Definition classifyPage (url : jstr) (jsonLd : option json) : option page_type :=
  match newURL url with
  | None => None
  | Some u =>
      Some (match classifyPath (pathname u) with
            | Some t => t
            | None => classifyType jsonLd
            end)
  end.

(** *** crawlPage *)

(** [content ? content.split(/\s+/).length : 0] *)
Definition count_words (content : jstr) : nat :=
  if jstr_eqb content [] then O else length (split_ws content).

(** The [try] block once the response is there; an error when [new URL]
    throws. *)
Definition pageData (url : jstr) (resp : response) : error + PageData :=
  match newURL url with
  | None => inl (OtherError (lit "Invalid URL"))
  | Some baseUrl =>
      let baseHost := hostname baseUrl in
      let '(content, doc) := extractContent (data resp) in
      let wordCount := count_words content in
      let '(internal, externalCount) := extractLinks doc baseHost in
      let jsonLdRaw := extractJsonLd doc in
      let '(price, currency) := extractPrice doc jsonLdRaw in
      match classifyPage url jsonLdRaw with
      | None => inl (OtherError (lit "Invalid URL"))
      | Some pageType =>
          inr (MkPageData url (status resp) content wordCount internal
                 (length internal) externalCount
                 (bool_decide (is_Some jsonLdRaw)) price currency pageType)
      end
  end.

Definition crawlPage {S} (url : jstr)
    (http_get : jstr -> S -> (error + response) * S)
    : world S -> CrawlResult * world S :=
  fun w =>
    match withRetry (http_get url) w with
    | (inr resp, w') =>
        match pageData url resp with
        | inr data => (Success data, w')
        | inl err => (Failure url (getErrorStatus err) (getErrorMessage err), w')
        end
    | (inl err, w') =>
        (Failure url (getErrorStatus err) (getErrorMessage err), w')
    end.

End Platform.

End Crawler.

(** ** A platform and pages to run the code on *)

Module Examples.

Import Json Cheerio Crawler.

(** The URL parser on the URLs of the examples: [https://], a host in
    lower-case ASCII, and a path, without port, credentials, query or
    fragment. *)
Fixpoint host_and_path (s : jstr) : jstr * jstr :=
  match s with
  | [] => ([], [])
  | c :: r =>
      if c =? 47 then ([], s)
      else let '(h, p) := host_and_path r in (c :: h, p)
  end.

Definition simple_URL (s : jstr) : option URL :=
  if startsWith (lit "https://") s then
    let '(h, p) := host_and_path (drop 8 s) in
    Some (MkURL h (if jstr_eqb p [] then lit "/" else p))
  else None.

(** No JSON parser and no printer of numbers is needed on the examples. *)
Definition no_JSON (s : jstr) : option json := None.
Definition no_numbers (x : float) : jstr := [].

(** The euro sign. *)
Definition euro : jstr := [8364].

(** [<html><body>...</body></html>] *)
Definition html_body (body : list node) : list node :=
  [Elem (lit "html") [] [Elem (lit "head") [] []; Elem (lit "body") [] body]].

Definition div (class : string) (children : list node) : node :=
  Elem (lit "div") [(lit "class", lit class)] children.

Definition span (class : string) (children : list node) : node :=
  Elem (lit "span") [(lit "class", lit class)] children.

Definition a_href (href : string) : node :=
  Elem (lit "a") [(lit "href", lit href)] [Text (lit "link")].

End Examples.

(** ** product-extractor.ts *)

(** The file exists in two versions.  Their helper functions ([toSnakeCase],
    [cleanText], [parsePrice], [formatPrice]) are the same text; they
    differ in the variant: a record of six fields in one, a map from
    label-derived keys to strings in the other. *)

Module ProductExtractor.

Import Cheerio.

(** [str.toLowerCase().replace(/[^a-z0-9]+/g, "_")] and then without the
    underscores at either end. *)
Definition is_snake_char (c : N) : bool :=
  ((97 <=? c) && (c <=? 122)) || is_digit c.

Fixpoint underscore_runs (in_run : bool) (s : jstr) : jstr :=
  match s with
  | [] => []
  | c :: r =>
      if is_snake_char c then c :: underscore_runs false r
      else if in_run then underscore_runs true r
      else 95 :: underscore_runs true r
  end.

Fixpoint drop_underscores (s : jstr) : jstr :=
  match s with
  | [] => []
  | c :: r => if c =? 95 then drop_underscores r else s
  end.

Definition toSnakeCase (str : jstr) : jstr :=
  rev (drop_underscores (rev (drop_underscores
    (underscore_runs false (toLowerCase str))))).

Definition BASE_URL : jstr := lit "https://www.artcrystal.eu".

Definition makeAbsolute (href : jstr) : jstr :=
  if jstr_eqb href [] then []
  else if startsWith (lit "http://") href || startsWith (lit "https://") href
  then href
  else BASE_URL ++ (if startsWith (lit "/") href then href else lit "/" ++ href).

Definition cleanText (text : jstr) : jstr := trim (collapse_ws text).

(** *** parsePrice *)

Definition is_price_char (c : N) : bool :=
  is_digit c || (c =? 46) || (c =? 44).

(** The lookahead of the second pattern: exactly three digits and then a
    comma or the end of the input. *)
Definition thousands_follow (r : jstr) : bool :=
  match r with
  | d1 :: d2 :: d3 :: t =>
      is_digit d1 && is_digit d2 && is_digit d3
      && match t with [] => true | c :: _ => c =? 44 end
  | _ => false
  end.

(** Every period that the lookahead accepts is removed. *)
Fixpoint remove_thousands (s : jstr) : jstr :=
  match s with
  | [] => []
  | c :: r =>
      if (c =? 46) && thousands_follow r then remove_thousands r
      else c :: remove_thousands r
  end.

(** [.replace(",", ".")]: the first comma only. *)
Fixpoint replace_first_comma (s : jstr) : jstr :=
  match s with
  | [] => []
  | c :: r => if c =? 44 then 46 :: r else c :: replace_first_comma r
  end.

(** The longest prefix of digits, and the rest. *)
Fixpoint span_digits (s : jstr) : jstr * jstr :=
  match s with
  | [] => ([], [])
  | c :: r =>
      if is_digit c then let '(ds, rest) := span_digits r in (c :: ds, rest)
      else ([], s)
  end.

(** [parseFloat] on a string of digits, periods and commas, which is all
    that [parsePrice] gives it (no sign, no exponent, no white space): the
    number of the longest prefix that is digits, optionally a period and
    digits, with one digit at least, and NaN without such a prefix. *)
Definition parseFloat (s : jstr) : float :=
  let '(ip, rest) := span_digits s in
  let fp := match rest with
            | 46 :: r => fst (span_digits r)
            | _ => []
            end in
  if jstr_eqb (ip ++ fp) [] then PrimFloat.nan
  else Num.of_decimal (Num.digits_value (ip ++ fp)) (length fp).

(** [null] is [None]. *)
Definition parsePrice (raw : jstr) : option float :=
  let s := List.filter is_price_char raw in
  if jstr_eqb s [] then None
  else
    let normalized := replace_first_comma (remove_thousands s) in
    let num := parseFloat normalized in
    if Num.isNaN num then None else Some num.

(** The literal [1.21] of the source is this binary64 number. *)
Definition VAT : float := 0x1.35c28f5c28f5cp+0%float.

Section Platform.

Variable Number_toString : float -> jstr.

Definition formatPrice (num : float) : jstr := Num.toFixed2 Number_toString num.

(** [n !== null ? formatPrice(n / 1.21) : empty] *)
Definition price_excl (n : option float) : jstr :=
  match n with
  | Some num => formatPrice (PrimFloat.div num VAT)
  | None => []
  end.

(** *** The variants of extractProduct, with the variant a record *)

Record ProductVariant := MkVariant {
  color : jstr;
  art_no : jstr;
  price_incl_vat : jstr;
  price_excl_vat : jstr;
  in_stock : bool;
  status_text : jstr
}.

(** [.s1-buttonRows .s1-buttonRow] *)
Definition sel_rows : selector :=
  [[[SClass (lit "s1-buttonRows")]; [SClass (lit "s1-buttonRow")]]].
(** [.s1-buttonRow-val .s1-buttonRow-txt] *)
Definition sel_val_txt : selector :=
  [[[SClass (lit "s1-buttonRow-val")]; [SClass (lit "s1-buttonRow-txt")]]].
(** [.s1-buttonRow-identifier .s1-buttonRow-txt] *)
Definition sel_identifier_txt : selector :=
  [[[SClass (lit "s1-buttonRow-identifier")]; [SClass (lit "s1-buttonRow-txt")]]].
(** [.price .priceCombTaxValueNumber] *)
Definition sel_price : selector :=
  [[[SClass (lit "price")]; [SClass (lit "priceCombTaxValueNumber")]]].
(** [.s1-buttonRow-wh] *)
Definition sel_wh : selector := [cls "s1-buttonRow-wh"].

(** The stock indicator of a row: the lower-cased [style] of its first
    [.s1-buttonRow-wh] names the green [#228b22]. *)
Definition stock_green (whEl : list node) : bool :=
  includes (lit "#228b22") (toLowerCase (default [] (attr whEl (lit "style")))).

(** The body of the loop over the rows. *)
Definition row_variant (row : node) : ProductVariant :=
  let color := cleanText (text (first (find sel_val_txt row))) in
  let artNo := cleanText (text (first (find sel_identifier_txt row))) in
  let priceInclRaw := cleanText (text (first (find sel_price row))) in
  let priceInclNum := parsePrice priceInclRaw in
  let priceExcl := price_excl priceInclNum in
  let whEl := first (find sel_wh row) in
  let inStock := stock_green whEl in
  let statusText := cleanText (text whEl) in
  MkVariant color artNo priceInclRaw priceExcl inStock statusText.

(** The text of the page's displayed price. *)
Definition mainPriceRaw (doc : list node) : jstr :=
  cleanText (text (first (select sel_price doc))).

(** The [variants] field of the result of [extractProduct]: one variant a
    row and, without rows, one made of the main price if there is one. *)
Definition extractProduct_variants (doc : list node) : list ProductVariant :=
  let variants := List.map row_variant (select sel_rows doc) in
  if (length variants =? 0)%nat then
    let raw := mainPriceRaw doc in
    if jstr_eqb raw [] then variants
    else
      let mainPriceNum := parsePrice raw in
      let mainPriceExcl := price_excl mainPriceNum in
      variants ++ [MkVariant [] [] raw mainPriceExcl false []]
  else variants.

End Platform.

End ProductExtractor.

(** *** The variants of extractProduct, with the variant a map *)

Module ProductExtractorDynamic.

Import Cheerio ProductExtractor.

(** [.s1-buttonRow-val], [.s1-buttonRow-line], [.s1-buttonRow-txt] *)
Definition sel_val : selector := [cls "s1-buttonRow-val"].
Definition sel_line : selector := [cls "s1-buttonRow-line"].
Definition sel_txt : selector := [cls "s1-buttonRow-txt"].

(** The text of a copy of the element from which the [.s1-buttonRow-txt]
    elements under it were removed. *)
Definition label_text (el : node) : jstr :=
  match el with
  | Text d => d
  | Elem _ _ cs => text (remove sel_txt cs)
  end.

(** The body of the two loops over labelled elements; [fallback] is the
    prefix of the key of an element without label. *)
Definition labelled_step (fallback : jstr) (variant : gmap jstr jstr)
    (el : node) : gmap jstr jstr :=
  let labelRaw := cleanText (label_text el) in
  let value := cleanText (text (first (find sel_txt el))) in
  if jstr_eqb value [] then variant
  else
    let key := if jstr_eqb labelRaw [] then fallback ++ of_nat (size variant + 1)
               else toSnakeCase labelRaw in
    if jstr_eqb key [] then variant else <[key := value]> variant.

Section Platform.

Variable Number_toString : float -> jstr.

(** The body of the loop over the rows. *)
Definition row_variant (row : node) : gmap jstr jstr :=
  let v1 := fold_left (labelled_step (lit "attr_")) (find sel_val row) ∅ in
  let v2 := fold_left (labelled_step (lit "line_")) (find sel_line row) v1 in
  let priceInclRaw := cleanText (text (first (find sel_price row))) in
  let v3 := if jstr_eqb priceInclRaw [] then v2
            else <[lit "price_excl_vat" :=
                     price_excl Number_toString (parsePrice priceInclRaw)]>
                   (<[lit "price_incl_vat" := priceInclRaw]> v2) in
  let whEl := first (find sel_wh row) in
  let v4 := <[lit "in_stock" := if stock_green whEl then lit "true" else lit "false"]> v3 in
  let statusText := cleanText (text whEl) in
  if jstr_eqb statusText [] then v4 else <[lit "status_text" := statusText]> v4.

Definition extractProduct_variants (doc : list node) : list (gmap jstr jstr) :=
  let variants := List.map row_variant (select sel_rows doc) in
  if (length variants =? 0)%nat then
    let raw := mainPriceRaw doc in
    if jstr_eqb raw [] then variants
    else
      variants ++
        [<[lit "in_stock" := lit "false"]>
           (<[lit "price_excl_vat" := price_excl Number_toString (parsePrice raw)]>
              (<[lit "price_incl_vat" := raw]> ∅))]
  else variants.

End Platform.

End ProductExtractorDynamic.

(** ** file-reader.ts *)

Module FileReader.

Definition URL_COLUMN_NAMES : list jstr :=
  [lit "url"; lit "loc"; lit "link"; lit "href"; lit "address"; lit "uri"].

(** [headers.findIndex(p)], with [None] for -1. *)
Fixpoint findIndex {A} (p : A -> bool) (l : list A) : option nat :=
  match l with
  | [] => None
  | x :: r => if p x then Some O else Datatypes.S <$> findIndex p r
  end.

(** The two errors of [findUrlColumn], with what their messages print. *)
Inductive column_error :=
| ColumnNotFound (preferred : jstr) (headers : list jstr)
| NoUrlColumn (headers : list jstr).

(** The first name of [names] that some header has, as the index of the
    first header that has it. *)
Fixpoint first_named (headers : list jstr) (names : list jstr) : option nat :=
  match names with
  | [] => None
  | name :: rest =>
      match findIndex (fun h => jstr_eqb (toLowerCase (trim h)) name) headers with
      | Some idx => Some idx
      | None => first_named headers rest
      end
  end.

Section Platform.

(** The platform's [toLowerCase], for the comparison of a header with the
    preferred name, where both sides may be outside ASCII. *)
Variable String_toLowerCase : jstr -> jstr.

(** [preferred] is [None] when the argument is left out; the empty string
    is as good as none. *)
Definition findUrlColumn (headers : list jstr) (preferred : option jstr)
    : column_error + nat :=
  match preferred with
  | Some (c :: p) =>
      match findIndex (fun h => jstr_eqb (String_toLowerCase (trim h))
                                  (String_toLowerCase (trim (c :: p))))
              headers with
      | Some idx => inr idx
      | None => inl (ColumnNotFound (c :: p) headers)
      end
  | _ =>
      match first_named headers URL_COLUMN_NAMES with
      | Some idx => inr idx
      | None => inl (NoUrlColumn headers)
      end
  end.

End Platform.

(** The loop of [parseCsvRow] on what is left of the line.  In quotes, a
    quote followed by a quote is one quote of the field, and any other
    quote ends the quotes. *)
Fixpoint parseCsvRow_loop (line : jstr) (fields : list jstr) (current : jstr)
    (inQuotes : bool) : list jstr :=
  match line with
  | [] => fields ++ [current]
  | ch :: rest =>
      if inQuotes then
        if ch =? 34 then
          match rest with
          | 34 :: rest' => parseCsvRow_loop rest' fields (current ++ [34]) true
          | _ => parseCsvRow_loop rest fields current false
          end
        else parseCsvRow_loop rest fields (current ++ [ch]) true
      else if ch =? 34 then parseCsvRow_loop rest fields current true
      else if ch =? 44 then parseCsvRow_loop rest (fields ++ [current]) [] false
      else parseCsvRow_loop rest fields (current ++ [ch]) false
  end.

Definition parseCsvRow (line : jstr) : list jstr :=
  parseCsvRow_loop line [] [] false.

End FileReader.

(** ** exporter.ts *)

Module Exporter.

(** The replacement of [escapeCsv]: every quote becomes two. *)
Definition double_quotes (str : jstr) : jstr :=
  List.concat (List.map (fun c => if c =? 34 then [34; 34] else [c]) str).

(** [escapeCsv] on a string or [null]. *)
Definition escapeCsv (value : option jstr) : jstr :=
  let str := default [] value in
  if includes [34] str || includes [44] str || includes [10] str
     || includes [13] str
  then [34] ++ double_quotes str ++ [34]
  else str.

(** One line of [toCsv]: the cells of a row, each escaped, joined with
    commas. *)
Definition toCsv_line (cells : list jstr) : jstr :=
  Json.join_comma (List.map (fun str => escapeCsv (Some str)) cells).

End Exporter.

(** ** sitemap-parser.ts *)

Module SitemapParser.

Import Utils.

(** What the code reads of the parsed XML: the entries under
    [sitemapindex.sitemap] and under [urlset.url], which the parser gives
    as arrays when they are there, each entry with its [loc] or
    without. *)
Record xml_doc := MkXml {
  sitemapindex_sitemap : option (list (option jstr));
  urlset_url : option (list (option jstr))
}.

(** [entries.map(e => e.loc).filter(Boolean)]: the entries that have a
    [loc] that is not empty. *)
Definition locs (entries : list (option jstr)) : list jstr :=
  omap (fun l => match l with
                 | Some (c :: r) => Some (c :: r)
                 | _ => None
                 end) entries.

Section Platform.

Context {S : Type}.

(** The request for the text of a URL, and the XML parser, which may
    throw. *)
Variable http_get : jstr -> S -> (error + jstr) * S.
Variable XML_parse : jstr -> error + xml_doc.

Definition fetchSitemapXml (url : jstr) : M S error jstr :=
  withRetry (http_get url).

(** The loop over the child sitemaps, [parse] being [parseSitemap]. *)
Fixpoint each_child
    (parse : jstr -> world S -> option ((error + list jstr) * world S))
    (childSitemaps : list jstr) (allUrls : list jstr) (w : world S)
    : option ((error + list jstr) * world S) :=
  match childSitemaps with
  | [] => Some (inr allUrls, w)
  | childUrl :: rest =>
      match parse childUrl w with
      | None => None
      | Some (inl e, w') => Some (inl e, w')
      | Some (inr urls, w') => each_child parse rest (allUrls ++ urls) w'
      end
  end.

(** [parseSitemap], nested [fuel] deep at most: [None] when that is not
    enough.  What it prints is left out. *)
Fixpoint parseSitemap (fuel : nat) (sitemapUrl : jstr) (w : world S)
    : option ((error + list jstr) * world S) :=
  match fuel with
  | O => None
  | Datatypes.S fuel' =>
      match fetchSitemapXml sitemapUrl w with
      | (inl e, w1) => Some (inl e, w1)
      | (inr xml, w1) =>
          match XML_parse xml with
          | inl e => Some (inl e, w1)
          | inr parsed =>
              match sitemapindex_sitemap parsed with
              | Some entries =>
                  each_child (parseSitemap fuel') (locs entries) [] w1
              | None =>
                  match urlset_url parsed with
                  | Some entries => Some (inr (locs entries), w1)
                  | None => Some (inr [], w1)
                  end
              end
          end
      end
  end.

End Platform.

(** [filterUrls]: the pattern is a regular expression without flags,
    whose [test] is a function of the string. *)
Definition filterUrls (urls : list jstr) (pattern_test : jstr -> bool)
    : list jstr :=
  List.filter pattern_test urls.

End SitemapParser.

(** ** article-extractor.ts *)

Module ArticleExtractor.

Import Cheerio.




End ArticleExtractor.

(** * Properties *)

Local Close Scope N_scope.

(** ** deduplicateUrls *)

Module DedupeFacts.

Import Utils.

(** The loop of [deduplicateUrls] read as a recursion on the URLs that are
    left, [seen] being the keys so far. *)
Fixpoint dedupe_from (seen : gset jstr) (urls : list jstr) : list jstr :=
  match urls with
  | [] => []
  | url :: rest =>
      if decide (strip_trailing_slash url ∈ seen) then dedupe_from seen rest
      else url :: dedupe_from ({[strip_trailing_slash url]} ∪ seen) rest
  end.

(** The specification's words: a URL stays exactly when no URL before it
    in the input has its key, the key being the URL less one trailing
    slash; the URLs that stay keep their order and their spelling.
    [before] is the part of the input already passed. *)
Fixpoint first_occurrences_from (before urls : list jstr) : list jstr :=
  match urls with
  | [] => []
  | url :: rest =>
      if decide (strip_trailing_slash url ∈ strip_trailing_slash <$> before)
      then first_occurrences_from (before ++ [url]) rest
      else url :: first_occurrences_from (before ++ [url]) rest
  end.

Definition first_occurrences (urls : list jstr) : list jstr :=
  first_occurrences_from [] urls.

Lemma strip_snoc_slash (s : jstr) : strip_trailing_slash (s ++ [47%N]) = s.
Proof.
  unfold strip_trailing_slash. rewrite rev_app_distr. simpl.
  apply rev_involutive.
Qed.

Lemma strip_no_slash (s : jstr) :
  last s ≠ Some 47%N → strip_trailing_slash s = s.
Proof.
  intros Hlast. unfold strip_trailing_slash.
  destruct (rev s) as [|c r] eqn:Hrev; [done|].
  assert (Hs : s = rev r ++ [c]).
  { rewrite <- (rev_involutive s), Hrev. reflexivity. }
  destruct (decide (c = 47%N)) as [->|Hc].
  - exfalso. apply Hlast. rewrite Hs. apply last_snoc.
  - destruct c as [|p]; [done|].
    repeat (destruct p as [p|p|]; try done).
Qed.

Lemma fold_dedupe_step (urls : list jstr) (seen : gset jstr) (unique : list jstr) :
  (fold_left dedupe_step urls (seen, unique)).2 = unique ++ dedupe_from seen urls.
Proof.
  revert seen unique.
  induction urls as [|url rest IH]; intros seen unique; simpl.
  - by rewrite app_nil_r.
  - unfold dedupe_step at 2. simpl. case_decide.
    + apply IH.
    + rewrite IH. by rewrite <- app_assoc.
Qed.

Lemma deduplicateUrls_unfold (urls : list jstr) :
  deduplicateUrls urls = dedupe_from ∅ urls.
Proof. unfold deduplicateUrls. by rewrite fold_dedupe_step. Qed.

Lemma dedupe_from_length (urls : list jstr) (seen : gset jstr) :
  length (dedupe_from seen urls) ≤ length urls.
Proof.
  revert seen. induction urls as [|url rest IH]; intros seen; simpl; [done|].
  case_decide; simpl.
  - specialize (IH seen). lia.
  - specialize (IH ({[strip_trailing_slash url]} ∪ seen)). lia.
Qed.

Lemma dedupe_from_sublist (urls : list jstr) (seen : gset jstr) :
  dedupe_from seen urls `sublist_of` urls.
Proof.
  revert seen. induction urls as [|url rest IH]; intros seen; simpl.
  - constructor.
  - case_decide.
    + apply sublist_cons, IH.
    + apply sublist_skip, IH.
Qed.

Lemma dedupe_from_fresh (urls : list jstr) (seen : gset jstr) (u : jstr) :
  u ∈ dedupe_from seen urls → strip_trailing_slash u ∉ seen.
Proof.
  revert seen. induction urls as [|url rest IH]; intros seen; simpl.
  - by intros ?%elem_of_nil.
  - case_decide as Hin.
    + apply IH.
    + intros [->|Hu]%elem_of_cons; [done|].
      apply IH in Hu. set_solver.
Qed.

Lemma dedupe_from_NoDup (urls : list jstr) (seen : gset jstr) :
  NoDup (strip_trailing_slash <$> dedupe_from seen urls).
Proof.
  revert seen. induction urls as [|url rest IH]; intros seen; simpl.
  - constructor.
  - case_decide as Hin; [apply IH|].
    rewrite fmap_cons. constructor; [|apply IH].
    intros (u & Hk & Hu)%list_elem_of_fmap.
    apply dedupe_from_fresh in Hu. set_solver.
Qed.

(** A list whose keys are distinct and all new is left as it is. *)
Lemma dedupe_from_fixed (l : list jstr) (seen : gset jstr) :
  NoDup (strip_trailing_slash <$> l) →
  (∀ u, u ∈ l → strip_trailing_slash u ∉ seen) →
  dedupe_from seen l = l.
Proof.
  revert seen. induction l as [|u l IH]; intros seen Hnd Hfresh; simpl; [done|].
  rewrite fmap_cons in Hnd. apply NoDup_cons in Hnd as [Hu Hnd].
  case_decide as Hin.
  - exfalso. by apply (Hfresh u); [left|].
  - f_equal. apply IH; [done|].
    intros v Hv [Heq%elem_of_singleton|Hs]%elem_of_union.
    + apply Hu. rewrite <- Heq. apply list_elem_of_fmap. eauto.
    + by apply (Hfresh v); [right|].
Qed.

Lemma dedupe_from_first_occurrences (urls before : list jstr) (seen : gset jstr) :
  (∀ k, k ∈ seen ↔ k ∈ strip_trailing_slash <$> before) →
  dedupe_from seen urls = first_occurrences_from before urls.
Proof.
  revert before seen.
  induction urls as [|url rest IH]; intros before seen Hseen; simpl; [done|].
  destruct (decide (strip_trailing_slash url ∈ seen)) as [Hin|Hin];
    destruct (decide (strip_trailing_slash url ∈ strip_trailing_slash <$> before))
      as [Hin'|Hin'].
  - apply IH. intros k. rewrite fmap_app, elem_of_app. simpl.
    rewrite list_elem_of_singleton, <- Hseen. split; [by left|].
    by intros [?| ->].
  - exfalso. by apply Hin', Hseen.
  - exfalso. by apply Hin, Hseen.
  - f_equal. apply IH. intros k. rewrite fmap_app, elem_of_app. simpl.
    rewrite list_elem_of_singleton, elem_of_union, elem_of_singleton, <- Hseen.
    split; intros [?|?]; auto.
Qed.

(** C6. For every list of URLs, [deduplicateUrls] returns a list that is
    no longer than its input, is a subsequence of it, is made of the first
    occurrence of every key with the URL as it was spelled, and is left
    unchanged by a second run; the key is the URL without one trailing
    slash: a URL that ends in a slash loses that slash and no more, any
    other URL is its own key. *)
Theorem deduplicateUrls_first_occurrence_idempotent (urls : list jstr) :
  length (deduplicateUrls urls) ≤ length urls
  ∧ deduplicateUrls urls `sublist_of` urls
  ∧ deduplicateUrls urls = first_occurrences urls
  ∧ NoDup (strip_trailing_slash <$> deduplicateUrls urls)
  ∧ deduplicateUrls (deduplicateUrls urls) = deduplicateUrls urls
  ∧ (∀ s : jstr, strip_trailing_slash (s ++ [47%N]) = s)
  ∧ (∀ s : jstr, last s ≠ Some 47%N → strip_trailing_slash s = s).
Proof.
  rewrite !deduplicateUrls_unfold.
  split; [apply dedupe_from_length|].
  split; [apply dedupe_from_sublist|].
  split; [apply dedupe_from_first_occurrences; set_solver|].
  split; [apply dedupe_from_NoDup|].
  split.
  - apply dedupe_from_fixed; [apply dedupe_from_NoDup|set_solver].
  - split; [apply strip_snoc_slash|apply strip_no_slash].
Qed.

(** The theorem on a list with a repeated URL and two spellings of one
    page. *)
Lemma deduplicateUrls_first_occurrence_idempotent_witness :
  deduplicateUrls [lit "https://s.test/a/"; lit "https://s.test/a";
                   lit "https://s.test/b"; lit "https://s.test/a/"]
  = [lit "https://s.test/a/"; lit "https://s.test/b"]
  ∧ strip_trailing_slash (lit "https://s.test/a//") = lit "https://s.test/a/".
Proof.
  pose proof (deduplicateUrls_first_occurrence_idempotent
                [lit "https://s.test/a/"; lit "https://s.test/a";
                 lit "https://s.test/b"; lit "https://s.test/a/"])
    as (_ & _ & Hfirst & _ & _ & Hstrip & _).
  split.
  - rewrite Hfirst. vm_compute. reflexivity.
  - apply (Hstrip (lit "https://s.test/a/")).
Defined.

End DedupeFacts.

(** ** withRetry *)

Module RetryFacts.

Import Utils.

Section Retry.

Context {S E T : Type}.
Implicit Types (fn : S → (E + T) * S) (s : S) (tr : list event).

Lemma withRetry_first_success fn s tr v s1 :
  fn s = (inr v, s1) →
  withRetry fn (World s tr) = (inr v, World s1 (tr ++ [Called])).
Proof.
  intros H1. unfold withRetry, try_catch, call. simpl. by rewrite H1.
Qed.

Lemma withRetry_second_run fn s tr e1 s1 :
  fn s = (inl e1, s1) →
  withRetry fn (World s tr)
  = match fn s1 with
    | (inr v, s2) => (inr v, World s2 (tr ++ [Called; Slept 1000; Called]))
    | (inl _, s2) => (inl e1, World s2 (tr ++ [Called; Slept 1000; Called]))
    end.
Proof.
  intros H1. unfold withRetry, try_catch, bind, sleep, call, throw. simpl.
  rewrite H1. simpl. destruct (fn s1) as [[e2|v] s2]; simpl;
    by rewrite <- !app_assoc.
Qed.

End Retry.

(** C3. For every operation, state and trace: when the first run of the
    operation succeeds, [withRetry] returns its result and the operation
    has run once, with no suspension; when the first run fails, the
    operation runs once more, after one suspension of 1000 ms, and no
    further time; the result of that second run is returned when it
    succeeds, and when it fails too the error that [withRetry] throws is
    the error of the first run. *)
Theorem withRetry_once_more_first_error {S E T : Type}
    (fn : S → (E + T) * S) (s : S) (tr : list event) :
  (∀ v s1, fn s = (inr v, s1) →
     withRetry fn (World s tr) = (inr v, World s1 (tr ++ [Called])))
  ∧ (∀ e1 s1 v s2, fn s = (inl e1, s1) → fn s1 = (inr v, s2) →
       withRetry fn (World s tr)
       = (inr v, World s2 (tr ++ [Called; Slept 1000; Called])))
  ∧ (∀ e1 s1 e2 s2, fn s = (inl e1, s1) → fn s1 = (inl e2, s2) →
       withRetry fn (World s tr)
       = (inl e1, World s2 (tr ++ [Called; Slept 1000; Called]))).
Proof.
  split; [|split].
  - intros v s1. apply withRetry_first_success.
  - intros e1 s1 v s2 H1 H2. rewrite (withRetry_second_run _ _ _ _ _ H1).
    by rewrite H2.
  - intros e1 s1 e2 s2 H1 H2. rewrite (withRetry_second_run _ _ _ _ _ H1).
    by rewrite H2.
Qed.

(** An operation on a counter of its runs: the run numbered [n] fails with
    the error [n] while [n] is below the bound, and succeeds with [n]
    after. *)
Definition failing_until (bound : nat) (n : nat) : (nat + nat) * nat :=
  if (n <? bound)%nat then (inl n, Datatypes.S n) else (inr n, Datatypes.S n).

(** The theorem on three operations: one that succeeds at once, one that
    fails once, one that fails twice (and whose second error, 1, is not
    the one thrown). *)
Lemma withRetry_once_more_first_error_witness :
  withRetry (failing_until 0) (World 0 []) = (inr 0, World 1 [Called])
  ∧ withRetry (failing_until 1) (World 0 [])
    = (inr 1, World 2 [Called; Slept 1000; Called])
  ∧ withRetry (failing_until 2) (World 0 [])
    = (inl 0, World 2 [Called; Slept 1000; Called]).
Proof.
  split; [|split].
  - apply (proj1 (withRetry_once_more_first_error (failing_until 0) 0 [])).
    reflexivity.
  - apply (proj1 (proj2 (withRetry_once_more_first_error (failing_until 1) 0 []))
             0 1 1 2); reflexivity.
  - apply (proj2 (proj2 (withRetry_once_more_first_error (failing_until 2) 0 []))
             0 1 1 2); reflexivity.
Defined.

End RetryFacts.

(** ** runInBatches *)

Module BatchFacts.

Import Utils.

Section Window.

Context {T R E : Type}.
Variable processor : T → E + R.
Variable total : nat.
Variable batch : list T.

(** Every task of the window is fulfilled, with [f] of its item. *)
Variable f : T → R.
Hypothesis fulfilled : ∀ x, x ∈ batch → processor x = inr (f x).

(** The slot [k] holds the result of the task [k]. *)
Definition filled (st : @window_state T R E) (k : nat) : Prop :=
  slots st !! k = Some (f <$> batch !! k).

Lemma settle_rejected st k :
  rejected st = None → rejected (settle processor total batch st k) = None.
Proof.
  intros Hr. unfold settle.
  destruct (batch !! k) as [item|] eqn:Hk; [|done].
  rewrite (fulfilled item) by (by eapply list_elem_of_lookup_2). done.
Qed.

Lemma settle_length st k :
  length (slots (settle processor total batch st k)) = length (slots st).
Proof.
  unfold settle. destruct (batch !! k) as [item|] eqn:Hk; [|done].
  rewrite (fulfilled item) by (by eapply list_elem_of_lookup_2). simpl.
  apply length_insert.
Qed.

Lemma settle_fills st k :
  k < length (slots st) → k < length batch →
  filled (settle processor total batch st k) k.
Proof.
  intros Hk Hb. unfold filled, settle.
  destruct (lookup_lt_is_Some_2 batch k Hb) as [item Hitem]. rewrite Hitem.
  rewrite (fulfilled item) by (by eapply list_elem_of_lookup_2). simpl.
  by rewrite list_lookup_insert_eq.
Qed.

Lemma settle_keeps st j k :
  filled st k → filled (settle processor total batch st j) k.
Proof.
  unfold filled, settle. intros Hf.
  destruct (batch !! j) as [item|] eqn:Hj; [|done].
  rewrite (fulfilled item) by (by eapply list_elem_of_lookup_2). simpl.
  destruct (decide (j = k)) as [->|Hne].
  - rewrite list_lookup_insert_eq; [by rewrite Hj|].
    by eapply lookup_lt_Some.
  - by rewrite list_lookup_insert_ne.
Qed.

Lemma fold_settle_keeps order st k :
  filled st k → filled (fold_left (settle processor total batch) order st) k.
Proof.
  revert st. induction order as [|j order IH]; intros st Hf; simpl; [done|].
  by apply IH, settle_keeps.
Qed.

Lemma fold_settle_rejected order st :
  rejected st = None →
  rejected (fold_left (settle processor total batch) order st) = None.
Proof.
  revert st. induction order as [|j order IH]; intros st Hr; simpl; [done|].
  by apply IH, settle_rejected.
Qed.

Lemma fold_settle_length order st :
  length (slots (fold_left (settle processor total batch) order st))
  = length (slots st).
Proof.
  revert st. induction order as [|j order IH]; intros st; simpl; [done|].
  by rewrite IH, settle_length.
Qed.

(** Whatever the order, the slot of every task that settles holds the
    result of that task. *)
Lemma fold_settle_fills order st k :
  length (slots st) = length batch → k < length batch → k ∈ order →
  filled (fold_left (settle processor total batch) order st) k.
Proof.
  revert st. induction order as [|j order IH]; intros st Hlen Hk Hin; simpl.
  - by apply elem_of_nil in Hin.
  - apply elem_of_cons in Hin as [->|Hin].
    + apply fold_settle_keeps, settle_fills; [by rewrite Hlen|done].
    + apply IH; [by rewrite settle_length|done..].
Qed.

(** A window whose tasks all settle is fulfilled with the results in the
    order of the items, whatever the order in which they settle. *)
Lemma run_window_in_order order completed0 log0 :
  order ≡ₚ seq 0 (length batch) →
  ∃ completed1 log1,
    run_window processor total batch order completed0 log0
    = (Some (inr (f <$> batch)), completed1, log1).
Proof.
  intros Hperm. unfold run_window.
  set (st0 := WindowState _ _ _ _).
  set (st := fold_left _ order st0).
  assert (Hlen0 : length (slots st0) = length batch)
    by (simpl; apply length_replicate).
  assert (Hrej : rejected st = None) by (by apply fold_settle_rejected).
  assert (Hslots : slots st = Some <$> (f <$> batch)).
  { apply list_eq. intros k. rewrite !list_lookup_fmap.
    destruct (decide (k < length batch)) as [Hk|Hk].
    - assert (Hin : k ∈ order).
      { rewrite Hperm. apply elem_of_seq. lia. }
      pose proof (fold_settle_fills order st0 k Hlen0 Hk Hin) as Hf.
      unfold filled in Hf. fold st in Hf. rewrite Hf.
      destruct (lookup_lt_is_Some_2 batch k Hk) as [item Hitem].
      by rewrite Hitem.
    - rewrite (lookup_ge_None_2 batch) by lia. simpl.
      apply lookup_ge_None_2. unfold st.
      rewrite fold_settle_length, Hlen0. lia. }
  rewrite Hrej, Hslots.
  rewrite (mapM_fmap_Some id Some (f <$> batch)) by done.
  simpl. eauto.
Qed.

End Window.

Section Loop.

Context {T R E : Type}.
Variable processor : T → E + R.
Variable sched : nat → list nat.
Variable items : list T.
Variable concurrency : nat.
Variable delayMs : N.
Variable f : T → R.

Hypothesis positive : 1 ≤ concurrency.
Hypothesis fulfilled : ∀ x, x ∈ items → processor x = inr (f x).
Hypothesis all_settle : ∀ i, i < length items →
  sched i ≡ₚ seq 0 (length (take concurrency (drop i items))).

Lemma batches_loop_in_order fuel i results completed0 log0 :
  length items - i < fuel →
  ∃ log1,
    batches_loop processor sched fuel items concurrency delayMs i results
      completed0 log0
    = Some (inr (results ++ (f <$> drop i items)), log1).
Proof.
  revert i results completed0 log0.
  induction fuel as [|fuel IH]; intros i results completed0 log0 Hfuel; [lia|].
  cbn [batches_loop]. destruct (Nat.ltb_spec i (length items)) as [Hi|Hi].
  - set (batch := take concurrency (drop i items)).
    assert (Hbatch : ∀ x, x ∈ batch → processor x = inr (f x)).
    { intros x Hx. apply fulfilled.
      apply elem_of_take in Hx as (j & Hj & _).
      apply list_elem_of_lookup_2 in Hj.
      rewrite <- (take_drop i items). apply elem_of_app. by right. }
    destruct (run_window_in_order processor (length items) batch f Hbatch
                (sched i) completed0 log0 (all_settle i Hi))
      as (completed1 & log1 & Hwin).
    rewrite Hwin.
    edestruct (IH (i + concurrency) (results ++ (f <$> batch)) completed1)
      as (log2 & Hloop); [lia|].
    rewrite Hloop. eexists. do 2 f_equal.
    rewrite <- app_assoc. f_equal.
    rewrite <- fmap_app. f_equal. unfold batch.
    rewrite <- drop_drop. by rewrite take_drop.
  - eexists. rewrite drop_ge by lia. by rewrite app_nil_r.
Qed.

End Loop.

(** X5. With the concurrency 0 the index never moves: on a list that is
    not empty the loop does not end, whatever the number of turns. *)
Lemma runInBatches_zero_concurrency {T R E : Type}
    (processor : T → E + R) (sched : nat → list nat) (items : list T)
    (delayMs : N) (fuel : nat) :
  items ≠ [] →
  runInBatches processor sched fuel items 0 delayMs = None.
Proof.
  intros Hne. unfold runInBatches.
  assert (Hwin : ∀ order completed0 log0,
             run_window processor (length items) [] order completed0 log0
             = (Some (inr []), completed0, log0 ++ [])).
  { intros order completed0 log0. unfold run_window.
    cbn [List.map length replicate].
    set (st0 := WindowState completed0 (log0 ++ []) [] None).
    assert (Hfold : fold_left (settle processor (length items) []) order st0 = st0).
    { induction order as [|k order IH]; [done|]. cbn [fold_left].
      unfold settle at 2. by rewrite lookup_nil. }
    by rewrite Hfold. }
  generalize (@nil R) at 1. generalize 0 at 3. generalize (@nil (@batch_event T R)).
  induction fuel as [|fuel IH]; intros log0 completed0 results; [done|].
  cbn [batches_loop]. rewrite take_0, Hwin, Nat.add_0_r.
  destruct (Nat.ltb_spec 0 (length items)) as [_|Hlen].
  - apply IH.
  - destruct items; [done|simpl in Hlen; lia].
Qed.

(** C4. For every list of items, every concurrency of 1 or more and every
    task function whose tasks are fulfilled, and whatever the order in
    which the tasks of each window settle (all of them do), [runInBatches]
    returns the array that has one result an item and, at every index, the
    result of the task of the item at that index; a number of turns above
    the number of items is enough for it to return. *)
Theorem runInBatches_results_in_input_order {T R E : Type}
    (processor : T → E + R) (sched : nat → list nat) (items : list T)
    (concurrency : nat) (delayMs : N) (fuel : nat) :
  1 ≤ concurrency →
  (∀ x, x ∈ items → ∃ r, processor x = inr r) →
  (∀ i, i < length items →
     sched i ≡ₚ seq 0 (length (take concurrency (drop i items)))) →
  length items < fuel →
  ∃ results log1,
    runInBatches processor sched fuel items concurrency delayMs
    = Some (inr results, log1)
    ∧ length results = length items
    ∧ ∀ i item, items !! i = Some item →
        ∃ r, results !! i = Some r ∧ processor item = inr r.
Proof.
  intros Hc Hful Hsched Hfuel.
  (* the result of a task, read off [processor] *)
  set (f := λ x, match processor x with inr r => Some r | inl _ => None end).
  destruct items as [|x0 items'] eqn:Hitems.
  - destruct fuel; [simpl in Hfuel; lia|]. exists [], []. simpl.
    split; [done|]. split; [done|]. intros i item Hi. by destruct i.
  - rewrite <- Hitems in *.
    destruct (Hful x0) as [r0 Hr0]; [rewrite Hitems; by left|].
    set (g := λ x, default r0 (f x)).
    assert (Hg : ∀ x, x ∈ items → processor x = inr (g x)).
    { intros x Hx. destruct (Hful x Hx) as [r Hr]. unfold g, f.
      by rewrite Hr. }
    destruct (batches_loop_in_order processor sched items concurrency delayMs
                g Hc Hg Hsched fuel 0 [] 0 []) as (log1 & Hrun); [lia|].
    exists (g <$> items), log1. unfold runInBatches. rewrite Hrun.
    split; [done|]. split; [apply length_fmap|].
    intros i item Hi. exists (g item). rewrite list_lookup_fmap, Hi.
    split; [done|]. apply Hg. by eapply list_elem_of_lookup_2.
Qed.

(** The theorem on five items in windows of two, every window settling
    last task first. *)
Lemma runInBatches_results_in_input_order_witness :
  ∃ results log1,
    runInBatches (λ x : nat, inr (A:=unit) (x * 10))
      (λ i, rev (seq 0 (length (take 2 (drop i [1; 2; 3; 4; 5])))))
      6 [1; 2; 3; 4; 5] 2 500%N
    = Some (inr results, log1)
    ∧ length results = 5
    ∧ ∀ i item, [1; 2; 3; 4; 5] !! i = Some item →
        ∃ r, results !! i = Some r ∧ inr (A:=unit) (item * 10) = inr r.
Proof.
  apply (runInBatches_results_in_input_order
           (λ x : nat, inr (A:=unit) (x * 10))
           (λ i, rev (seq 0 (length (take 2 (drop i [1; 2; 3; 4; 5])))))
           [1; 2; 3; 4; 5] 2 500%N 6).
  - lia.
  - intros x _. by eexists.
  - intros i _. symmetry. apply Permutation_rev.
  - simpl. lia.
Defined.

End BatchFacts.

(** ** Searching a string *)

Module StringFacts.



End StringFacts.

(** ** classifyPage *)

Module ClassifyFacts.

Import Json Cheerio Crawler StringFacts.

(** The shapes of a path that the specification names. *)










Section Platform.

Variable Number_toString : float → jstr.
Variable URL_of_absolute : jstr → option URL.






End Platform.


End ClassifyFacts.

(** ** extractLinks *)

Module LinkFacts.

Import Json Cheerio Crawler.

(** The [href] of every anchor that has one, in document order. *)
Definition href_of (el : node) : jstr := default [] (attr [el] (lit "href")).

Definition hrefs (doc : list node) : list jstr :=
  href_of <$> select sel_a_href doc.

(** The links left out of both counts: fragments, [mailto:] and [tel:]. *)
Definition excluded (href : jstr) : bool :=
  startsWith (lit "#") href || startsWith (lit "mailto:") href
  || startsWith (lit "tel:") href.

(** A path-relative link: one slash at the start, not two. *)
Definition path_relative (href : jstr) : bool :=
  startsWith (lit "/") href && negb (startsWith (lit "//") href).

Section Platform.

Variable URL_of_absolute : jstr → option URL.

(** The three classes of a link that is not left out: internal (relative
    to the root, or with the host of the page), external (with another
    host), and skipped (neither relative to the root nor a URL that the
    parser accepts: a relative reference, a link that starts with two
    slashes, the empty link). *)
Definition internal_href (baseHost href : jstr) : bool :=
  negb (excluded href)
  && (path_relative href
      || match newURL URL_of_absolute href with
         | Some u => jstr_eqb (hostname u) baseHost
         | None => false
         end).

Definition external_href (baseHost href : jstr) : bool :=
  negb (excluded href) && negb (path_relative href)
  && match newURL URL_of_absolute href with
     | Some u => negb (jstr_eqb (hostname u) baseHost)
     | None => false
     end.

Definition skipped_href (href : jstr) : bool :=
  negb (excluded href) && negb (path_relative href)
  && match newURL URL_of_absolute href with
     | Some _ => false
     | None => true
     end.

(** The specification as it is written: every link that is not left out counts
    once, as internal or as external. *)
Definition every_link_counted (doc : list node) (baseHost : jstr) : Prop :=
  length (extractLinks URL_of_absolute doc baseHost).1
  + (extractLinks URL_of_absolute doc baseHost).2
  = length (List.filter (λ h, negb (excluded h)) (hrefs doc)).

Lemma newURL_empty : newURL URL_of_absolute [] = None.
Proof. reflexivity. Qed.

Lemma link_step_spec (baseHost : jstr) (acc : list jstr * nat) (el : node) :
  link_step URL_of_absolute baseHost acc el
  = (acc.1 ++ (if internal_href baseHost (href_of el) then [href_of el] else []),
     acc.2 + (if external_href baseHost (href_of el) then 1 else 0)).
Proof.
  unfold link_step, internal_href, external_href, excluded, path_relative.
  fold (href_of el). destruct acc as [internal externalCount].
  unfold jstr_eqb at 1. case_bool_decide as Hempty.
  - rewrite Hempty. cbn. by rewrite app_nil_r, Nat.add_0_r.
  - destruct (startsWith (lit "#") (href_of el)),
      (startsWith (lit "mailto:") (href_of el)),
      (startsWith (lit "tel:") (href_of el)),
      (startsWith (lit "/") (href_of el)),
      (startsWith (lit "//") (href_of el));
      cbn [orb andb negb fst snd];
      rewrite ?app_nil_r, ?Nat.add_0_r; try done;
      (destruct (newURL URL_of_absolute (href_of el)) as [u|];
       [destruct (jstr_eqb (hostname u) baseHost)|];
       cbn [orb andb negb]; rewrite ?app_nil_r, ?Nat.add_0_r; try done;
       f_equal; lia).
Qed.

Lemma fold_link_step (baseHost : jstr) (els : list node) (acc : list jstr * nat) :
  fold_left (link_step URL_of_absolute baseHost) els acc
  = (acc.1 ++ List.filter (internal_href baseHost) (href_of <$> els),
     acc.2 + length (List.filter (external_href baseHost) (href_of <$> els))).
Proof.
  revert acc. induction els as [|el els IH]; intros acc.
  - destruct acc. cbn. by rewrite app_nil_r, Nat.add_0_r.
  - cbn [fold_left]. rewrite IH, link_step_spec, fmap_cons.
    cbn [List.filter fst snd].
    destruct (internal_href baseHost (href_of el)),
      (external_href baseHost (href_of el)); cbn [length app];
      rewrite <- ?app_assoc, ?app_nil_r; f_equal; lia.
Qed.

Lemma classes_partition (baseHost href : jstr) :
  excluded href = false →
  (internal_href baseHost href = true ∧ external_href baseHost href = false
   ∧ skipped_href href = false)
  ∨ (internal_href baseHost href = false ∧ external_href baseHost href = true
     ∧ skipped_href href = false)
  ∨ (internal_href baseHost href = false ∧ external_href baseHost href = false
     ∧ skipped_href href = true).
Proof.
  intros Hex. unfold internal_href, external_href, skipped_href.
  rewrite Hex.
  destruct (path_relative href); cbn [orb andb negb]; [by left|].
  destruct (newURL URL_of_absolute href) as [u|]; [|by right; right].
  destruct (jstr_eqb (hostname u) baseHost); cbn [negb];
    [by left|by right; left].
Qed.

Lemma count_classes (baseHost : jstr) (l : list jstr) :
  length (List.filter (internal_href baseHost) l)
  + length (List.filter (external_href baseHost) l)
  + length (List.filter skipped_href l)
  = length (List.filter (λ h, negb (excluded h)) l).
Proof.
  induction l as [|href l IH]; [done|]. cbn [List.filter].
  destruct (excluded href) eqn:Hex; cbn [negb].
  - unfold internal_href, external_href, skipped_href.
    rewrite Hex. cbn [orb andb negb]. apply IH.
  - destruct (classes_partition baseHost href Hex)
      as [(-> & -> & ->)|[(-> & -> & ->)|(-> & -> & ->)]];
      cbn [negb length]; lia.
Qed.

(** What [extractLinks] does.  It returns, in document order, the links
    that are internal, and the number of those that are external, where a
    link that does not start with [#], [mailto:] or [tel:] is internal
    when it starts with one slash (the parser is not asked), or when the
    parser accepts it and finds the host of the page, is external when
    the parser accepts it and finds another host, and is skipped when it
    does not start with one slash and the parser rejects it.  A link that
    is not left out is in exactly one of the three classes, so the
    internal and the external links together are the links that are not
    left out less the skipped ones. *)
Lemma extractLinks_internal_external_or_skipped
    (doc : list node) (baseHost : jstr) :
  (extractLinks URL_of_absolute doc baseHost).1
  = List.filter (internal_href baseHost) (hrefs doc)
  ∧ (extractLinks URL_of_absolute doc baseHost).2
    = length (List.filter (external_href baseHost) (hrefs doc))
  ∧ (∀ href, path_relative href = true → excluded href = false →
       internal_href baseHost href = true)
  ∧ (∀ href, excluded href = false →
       (internal_href baseHost href = true
        ∧ external_href baseHost href = false ∧ skipped_href href = false)
       ∨ (internal_href baseHost href = false
          ∧ external_href baseHost href = true ∧ skipped_href href = false)
       ∨ (internal_href baseHost href = false
          ∧ external_href baseHost href = false ∧ skipped_href href = true))
  ∧ length (extractLinks URL_of_absolute doc baseHost).1
    + (extractLinks URL_of_absolute doc baseHost).2
    + length (List.filter skipped_href (hrefs doc))
    = length (List.filter (λ h, negb (excluded h)) (hrefs doc)).
Proof.
  unfold extractLinks, hrefs. rewrite fold_link_step. cbn [fst snd app].
  split; [done|]. split; [done|]. split.
  { intros href Hrel Hex. unfold internal_href. by rewrite Hex, Hrel. }
  split; [intros href; apply classes_partition|].
  apply count_classes.
Qed.

(** A link that does not start with a scheme is skipped, whatever the
    parser does on the other inputs. *)
Lemma no_scheme_skipped (href : jstr) :
  excluded href = false → path_relative href = false →
  has_scheme href = false → skipped_href href = true.
Proof.
  intros Hex Hrel Hsch. unfold skipped_href, newURL.
  by rewrite Hex, Hrel, Hsch.
Qed.

End Platform.

(** A page with four links: one relative to the root, one to the host of
    the page, one to another host, and one relative reference. *)
Definition four_links : list node :=
  Examples.html_body
    [Examples.a_href "/contact"; Examples.a_href "https://shop.test/a";
     Examples.a_href "https://other.test/b"; Examples.a_href "about.html";
     Examples.a_href "#top"].

(** The relative reference is in neither count: four links are not left
    out, two are internal and one is external. *)
Lemma extractLinks_four_links :
  extractLinks Examples.simple_URL four_links (lit "shop.test")
  = ([lit "/contact"; lit "https://shop.test/a"], 1)
  ∧ List.filter (λ h, negb (excluded h)) (hrefs four_links)
    = [lit "/contact"; lit "https://shop.test/a"; lit "https://other.test/b";
       lit "about.html"].
Proof. split; vm_compute; reflexivity. Qed.

(** That lemma on the page. *)
Lemma extractLinks_four_links_classes :
  (extractLinks Examples.simple_URL four_links (lit "shop.test")).1
  = [lit "/contact"; lit "https://shop.test/a"]
  ∧ internal_href Examples.simple_URL (lit "shop.test") (lit "/contact") = true
  ∧ skipped_href Examples.simple_URL (lit "about.html") = true.
Proof.
  destruct (extractLinks_internal_external_or_skipped Examples.simple_URL
              four_links (lit "shop.test")) as (Hint & _ & Hrel & Hpart & _).
  split; [|split].
  - rewrite Hint. vm_compute. reflexivity.
  - apply Hrel; reflexivity.
  - destruct (Hpart (lit "about.html") eq_refl)
      as [(H & _)|[(_ & H & _)|(_ & _ & H)]];
      [vm_compute in H; discriminate H..|exact H].
Qed.

(** A page of the shop whose four links are well formed and lead to the
    shop itself: a relative reference, a link that starts with two
    slashes and names the host of the page, a reference to the parent
    directory, and a query. *)
Definition relative_links : list node :=
  Examples.html_body
    [Examples.a_href "about.html"; Examples.a_href "//shop.test/sale";
     Examples.a_href "../lamps/"; Examples.a_href "?page=2"].

(** C9.  The code does not do what the specification says.  [new
    URL(href)] is called without a base and throws on every link without
    a scheme, whatever the parser does with the others: a link that is
    not left out, does not start with one slash and has no scheme is
    neither internal nor external.  On the page with the four links
    above, none of which is left out, nothing is counted: not every link
    that is not left out counts once. *)
Theorem extractLinks_drops_links_without_scheme
    (URL_of_absolute : jstr → option URL) (baseHost : jstr) :
  (∀ href, excluded href = false → path_relative href = false →
     has_scheme href = false →
     internal_href URL_of_absolute baseHost href = false
     ∧ external_href URL_of_absolute baseHost href = false)
  ∧ (∀ doc, Forall (λ href, excluded href = true ∨ has_scheme href = false
                            ∧ path_relative href = false) (hrefs doc) →
       extractLinks URL_of_absolute doc baseHost = ([], 0))
  ∧ List.filter (λ h, negb (excluded h)) (hrefs relative_links)
    = [lit "about.html"; lit "//shop.test/sale"; lit "../lamps/";
       lit "?page=2"]
  ∧ extractLinks URL_of_absolute relative_links baseHost = ([], 0)
  ∧ ¬ every_link_counted URL_of_absolute relative_links baseHost.
Proof.
  assert (Hnone : ∀ href, excluded href = false → path_relative href = false →
            has_scheme href = false →
            internal_href URL_of_absolute baseHost href = false
            ∧ external_href URL_of_absolute baseHost href = false).
  { intros href Hex Hrel Hsch. unfold internal_href, external_href, newURL.
    by rewrite Hex, Hrel, Hsch. }
  split; [exact Hnone|]. split; [|split; [by vm_compute|split]].
  - intros doc Hall. unfold extractLinks. fold (hrefs doc).
    rewrite fold_link_step. cbn [fst snd app]. unfold hrefs in *.
    induction Hall as [|href l Hhref _ IH]; [done|].
    cbn [List.filter].
    assert (Hboth : internal_href URL_of_absolute baseHost href = false
                    ∧ external_href URL_of_absolute baseHost href = false).
    { destruct Hhref as [Hex|[Hsch Hrel]].
      - unfold internal_href, external_href. by rewrite Hex.
      - destruct (excluded href) eqn:Hex.
        + unfold internal_href, external_href. by rewrite Hex.
        + by apply Hnone. }
    destruct Hboth as [-> ->]. exact IH.
  - reflexivity.
  - unfold every_link_counted.
    change (extractLinks URL_of_absolute relative_links baseHost) with
      (@nil jstr, 0).
    vm_compute. discriminate.
Qed.

End LinkFacts.

(** ** The page after extractContent *)

Module PageFacts.

Import Json Cheerio Crawler Utils.

(** Induction on a node, with the property of every child at hand. *)
Lemma node_children_ind (P : node → Prop) :
  (∀ d, P (Text d)) →
  (∀ t a cs, Forall P cs → P (Elem t a cs)) →
  ∀ n, P n.
Proof.
  intros HText HElem. fix IH 1. intros [d|t a cs].
  - apply HText.
  - apply HElem. induction cs as [|c cs IHcs]; constructor.
    + apply IH.
    + apply IHcs.
Qed.

(** No element under the node (the node included) is a [script]. *)
Fixpoint script_free (n : node) : Prop :=
  match n with
  | Text _ => True
  | Elem t _ cs =>
      t ≠ lit "script" ∧ (fix all (l : list node) : Prop :=
                            match l with
                            | [] => True
                            | c :: l' => script_free c ∧ all l'
                            end) cs
  end.

Definition all_script_free (l : list node) : Prop :=
  Forall script_free l.

Lemma script_free_Elem t a cs :
  script_free (Elem t a cs) ↔ t ≠ lit "script" ∧ all_script_free cs.
Proof.
  unfold all_script_free. simpl.
  assert (Hall : (fix all (l : list node) : Prop :=
                    match l with
                    | [] => True
                    | c :: l' => script_free c ∧ all l'
                    end) cs ↔ Forall script_free cs).
  { induction cs as [|c cs IH]; [by split; [constructor|]|].
    rewrite Forall_cons, <- IH. done. }
  by rewrite Hall.
Qed.

Lemma matches_noise_script anc a :
  matches noise anc (lit "script", a) = true.
Proof. by destruct anc. Qed.

Lemma all_script_free_concat (ls : list (list node)) :
  Forall all_script_free ls → all_script_free (List.concat ls).
Proof.
  unfold all_script_free. induction 1 as [|l ls Hl _ IH]; simpl.
  - constructor.
  - by apply Forall_app.
Qed.

Lemma remove_in_script_free (n : node) :
  ∀ anc, all_script_free (remove_in noise anc n).
Proof.
  induction n as [d|t a cs IH] using node_children_ind; intros anc.
  - apply Forall_cons. split; [exact I|constructor].
  - cbn [remove_in]. destruct (matches noise anc (t, a)) eqn:Hm.
    + constructor.
    + apply Forall_cons. split; [|constructor].
      apply script_free_Elem. split.
      * intros ->. by rewrite matches_noise_script in Hm.
      * apply all_script_free_concat. apply Forall_forall.
        intros l Hl. apply list_elem_of_In, in_map_iff in Hl as (c & <- & Hc).
        apply list_elem_of_In in Hc.
        rewrite Forall_forall in IH. by apply IH.
Qed.

Lemma remove_noise_script_free (doc : list node) :
  all_script_free (remove noise doc).
Proof.
  unfold remove. apply all_script_free_concat, Forall_forall.
  intros l Hl. apply list_elem_of_In, in_map_iff in Hl as (c & <- & _).
  apply remove_in_script_free.
Qed.

Lemma matches_json_ld_name anc t a :
  matches sel_json_ld anc (t, a) = true → t = lit "script".
Proof.
  unfold matches, sel_json_ld. cbn [existsb].
  rewrite orb_false_r. unfold matches_complex. cbn [rev app].
  unfold matches_compound. cbn [forallb fst snd matches_simple].
  unfold jstr_eqb at 1. intros H.
  apply andb_true_iff in H as [H _]. apply andb_true_iff in H as [H _].
  by apply bool_decide_eq_true in H.
Qed.

Lemma select_in_script_free (n : node) :
  ∀ anc, script_free n → select_in sel_json_ld anc n = [].
Proof.
  induction n as [d|t a cs IH] using node_children_ind; intros anc Hfree.
  - done.
  - apply script_free_Elem in Hfree as [Ht Hcs]. cbn [select_in].
    destruct (matches sel_json_ld anc (t, a)) eqn:Hm.
    + by apply matches_json_ld_name in Hm.
    + cbn [app]. unfold all_script_free in Hcs.
      induction cs as [|c cs IHcs]; [done|].
      apply Forall_cons in IH as [IHc IH].
      apply Forall_cons in Hcs as [Hc Hcs].
      cbn [List.map List.concat]. rewrite IHc by done.
      by apply IHcs.
Qed.

Lemma select_script_free (doc : list node) :
  all_script_free doc → select sel_json_ld doc = [].
Proof.
  unfold select, all_script_free. induction 1 as [|n doc Hn _ IH]; [done|].
  cbn [List.map List.concat]. by rewrite select_in_script_free, IH.
Qed.

Section Platform.

Variable Number_toString : float → jstr.
Variable JSON_parse : jstr → option json.
Variable URL_of_absolute : jstr → option URL.

(** [crawlPage] looks for the JSON-LD block after [extractContent] has
    removed every [script] from the page: it finds none. *)
Lemma extractJsonLd_after_extractContent (doc : list node) :
  extractJsonLd JSON_parse (extractContent doc).2 = None.
Proof.
  unfold extractJsonLd, extractContent. cbn [snd].
  by rewrite select_script_free by apply remove_noise_script_free.
Qed.

(** What [crawlPage] reports of a page it has fetched: the content is the
    cleaned text of the page without its noise, cut at 2000 code units; the
    words are counted in that content; nothing comes from JSON-LD. *)
Lemma pageData_fields (url : jstr) (resp : response) (d : PageData) :
  pageData Number_toString JSON_parse URL_of_absolute url resp = inr d →
  content d = slice0 2000 (content_raw (remove noise (data resp)))
  ∧ length (content d) ≤ 2000
  ∧ word_count d = count_words (content d)
  ∧ json_ld_found d = false
  ∧ (∃ u, newURL URL_of_absolute url = Some u
          ∧ page_type_of d = default page (classifyPath (pathname u))).
Proof.
  unfold pageData. destruct (newURL URL_of_absolute url) as [u|] eqn:Hu; [|done].
  pose proof (extractJsonLd_after_extractContent (data resp)) as Hld.
  unfold extractContent in *. cbn [snd] in Hld. rewrite Hld.
  assert (Hlen : length (slice0 2000 (content_raw (remove noise (data resp)))) ≤ 2000).
  { unfold slice0. rewrite length_take. apply Nat.le_min_l. }
  remember (slice0 2000 (content_raw (remove noise (data resp)))) as c eqn:Hc.
  destruct (extractLinks _ _ _) as [internal externalCount].
  destruct (extractPrice _ _ _) as [price currency].
  unfold classifyPage. rewrite Hu. intros Hd.
  apply (inj inr) in Hd. subst d.
  cbn [content word_count json_ld_found page_type_of fst].
  split; [done|]. split; [done|].
  split; [done|]. split; [done|].
  exists u. split; [done|]. by destruct (classifyPath (pathname u)).
Qed.

(** The price when the JSON-LD block gives none: the [content] attribute
    of the first [itemprop="price"] element when it has one, and the text
    of the [itemprop="price"] elements otherwise, be it empty.  The third
    operand, the text of the price classes, is never the result. *)
Lemma extractPrice_html_sources (doc : list node) (jsonLd : option json) :
  price_from_json_ld Number_toString jsonLd = None →
  (extractPrice Number_toString doc jsonLd).1
  = match price_itemprop_content doc with
    | Some c => c
    | None => trim (text (select sel_itemprop_price doc))
    end.
Proof.
  intros Hld. unfold extractPrice. rewrite Hld. cbn [fst].
  unfold price_itemprop_text. by destruct (price_itemprop_content doc).
Qed.

(** Without a price in JSON-LD and without an [itemprop="price"] element,
    the price is empty, whatever the page has in its price classes. *)
Lemma extractPrice_empty_without_itemprop (doc : list node) (jsonLd : option json) :
  price_from_json_ld Number_toString jsonLd = None →
  select sel_itemprop_price doc = [] →
  (extractPrice Number_toString doc jsonLd).1 = [].
Proof.
  intros Hld Hsel. rewrite extractPrice_html_sources by done.
  unfold price_itemprop_content. by rewrite Hsel.
Qed.

End Platform.

(** *** A page of 500 words *)

(** [<nav>menu</nav><article>words words ... </article>], the word 500
    times: 3000 code units of text in the article. *)
Definition long_page : list node :=
  Examples.html_body
    [Elem (lit "nav") [] [Text (lit "menu")];
     Elem (lit "article") [] [Text (List.concat (repeat (lit "words ") 500))]].

(** C1.  On the page of 500 words, whose cleaned text has 2999 code units,
    [crawlPage] succeeds with a content of 2000 code units and the word
    count 334, which is the number of pieces of that content (333 words
    and the two letters left of the next), not the 500 words of the text. *)
Theorem crawlPage_counts_words_of_cut_content
    (Number_toString : float → jstr) (JSON_parse : jstr → option json) :
  ∃ d w,
    crawlPage Number_toString JSON_parse Examples.simple_URL
      (lit "https://shop.test/about")
      (λ _ (s : unit), (inr (MkResponse 200 long_page), s)) (World tt [])
    = (Success d, w)
    ∧ length (content_raw (remove noise long_page)) = 2999
    ∧ count_words (content_raw (remove noise long_page)) = 500
    ∧ length (content d) = 2000
    ∧ count_words (content d) = 334
    ∧ word_count d = 334.
Proof.
  eexists _, _. split; [vm_compute; reflexivity|].
  repeat split; vm_compute; reflexivity.
Qed.

(** *** A page with a price class *)

(** [<div class="price">100 €</div>] *)
Definition price_class_page : list node :=
  Examples.html_body
    [Examples.div "price" [Text (lit "100 " ++ Examples.euro)]].

(** C5.  On a page without JSON-LD and without [itemprop="price"] whose
    [.price] element reads 100 euros, the third source would give 100,
    and [extractPrice] returns the empty price. *)
Theorem extractPrice_price_class_unused (Number_toString : float → jstr) :
  price_from_json_ld Number_toString None = None
  ∧ price_itemprop_content price_class_page = None
  ∧ select sel_itemprop_price price_class_page = []
  ∧ price_class_text price_class_page = Some (lit "100")
  ∧ extractPrice Number_toString price_class_page None = ([], []).
Proof. repeat split; vm_compute; reflexivity. Qed.

End PageFacts.

(** ** parsePrice and formatPrice *)

Module PriceFacts.

Import Cheerio ProductExtractor.

Definition no_digit (s : jstr) : Prop := Forall (λ c, is_digit c = false) s.

Lemma filter_no_digit (f : N → bool) (s : jstr) :
  no_digit s → no_digit (List.filter f s).
Proof.
  unfold no_digit. induction 1 as [|c s Hc _ IH]; [constructor|].
  cbn [List.filter]. destruct (f c); [by constructor|done].
Qed.

Lemma remove_thousands_no_digit (s : jstr) :
  no_digit s → no_digit (remove_thousands s).
Proof.
  unfold no_digit. induction 1 as [|c s Hc _ IH]; [constructor|].
  cbn [remove_thousands].
  destruct ((c =? 46)%N && thousands_follow s); [done|by constructor].
Qed.

Lemma replace_first_comma_no_digit (s : jstr) :
  no_digit s → no_digit (replace_first_comma s).
Proof.
  unfold no_digit. induction 1 as [|c s Hc Hs IH]; [constructor|].
  cbn [replace_first_comma]. destruct (c =? 44)%N; by constructor.
Qed.

Lemma span_digits_no_digit (s : jstr) :
  no_digit s → span_digits s = ([], s).
Proof.
  intros Hs. destruct Hs as [|c s Hc _]; [done|].
  cbn [span_digits]. by rewrite Hc.
Qed.

Lemma parseFloat_no_digit (s : jstr) : no_digit s → parseFloat s = PrimFloat.nan.
Proof.
  intros Hs. unfold parseFloat. rewrite (span_digits_no_digit s Hs).
  destruct s as [|c r]; [done|].
  apply Forall_cons in Hs as [_ Hr].
  destruct (decide (c = 46%N)) as [->|Hc].
  - by rewrite (span_digits_no_digit r Hr).
  - destruct c as [|p]; [done|].
    repeat (destruct p as [p|p|]; try done).
Qed.

(** A string without a digit has no price. *)
Lemma parsePrice_no_digit (raw : jstr) : no_digit raw → parsePrice raw = None.
Proof.
  intros Hraw. unfold parsePrice.
  destruct (jstr_eqb (List.filter is_price_char raw) []); [done|].
  rewrite parseFloat_no_digit; [done|].
  by apply replace_first_comma_no_digit, remove_thousands_no_digit,
    filter_no_digit.
Qed.

Lemma parsePrice_not_NaN (raw : jstr) (x : float) :
  parsePrice raw = Some x → Num.isNaN x = false.
Proof.
  unfold parsePrice.
  destruct (jstr_eqb (List.filter is_price_char raw) []); [done|].
  destruct (Num.isNaN _) eqn:Hnan; [done|]. by intros [= <-].
Qed.

(** The three vectors of the specification, as it gives them. *)
Definition written_vectors (Number_toString : float → jstr) : Prop :=
  parsePrice (lit "770 " ++ Examples.euro) = Some 770%float
  ∧ price_excl Number_toString (parsePrice (lit "770 " ++ Examples.euro))
    = lit "636.36"
  ∧ parsePrice (lit "1 250,00 " ++ Examples.euro) = Some 1250%float
  ∧ price_excl Number_toString (parsePrice (lit "1 250,00 " ++ Examples.euro))
    = lit "1032.23"
  ∧ parsePrice (lit "N/A") = None.

(** C2, as it is written, fails: 1250 divided by 1.21 is 1033.06 to two
    places, not 1032.23, whatever prints the numbers. *)
Lemma written_vectors_fail : ¬ ∃ Number_toString, written_vectors Number_toString.
Proof.
  intros (Number_toString & _ & _ & _ & H & _).
  vm_compute in H. discriminate H.
Qed.

(** C2, as amended.  [parsePrice] reads 770 in [770 €] and 1250 in
    [1 250,00 €]; divided by 1.21 and printed with two decimals these
    are [636.36] and [1033.06]; [N/A], like every string without a digit,
    has no price ([null], which is not zero, and no exception: the
    function is total), it gives the empty string as price without VAT;
    and a price that is found is a number. *)
Theorem parsePrice_vectors (Number_toString : float → jstr) :
  parsePrice (lit "770 " ++ Examples.euro) = Some 770%float
  ∧ price_excl Number_toString (parsePrice (lit "770 " ++ Examples.euro))
    = lit "636.36"
  ∧ parsePrice (lit "1 250,00 " ++ Examples.euro) = Some 1250%float
  ∧ price_excl Number_toString (parsePrice (lit "1 250,00 " ++ Examples.euro))
    = lit "1033.06"
  ∧ parsePrice (lit "N/A") = None
  ∧ price_excl Number_toString (parsePrice (lit "N/A")) = []
  ∧ (∀ raw, no_digit raw → parsePrice raw = None)
  ∧ (∀ raw x, parsePrice raw = Some x → Num.isNaN x = false).
Proof.
  repeat split; try (vm_compute; reflexivity).
  - apply parsePrice_no_digit.
  - apply parsePrice_not_NaN.
Qed.

(** The theorem on a string of letters and punctuation. *)
Lemma parsePrice_vectors_witness :
  parsePrice (lit "price: n.a., ask") = None.
Proof.
  apply (proj1 (proj2 (proj2 (proj2 (proj2 (proj2 (proj2
           (parsePrice_vectors Examples.no_numbers)))))))).
  unfold no_digit. repeat constructor.
Defined.

End PriceFacts.

(** ** The variants of extractProduct *)

Module VariantFacts.

Import Cheerio ProductExtractor.

Module Dyn := ProductExtractorDynamic.

Section Platform.

Variable Number_toString : float → jstr.

(** The variant that the version with records makes of the main price. *)
Definition fallback_record (raw : jstr) : ProductVariant :=
  MkVariant [] [] raw (price_excl Number_toString (parsePrice raw)) false [].

(** The variant that the version with maps makes of the main price. *)
Definition fallback_map (raw : jstr) : gmap jstr jstr :=
  <[lit "in_stock" := lit "false"]>
    (<[lit "price_excl_vat" := price_excl Number_toString (parsePrice raw)]>
       (<[lit "price_incl_vat" := raw]> ∅)).

Lemma variants_without_rows (doc : list node) :
  select sel_rows doc = [] →
  extractProduct_variants Number_toString doc
  = (if jstr_eqb (mainPriceRaw doc) [] then []
     else [fallback_record (mainPriceRaw doc)])
  ∧ Dyn.extractProduct_variants Number_toString doc
    = (if jstr_eqb (mainPriceRaw doc) [] then []
       else [fallback_map (mainPriceRaw doc)]).
Proof.
  intros Hrows. unfold extractProduct_variants, Dyn.extractProduct_variants.
  rewrite Hrows. cbn [List.map length Nat.eqb app].
  by destruct (jstr_eqb (mainPriceRaw doc) []).
Qed.

Lemma variants_with_rows (doc : list node) :
  select sel_rows doc ≠ [] →
  extractProduct_variants Number_toString doc
  = row_variant Number_toString <$> select sel_rows doc
  ∧ Dyn.extractProduct_variants Number_toString doc
    = Dyn.row_variant Number_toString <$> select sel_rows doc.
Proof.
  intros Hrows. unfold extractProduct_variants, Dyn.extractProduct_variants.
  destruct (select sel_rows doc) as [|row rows]; [done|].
  by cbn [List.map length Nat.eqb].
Qed.

Lemma jstr_eqb_nil_false (s : jstr) : s ≠ [] → jstr_eqb s [] = false.
Proof. intros Hs. by apply bool_decide_eq_false_2. Qed.

(** The elements of the page that the two selectors of the fallback
    name, written out: the variant rows, [.s1-buttonRows .s1-buttonRow],
    and the elements of the displayed main price,
    [.price .priceCombTaxValueNumber], in document order. *)
Definition variant_rows (doc : list node) : list node :=
  select [[[SClass (lit "s1-buttonRows")]; [SClass (lit "s1-buttonRow")]]] doc.

Definition main_price_elements (doc : list node) : list node :=
  select [[[SClass (lit "price")]; [SClass (lit "priceCombTaxValueNumber")]]]
    doc.

(** Some element of class [price] shows a price: its text has a number. *)
Definition shows_price (doc : list node) : Prop :=
  ∃ el, el ∈ select [cls "price"] doc ∧ parsePrice (textContent el) ≠ None.

(** The last part of the specification as it is written: without
    variant rows, there is a variant whenever a price is on the page. *)
Definition variant_whenever_price_shown : Prop :=
  ∀ doc, variant_rows doc = [] → shows_price doc →
    1 ≤ length (extractProduct_variants Number_toString doc)
    ∧ 1 ≤ length (Dyn.extractProduct_variants Number_toString doc).

Lemma mainPriceRaw_first_element (doc : list node) :
  mainPriceRaw doc
  = match main_price_elements doc with
    | el :: _ => cleanText (textContent el)
    | [] => []
    end.
Proof.
  unfold mainPriceRaw, main_price_elements.
  change sel_price
    with [[[SClass (lit "price")]; [SClass (lit "priceCombTaxValueNumber")]]].
  destruct (select _ doc) as [|el rest]; [done|].
  unfold first, text. cbn [take List.map concat]. by rewrite app_nil_r.
Qed.

(** C7, as amended.  In both versions of [extractProduct], on a page
    without variant rows: when the page has an element of the displayed
    main price, [.price .priceCombTaxValueNumber], and the cleaned text
    of the first one is not empty, the variants are exactly one variant,
    whose price is that text and whose price without VAT is computed from
    it; [500 €] there gives the price without VAT [413.22]; when the
    cleaned text of the first one is empty, or there is no such element,
    there is no variant, whatever the page shows elsewhere.  With or
    without rows, a page whose first main price element has a text that
    is not empty has one variant at least. *)
Theorem extractProduct_one_variant_of_first_price_element (doc : list node) :
  (variant_rows doc = [] →
   ∀ el rest, main_price_elements doc = el :: rest →
     (cleanText (textContent el) ≠ [] →
        extractProduct_variants Number_toString doc
        = [MkVariant [] [] (cleanText (textContent el))
             (price_excl Number_toString (parsePrice (cleanText (textContent el))))
             false []]
        ∧ Dyn.extractProduct_variants Number_toString doc
          = [<[lit "in_stock" := lit "false"]>
               (<[lit "price_excl_vat" :=
                    price_excl Number_toString
                      (parsePrice (cleanText (textContent el)))]>
                  (<[lit "price_incl_vat" := cleanText (textContent el)]> ∅))])
     ∧ (cleanText (textContent el) = lit "500 " ++ Examples.euro →
          (∃ v, extractProduct_variants Number_toString doc = [v]
                ∧ price_incl_vat v = lit "500 " ++ Examples.euro
                ∧ price_excl_vat v = lit "413.22")
          ∧ (∃ m, Dyn.extractProduct_variants Number_toString doc = [m]
                  ∧ m !! lit "price_incl_vat"
                    = Some (lit "500 " ++ Examples.euro)
                  ∧ m !! lit "price_excl_vat" = Some (lit "413.22")))
     ∧ (cleanText (textContent el) = [] →
          extractProduct_variants Number_toString doc = []
          ∧ Dyn.extractProduct_variants Number_toString doc = []))
  ∧ (variant_rows doc = [] → main_price_elements doc = [] →
       extractProduct_variants Number_toString doc = []
       ∧ Dyn.extractProduct_variants Number_toString doc = [])
  ∧ (∀ el rest, main_price_elements doc = el :: rest →
       cleanText (textContent el) ≠ [] →
       1 ≤ length (extractProduct_variants Number_toString doc)
       ∧ 1 ≤ length (Dyn.extractProduct_variants Number_toString doc)).
Proof.
  pose proof (mainPriceRaw_first_element doc) as Hraw.
  split; [|split].
  - intros Hrows el rest Hel. rewrite Hel in Hraw.
    destruct (variants_without_rows doc Hrows) as [-> ->]. rewrite Hraw.
    split; [|split].
    + intros Hne. by rewrite jstr_eqb_nil_false.
    + intros ->. split.
      * eexists. split; [reflexivity|]. split; vm_compute; reflexivity.
      * eexists. split; [reflexivity|]. unfold fallback_map. split.
        -- rewrite lookup_insert_ne by done. rewrite lookup_insert_ne by done.
           by rewrite lookup_insert_eq.
        -- rewrite lookup_insert_ne by done. rewrite lookup_insert_eq.
           vm_compute. reflexivity.
    + by intros ->.
  - intros Hrows Hnone. rewrite Hnone in Hraw.
    destruct (variants_without_rows doc Hrows) as [-> ->]. by rewrite Hraw.
  - intros el rest Hel Hne. rewrite Hel in Hraw.
    destruct (decide (select sel_rows doc = [])) as [Hrows|Hrows].
    + destruct (variants_without_rows doc Hrows) as [-> ->].
      rewrite Hraw, jstr_eqb_nil_false by done. simpl. lia.
    + destruct (variants_with_rows doc Hrows) as [-> ->].
      rewrite !length_fmap.
      destruct (select sel_rows doc); [done|simpl; lia].
Qed.

(** C10.  In both versions of [extractProduct]: on a page without variant
    rows, every variant (there is the one made of the main price, or none)
    is not in stock and has no colour and no article number, whatever the
    page shows elsewhere: [in_stock] is [false], or the string [false] in
    the version with maps, where the keys [color] and [art_no] are absent;
    the green of stock is looked for in the rows only, where [in_stock]
    tells whether the style of the row's stock element names it. *)
Theorem extractProduct_fallback_not_in_stock (doc : list node) :
  (select sel_rows doc = [] →
     (∀ v, v ∈ extractProduct_variants Number_toString doc →
        in_stock v = false ∧ color v = [] ∧ art_no v = [])
     ∧ (∀ m, m ∈ Dyn.extractProduct_variants Number_toString doc →
          m !! lit "in_stock" = Some (lit "false")
          ∧ m !! lit "color" = None ∧ m !! lit "art_no" = None))
  ∧ (∀ row,
       in_stock (row_variant Number_toString row)
       = stock_green (first (find sel_wh row))
       ∧ Dyn.row_variant Number_toString row !! lit "in_stock"
         = Some (if stock_green (first (find sel_wh row))
                 then lit "true" else lit "false")).
Proof.
  split.
  - intros Hrows. destruct (variants_without_rows doc Hrows) as [-> ->].
    destruct (jstr_eqb (mainPriceRaw doc) []).
    + split; intros ? []%elem_of_nil.
    + split.
      * intros v ->%list_elem_of_singleton. done.
      * intros m ->%list_elem_of_singleton. unfold fallback_map.
        split; [by rewrite lookup_insert_eq|].
        split; by rewrite !lookup_insert_ne, lookup_empty.
  - intros row. split; [done|]. unfold Dyn.row_variant.
    destruct (jstr_eqb (cleanText (text (first (find sel_wh row)))) []).
    + by rewrite lookup_insert_eq.
    + rewrite lookup_insert_ne by done. by rewrite lookup_insert_eq.
Qed.

End Platform.

(** *** Two pages without rows *)

(** [<div class="price"><span class="priceCombTaxValueNumber"> 500 €
    </span></div>] *)
Definition main_price : node :=
  Examples.div "price"
    [Examples.span "priceCombTaxValueNumber"
       [Text (lit " 500 " ++ Examples.euro ++ lit " ")]].

Definition price_page : list node := Examples.html_body [main_price].

(** The same page with a green stock element that is in no row. *)
Definition green_page : list node :=
  Examples.html_body
    [Elem (lit "span")
       [(lit "class", lit "s1-buttonRow-wh"); (lit "style", lit "color: #228B22")]
       [Text (lit "In stock")];
     main_price].

(** A page whose price is in an element of class [price] without the
    inner element of the main price, and a page whose first main price
    element is empty and whose second is not. *)
Definition bare_price_page : list node :=
  Examples.html_body [Examples.div "price" [Text (lit "500 " ++ Examples.euro)]].

Definition later_price_page : list node :=
  Examples.html_body
    [Examples.div "price" [Examples.span "priceCombTaxValueNumber" []];
     main_price].

(** The theorem of C7 on the page with the main price of 500 euros, and
    on the page whose first main price element is empty. *)
Lemma extractProduct_one_variant_of_first_price_element_witness :
  extractProduct_variants Examples.no_numbers price_page
  = [MkVariant [] [] (lit "500 " ++ Examples.euro) (lit "413.22") false []]
  ∧ 1 ≤ length (Dyn.extractProduct_variants Examples.no_numbers price_page)
  ∧ extractProduct_variants Examples.no_numbers later_price_page = [].
Proof.
  pose proof (extractProduct_one_variant_of_first_price_element
                Examples.no_numbers price_page) as (Hone & _ & Hlen).
  pose proof (extractProduct_one_variant_of_first_price_element
                Examples.no_numbers later_price_page) as (Hlater & _ & _).
  split; [|split].
  - destruct (Hone eq_refl _ _ eq_refl) as (Hfirst & _ & _).
    rewrite (proj1 (Hfirst ltac:(vm_compute; discriminate))).
    vm_compute. reflexivity.
  - apply (Hlen _ _ eq_refl). vm_compute. discriminate.
  - destruct (Hlater eq_refl _ _ eq_refl) as (_ & _ & Hempty).
    by apply Hempty.
Defined.

(** C7, as it is written, fails in its last part: the page whose price
    is in a bare element of class [price] shows a price and has no
    variant row, and it gets no variant. *)
Lemma extractProduct_price_without_variant :
  ¬ variant_whenever_price_shown Examples.no_numbers.
Proof.
  intros Hall. destruct (Hall bare_price_page) as [Hlen _].
  - reflexivity.
  - exists (Examples.div "price" [Text (lit "500 " ++ Examples.euro)]).
    split; [vm_compute; by left|]. vm_compute. discriminate.
  - vm_compute in Hlen. lia.
Qed.

(** The theorem of C10 on the page with the green stock element. *)
Lemma extractProduct_fallback_not_in_stock_witness :
  ∃ v, extractProduct_variants Examples.no_numbers green_page = [v]
       ∧ in_stock v = false ∧ color v = [] ∧ art_no v = [].
Proof.
  exists (fallback_record Examples.no_numbers (lit "500 " ++ Examples.euro)).
  split; [vm_compute; reflexivity|].
  apply (proj1 (proj1 (extractProduct_fallback_not_in_stock
                         Examples.no_numbers green_page) eq_refl)).
  vm_compute. by left.
Defined.

End VariantFacts.

(** ** The events of a run of runInBatches *)

Module BatchLogFacts.

Import Utils BatchFacts.

Section Events.

Context {T R : Type}.
Implicit Types (e : @batch_event T R) (l : list (@batch_event T R)).

(** What an event tells: the item of a start, the count of a report, the
    other three arguments of a report, the length of a wait. *)
Definition started_item e : option T :=
  match e with Started x => Some x | _ => None end.

Definition done_count e : option nat :=
  match e with ItemDone c _ _ _ => Some c | _ => None end.

Definition done_report e : option (nat * T * R) :=
  match e with ItemDone _ t x r => Some (t, x, r) | _ => None end.

Definition waited_ms e : option N :=
  match e with Waited ms => Some ms | _ => None end.

(** The numbers of tasks started and of tasks reported in the events. *)
Definition starts l : nat := length (omap started_item l).
Definition dones l : nat := length (omap done_count l).

Lemma starts_app l1 l2 : starts (l1 ++ l2) = starts l1 + starts l2.
Proof. unfold starts. by rewrite omap_app, length_app. Qed.

Lemma dones_app l1 l2 : dones (l1 ++ l2) = dones l1 + dones l2.
Proof. unfold dones. by rewrite omap_app, length_app. Qed.

End Events.

Section Window.

Context {T R E : Type}.
Variable processor : T → E + R.
Variable total : nat.
Variable batch : list T.
Variable f : T → R.
Hypothesis fulfilled : ∀ x, x ∈ batch → processor x = inr (f x).

(** The reports of a window whose tasks settle in the order [order], the
    count being [completed0] before. *)
Fixpoint done_events (order : list nat) (completed0 : nat)
    : list (@batch_event T R) :=
  match order with
  | [] => []
  | k :: rest =>
      match batch !! k with
      | Some item =>
          ItemDone (completed0 + 1) total item (f item)
          :: done_events rest (completed0 + 1)
      | None => done_events rest completed0
      end
  end.

Lemma fold_settle_events order (st : @window_state T R E) :
  log (fold_left (settle processor total batch) order st)
  = log st ++ done_events order (completed st)
  ∧ completed (fold_left (settle processor total batch) order st)
    = completed st + length (done_events order (completed st)).
Proof.
  revert st. induction order as [|k order IH]; intros st.
  - cbn. by rewrite app_nil_r, Nat.add_0_r.
  - cbn [fold_left done_events]. destruct (IH (settle processor total batch st k))
      as [IHlog IHcompleted].
    rewrite IHlog, IHcompleted. unfold settle.
    destruct (batch !! k) as [item|] eqn:Hk; [|done].
    rewrite (fulfilled item) by (by eapply list_elem_of_lookup_2).
    cbn [log completed length]. rewrite <- app_assoc. split; [done|lia].
Qed.

Lemma done_events_length order completed0 :
  Forall (λ k, k < length batch) order →
  length (done_events order completed0) = length order.
Proof.
  intros Hvalid. revert completed0.
  induction Hvalid as [|k order Hk _ IH]; intros completed0; [done|].
  cbn [done_events]. destruct (lookup_lt_is_Some_2 batch k Hk) as [item ->].
  cbn [length]. by rewrite IH.
Qed.

Lemma done_events_counts order completed0 :
  omap done_count (done_events order completed0)
  = seq (completed0 + 1) (length (done_events order completed0)).
Proof.
  revert completed0. induction order as [|k order IH]; intros completed0; [done|].
  cbn [done_events]. destruct (batch !! k) as [item|]; [|apply IH].
  cbn [omap list_omap done_count length seq]. rewrite IH.
  by rewrite (Nat.add_1_r (completed0 + 1)).
Qed.

Lemma done_events_reports order completed0 :
  omap done_report (done_events order completed0)
  = (λ x, (total, x, f x)) <$> omap (λ k, batch !! k) order.
Proof.
  revert completed0. induction order as [|k order IH]; intros completed0; [done|].
  cbn [done_events omap list_omap]. destruct (batch !! k) as [item|]; [|apply IH].
  cbn [omap list_omap done_report]. by rewrite fmap_cons, IH.
Qed.

Lemma done_events_starts order completed0 :
  omap started_item (done_events order completed0) = [].
Proof.
  revert completed0. induction order as [|k order IH]; intros completed0; [done|].
  cbn [done_events]. destruct (batch !! k) as [item|]; [|apply IH].
  cbn [omap list_omap started_item]. apply IH.
Qed.

Lemma done_events_waits order completed0 :
  omap waited_ms (done_events order completed0) = [].
Proof.
  revert completed0. induction order as [|k order IH]; intros completed0; [done|].
  cbn [done_events]. destruct (batch !! k) as [item|]; [|apply IH].
  cbn [omap list_omap waited_ms]. apply IH.
Qed.

Lemma done_events_take_dones m order completed0 :
  dones (take m (done_events order completed0))
  = length (take m (done_events order completed0))
  ∧ starts (take m (done_events order completed0)) = 0.
Proof.
  revert m completed0. induction order as [|k order IH]; intros m completed0.
  - cbn. by rewrite take_nil.
  - cbn [done_events]. destruct (batch !! k) as [item|]; [|apply IH].
    destruct m as [|m]; [done|]. cbn [take].
    destruct (IH m (completed0 + 1)) as [IHd IHs].
    unfold dones, starts in *. cbn [omap list_omap done_count started_item length].
    split; [by rewrite IHd|done].
Qed.

(** The whole of a window whose tasks all settle. *)
Lemma run_window_events order completed0 (log0 : list (@batch_event T R)) :
  order ≡ₚ seq 0 (length batch) →
  run_window processor total batch order completed0 log0
  = (Some (inr (f <$> batch)), completed0 + length batch,
     (log0 ++ (Started <$> batch)) ++ done_events order completed0)
  ∧ length (done_events order completed0) = length batch.
Proof.
  intros Hperm.
  assert (Hlen : length (done_events order completed0) = length batch).
  { rewrite done_events_length.
    - by rewrite Hperm, length_seq.
    - apply Forall_forall. intros k Hk. rewrite Hperm in Hk.
      apply elem_of_seq in Hk. lia. }
  split; [|done].
  destruct (run_window_in_order processor total batch f fulfilled order
              completed0 log0 Hperm) as (completed1 & log1 & Hwin).
  unfold run_window in *.
  set (st0 := WindowState completed0 (log0 ++ List.map Started batch)
                (replicate (length batch) None) None) in *.
  destruct (fold_settle_events order st0) as [Hlog Hcompleted].
  injection Hwin as Hres _ _. rewrite Hres, Hlog, Hcompleted.
  subst st0. cbn [log completed]. by rewrite Hlen.
Qed.

End Window.

Lemma omap_lookup_seq {A} (l : list A) :
  omap (λ k, l !! k) (seq 0 (length l)) = l.
Proof.
  induction l as [|x l IH] using rev_ind; [done|].
  rewrite length_app. cbn [length]. rewrite Nat.add_1_r, seq_S, omap_app.
  cbn [omap list_omap]. rewrite Nat.add_0_l.
  rewrite lookup_app_r by done. rewrite Nat.sub_diag. cbn.
  f_equal. rewrite <- IH at 2. apply list_omap_ext.
  apply Forall2_same_length_lookup. split; [done|].
  intros i k k' Hk Hk'. assert (k = k') as <- by congruence.
  apply lookup_seq in Hk as [-> Hi]. by rewrite lookup_app_l.
Qed.

Section Loop.

Context {T R E : Type}.
Variable processor : T → E + R.
Variable sched : nat → list nat.
Variable items : list T.
Variable concurrency : nat.
Variable delayMs : N.
Variable f : T → R.

Hypothesis positive : 1 ≤ concurrency.
Hypothesis fulfilled : ∀ x, x ∈ items → processor x = inr (f x).
Hypothesis all_settle : ∀ i, i < length items →
  sched i ≡ₚ seq 0 (length (take concurrency (drop i items))).

(** The window that starts at the index [i], and the events of its turn
    of the loop. *)
Definition window (i : nat) : list T := take concurrency (drop i items).

Definition window_events (i completed0 : nat) : list (@batch_event T R) :=
  ((Started <$> window i)
   ++ done_events (length items) (window i) f (sched i) completed0)
  ++ (if i + concurrency <? length items then [Waited delayMs] else []).

Lemma window_fulfilled i x : x ∈ window i → processor x = inr (f x).
Proof.
  intros Hx. apply fulfilled. apply elem_of_take in Hx as (j & Hj & _).
  apply list_elem_of_lookup_2 in Hj.
  rewrite <- (take_drop i items). apply elem_of_app. by right.
Qed.

Lemma window_length i :
  i < length items → 1 ≤ length (window i) ≤ concurrency.
Proof.
  intros Hi. unfold window. rewrite length_take, length_drop. lia.
Qed.

Lemma batches_loop_step fuel i results completed0 log0 :
  i < length items →
  batches_loop processor sched (S fuel) items concurrency delayMs i results
    completed0 log0
  = batches_loop processor sched fuel items concurrency delayMs
      (i + concurrency) (results ++ (f <$> window i))
      (completed0 + length (window i)) (log0 ++ window_events i completed0).
Proof.
  intros Hi. cbn [batches_loop].
  destruct (Nat.ltb_spec i (length items)) as [_|?]; [|lia].
  destruct (run_window_events processor (length items) (window i) f
              (window_fulfilled i) (sched i) completed0 log0 (all_settle i Hi))
    as [Hwin _].
  fold (window i). rewrite Hwin. unfold window_events.
  destruct (i + concurrency <? length items);
    by rewrite <- ?app_assoc, ?app_nil_r.
Qed.

(** What holds before the first turn and is kept by the events of every
    turn holds of the events of the run. *)
Lemma batches_loop_invariant
    (Inv : nat → nat → list (@batch_event T R) → Prop)
    fuel i results completed0 log0 r log1 :
  (∀ i completed0 log0, i < length items → Inv i completed0 log0 →
     Inv (i + concurrency) (completed0 + length (window i))
       (log0 ++ window_events i completed0)) →
  Inv i completed0 log0 →
  batches_loop processor sched fuel items concurrency delayMs i results
    completed0 log0 = Some (r, log1) →
  ∃ i' completed1, length items ≤ i' ∧ Inv i' completed1 log1.
Proof.
  intros Hstep. revert i results completed0 log0.
  induction fuel as [|fuel IH]; intros i results completed0 log0 Hinv Hrun;
    [done|].
  destruct (decide (i < length items)) as [Hi|Hi].
  - rewrite batches_loop_step in Hrun by done.
    eapply IH; [|exact Hrun]. by apply Hstep.
  - cbn [batches_loop] in Hrun.
    destruct (Nat.ltb_spec i (length items)) as [?|_]; [lia|].
    injection Hrun as _ <-. exists i, completed0. split; [lia|done].
Qed.

Lemma run_returns fuel :
  length items < fuel →
  ∃ log1, runInBatches processor sched fuel items concurrency delayMs
          = Some (inr (f <$> items), log1).
Proof.
  intros Hfuel.
  destruct (batches_loop_in_order processor sched items concurrency delayMs f
              positive fulfilled all_settle fuel 0 [] 0 []) as (log1 & Hrun);
    [lia|].
  exists log1. by rewrite drop_0 in Hrun.
Qed.

Lemma window_events_counts i completed0 :
  i < length items →
  omap done_count (window_events i completed0)
  = seq (completed0 + 1) (length (window i))
  ∧ omap started_item (window_events i completed0) = window i
  ∧ omap done_report (window_events i completed0)
    ≡ₚ (λ x, (length items, x, f x)) <$> window i
  ∧ omap waited_ms (window_events i completed0)
    = (if i + concurrency <? length items then [delayMs] else []).
Proof.
  intros Hi. unfold window_events.
  destruct (run_window_events processor (length items) (window i) f
              (window_fulfilled i) (sched i) completed0 [] (all_settle i Hi))
    as [_ Hlen].
  assert (Hfmap : ∀ {B} (g : @batch_event T R → option B) (l : list T),
             (∀ x, g (Started x) = None) → omap g (Started <$> l) = []).
  { intros B g l Hg. induction l as [|x l IH]; [done|].
    rewrite fmap_cons. cbn [omap list_omap]. by rewrite Hg. }
  assert (Hstart : ∀ l : list T, omap started_item (Started (R:=R) <$> l) = l).
  { induction l as [|x l IH]; [done|].
    rewrite fmap_cons. cbn [omap list_omap started_item]. by rewrite IH. }
  rewrite !omap_app.
  rewrite (Hfmap _ done_count), (Hfmap _ done_report), (Hfmap _ waited_ms)
    by done.
  rewrite Hstart, done_events_counts, done_events_starts, done_events_reports,
    done_events_waits, Hlen.
  repeat split.
  - destruct (i + concurrency <? length items); cbn; by rewrite app_nil_r.
  - destruct (i + concurrency <? length items); cbn; by rewrite !app_nil_r.
  - cbn [app]. assert (Hw : omap done_report
        (if i + concurrency <? length items then [Waited (T:=T) (R:=R) delayMs] else [])
        = []) by (by destruct (i + concurrency <? length items)).
    rewrite Hw, app_nil_r. apply fmap_Permutation.
    rewrite (all_settle i Hi). fold (window i). by rewrite omap_lookup_seq.
  - cbn [app]. by destruct (i + concurrency <? length items).
Qed.

(** Every report counts one more than the one before, from 1 on; the
    tasks start in the order of the items; what is reported is, in some
    order, every item with the length of the list and its result. *)
Definition reports_inv (i completed0 : nat) (log0 : list (@batch_event T R)) : Prop :=
  completed0 = length (take i items)
  ∧ omap done_count log0 = seq 1 completed0
  ∧ omap started_item log0 = take i items
  ∧ omap done_report log0 ≡ₚ (λ x, (length items, x, f x)) <$> take i items.

Lemma reports_inv_step i completed0 log0 :
  i < length items → reports_inv i completed0 log0 →
  reports_inv (i + concurrency) (completed0 + length (window i))
    (log0 ++ window_events i completed0).
Proof.
  intros Hi (Hc & Hcount & Hstart & Hrep).
  destruct (window_events_counts i completed0 Hi) as (Wc & Ws & Wr & _).
  assert (Htake : take (i + concurrency) items = take i items ++ window i).
  { unfold window. by rewrite take_take_drop. }
  unfold reports_inv. rewrite !omap_app, Wc, Ws, Hcount, Hstart, Htake.
  split; [|split; [|split]].
  - rewrite length_app. by rewrite <- Hc.
  - rewrite (seq_app completed0 (length (window i)) 1).
    by rewrite (Nat.add_comm 1 completed0).
  - done.
  - rewrite fmap_app. by rewrite Hrep, Wr.
Qed.

(** At every point of the run the tasks started and not yet reported are
    at most [concurrency]; between two turns there is none. *)
Definition flight_inv (i completed0 : nat) (log0 : list (@batch_event T R)) : Prop :=
  starts log0 = dones log0
  ∧ ∀ m, dones (take m log0) ≤ starts (take m log0)
         ∧ starts (take m log0) ≤ dones (take m log0) + concurrency.

Lemma flight_inv_step i completed0 log0 :
  i < length items → flight_inv i completed0 log0 →
  flight_inv (i + concurrency) (completed0 + length (window i))
    (log0 ++ window_events i completed0).
Proof.
  intros Hi [Hbal Hpre].
  destruct (run_window_events processor (length items) (window i) f
              (window_fulfilled i) (sched i) completed0 [] (all_settle i Hi))
    as [_ Hlen].
  pose proof (window_length i Hi) as Hwl.
  set (D := done_events (length items) (window i) f (sched i) completed0) in *.
  set (W := if i + concurrency <? length items
            then [Waited (T:=T) (R:=R) delayMs] else []).
  assert (HW : ∀ m, starts (take m W) = 0 ∧ dones (take m W) = 0).
  { intros m. unfold W. destruct (i + concurrency <? length items);
      destruct m as [|[|m]]; done. }
  assert (HS : ∀ m, starts (take m (Started (R:=R) <$> window i))
                    = min m (length (window i))
                    ∧ dones (take m (Started (R:=R) <$> window i)) = 0).
  { intros m. rewrite <- fmap_take. rewrite <- (length_take (window i) m).
    generalize (take m (window i)). intros l.
    induction l as [|x l [IHs IHd]]; [done|].
    unfold starts, dones in *. rewrite fmap_cons.
    cbn [omap list_omap started_item done_count length]. by rewrite IHs, IHd. }
  assert (HD : ∀ m, dones (take m D) = min m (length (window i))
                    ∧ starts (take m D) = 0).
  { intros m. destruct (done_events_take_dones (length items) (window i) f m
                          (sched i) completed0) as [Hd Hs].
    fold D in Hd, Hs. by rewrite Hd, Hs, length_take, Hlen. }
  assert (Hevents : ∀ m,
            starts (take m (((Started <$> window i) ++ D) ++ W))
            = min m (length (window i))
            ∧ dones (take m (((Started <$> window i) ++ D) ++ W))
              = min (m - length (window i)) (length (window i))).
  { intros m. rewrite !take_app, !starts_app, !dones_app, length_app,
      length_fmap.
    destruct (HW (m - (length (window i) + length D))) as [-> ->].
    destruct (HS m) as [-> ->].
    destruct (HD (m - length (window i))) as [-> ->]. lia. }
  unfold flight_inv, window_events. fold D W. split.
  - rewrite starts_app, dones_app, Hbal.
    destruct (Hevents (length (((Started <$> window i) ++ D) ++ W)))
      as [Hs Hd].
    rewrite take_ge in Hs, Hd by done. rewrite Hs, Hd.
    rewrite !length_app, length_fmap. fold D in Hlen. rewrite Hlen. lia.
  - intros m. rewrite take_app, starts_app, dones_app.
    destruct (Hevents (m - length log0)) as [-> ->].
    destruct (decide (m ≤ length log0)) as [Hm|Hm].
    + replace (m - length log0) with 0 by lia. cbn [min].
      destruct (Hpre m). lia.
    + rewrite take_ge by lia. rewrite Hbal. lia.
Qed.

(** The waits: one after every turn but the last, each of [delayMs]. *)
Definition waits_inv (i completed0 : nat) (log0 : list (@batch_event T R)) : Prop :=
  ∃ w, i = w * concurrency
       ∧ (w = 0 ∨ (w - 1) * concurrency < length items)
       ∧ omap waited_ms log0
         = replicate (if i <? length items then w else w - 1) delayMs
       ∧ (length items ≤ i → ∀ ms, last log0 ≠ Some (Waited ms)).

Lemma waits_inv_step i completed0 log0 :
  i < length items → waits_inv i completed0 log0 →
  waits_inv (i + concurrency) (completed0 + length (window i))
    (log0 ++ window_events i completed0).
Proof.
  intros Hi (w & Hw & Hprev & Hwaits & _).
  destruct (window_events_counts i completed0 Hi) as (_ & _ & _ & Ww).
  destruct (run_window_events processor (length items) (window i) f
              (window_fulfilled i) (sched i) completed0 [] (all_settle i Hi))
    as [_ Hlen].
  pose proof (window_length i Hi) as Hwl.
  exists (S w). split; [lia|]. split; [right; lia|].
  rewrite omap_app, Ww, Hwaits.
  destruct (Nat.ltb_spec i (length items)) as [_|?]; [|lia]. split.
  - destruct (Nat.ltb_spec (i + concurrency) (length items)) as [Hlt|Hge].
    + rewrite <- replicate_S_end. done.
    + rewrite app_nil_r. f_equal. lia.
  - intros Hge ms. unfold window_events.
    destruct (Nat.ltb_spec (i + concurrency) (length items)) as [?|_]; [lia|].
    rewrite app_nil_r, app_assoc.
    pose proof (done_events_waits (length items) (window i) f (sched i)
                  completed0) as Hnone.
    remember (done_events (length items) (window i) f (sched i) completed0)
      as D eqn:HD.
    clear HD. induction D as [|d D' _] using rev_ind; [simpl in Hlen; lia|].
    rewrite app_assoc, last_snoc. intros [= ->].
    rewrite omap_app in Hnone. apply app_eq_nil in Hnone as [_ Hnone].
    discriminate Hnone.
Qed.

(** X1. With a concurrency of 1 or more, tasks that are all fulfilled and
    windows whose tasks all settle, in whatever order: the tasks are
    started in the order of the items, each once; [onItemDone] is called
    once for every item, with the item, its result and the length of the
    list, and the counts it is given are 1, 2, ... up to that length in
    the order of the calls. *)
Theorem runInBatches_reports_each_item_once fuel :
  length items < fuel →
  ∃ log1,
    runInBatches processor sched fuel items concurrency delayMs
    = Some (inr (f <$> items), log1)
    ∧ omap started_item log1 = items
    ∧ omap done_count log1 = seq 1 (length items)
    ∧ omap done_report log1 ≡ₚ (λ x, (length items, x, f x)) <$> items.
Proof.
  intros Hfuel. destruct (run_returns fuel Hfuel) as (log1 & Hrun).
  exists log1. split; [done|].
  destruct (batches_loop_invariant reports_inv fuel 0 [] 0 [] (inr (f <$> items)) log1
              reports_inv_step) as (i' & completed1 & Hi' & Hc & Hcount & Hstart & Hrep);
    [by repeat split|exact Hrun|].
  rewrite take_ge in Hc, Hstart, Hrep by done. by subst completed1.
Qed.

(** X2. Under the same conditions, at every point of the run the number
    of tasks that have started and have not yet reported is at most
    [concurrency]. *)
Theorem runInBatches_in_flight_bounded fuel :
  length items < fuel →
  ∃ log1,
    runInBatches processor sched fuel items concurrency delayMs
    = Some (inr (f <$> items), log1)
    ∧ ∀ m, dones (take m log1) ≤ starts (take m log1)
           ∧ starts (take m log1) ≤ dones (take m log1) + concurrency.
Proof.
  intros Hfuel. destruct (run_returns fuel Hfuel) as (log1 & Hrun).
  exists log1. split; [done|].
  destruct (batches_loop_invariant flight_inv fuel 0 [] 0 [] (inr (f <$> items)) log1
              flight_inv_step) as (i' & completed1 & _ & _ & Hpre);
    [|exact Hrun|exact Hpre].
  split; [done|]. intros m. rewrite take_nil. unfold starts, dones. cbn. lia.
Qed.

(** X3. Under the same conditions, the run waits [delayMs] after every
    window but the last: with [n] items and the concurrency [c] it waits
    the number of windows, [(n + c - 1) / c], less one times (not at all
    on the empty list), and its last event is not a wait. *)
Theorem runInBatches_waits_between_windows fuel :
  length items < fuel →
  ∃ log1,
    runInBatches processor sched fuel items concurrency delayMs
    = Some (inr (f <$> items), log1)
    ∧ omap waited_ms log1
      = replicate ((length items + concurrency - 1) / concurrency - 1) delayMs
    ∧ ∀ ms, last log1 ≠ Some (Waited ms).
Proof.
  intros Hfuel. destruct (run_returns fuel Hfuel) as (log1 & Hrun).
  exists log1. split; [done|].
  destruct (batches_loop_invariant waits_inv fuel 0 [] 0 [] (inr (f <$> items)) log1
              waits_inv_step)
    as (i' & completed1 & Hi' & w & Hw & Hprev & Hwaits & Hlast);
    [|exact Hrun|].
  { exists 0. split; [done|]. split; [by left|]. split.
    - by destruct (0 <? length items).
    - done. }
  split; [|by apply Hlast].
  rewrite Hwaits. destruct (Nat.ltb_spec i' (length items)) as [?|_]; [lia|].
  f_equal. destruct Hprev as [->|Hprev].
  - assert (length items = 0) as -> by lia. cbn [Nat.add].
    rewrite Nat.div_small by lia. done.
  - f_equal.
    apply (Nat.div_unique _ _ _ (length items + concurrency - 1 - concurrency * w));
      nia.
Qed.

End Loop.

Section Rejection.

Context {T R E : Type}.
Variable processor : T → E + R.

(** The error of the task of [batch] that rejects first when the tasks
    settle in the order [order]. *)
Definition rejection_of (x : T) : option E :=
  match processor x with inl e => Some e | inr _ => None end.

Definition first_rejection (batch : list T) (order : list nat) : option E :=
  head (omap (λ k, batch !! k ≫= rejection_of) order).

Lemma fold_settle_first_rejection total batch order (st : @window_state T R E) :
  rejected (fold_left (settle processor total batch) order st)
  = match rejected st with
    | Some e => Some e
    | None => first_rejection batch order
    end
  ∧ omap started_item (log (fold_left (settle processor total batch) order st))
    = omap started_item (log st).
Proof.
  revert st. induction order as [|k order IH]; intros st.
  { cbn. by destruct (rejected st). }
  cbn [fold_left]. destruct (IH (settle processor total batch st k)) as [-> ->].
  unfold first_rejection, settle, rejection_of. cbn [omap list_omap].
  destruct (batch !! k) as [item|]; cbn [mbind option_bind]; [|done].
  destruct (processor item) as [e|result]; cbn [rejected log].
  - by destruct (rejected st).
  - rewrite omap_app. cbn. by rewrite app_nil_r.
Qed.

Lemma run_window_rejects total batch order completed0
    (log0 : list (@batch_event T R)) e :
  first_rejection batch order = Some e →
  ∃ completed1 log1,
    run_window processor total batch order completed0 log0
    = (Some (inl e), completed1, log1)
    ∧ omap started_item log1 = omap started_item log0 ++ batch.
Proof.
  intros Hfirst. unfold run_window.
  set (st0 := WindowState completed0 (log0 ++ List.map Started batch)
                (replicate (length batch) None) None).
  destruct (fold_settle_first_rejection total batch order st0) as [Hrej Hlog].
  rewrite Hrej. subst st0. cbn [rejected log] in *. rewrite Hfirst.
  eexists _, _. split; [reflexivity|]. rewrite Hlog, omap_app. f_equal.
  generalize batch. intros l. induction l as [|x l IH]; [done|].
  cbn [List.map omap list_omap started_item]. by rewrite IH.
Qed.

Variable sched : nat → list nat.
Variable items : list T.
Variable concurrency : nat.
Variable delayMs : N.
Variable f : T → R.

(** The number of windows before the one with the rejection, and the
    error. *)
Variable before : nat.
Variable e : E.

Hypothesis positive : 1 ≤ concurrency.
Hypothesis in_range : before * concurrency < length items.
Hypothesis fulfilled_before : ∀ k x,
  k < before * concurrency → items !! k = Some x → processor x = inr (f x).
Hypothesis settle_before : ∀ i, i < before * concurrency →
  sched i ≡ₚ seq 0 (length (take concurrency (drop i items))).
Hypothesis rejects :
  first_rejection (take concurrency (drop (before * concurrency) items))
    (sched (before * concurrency)) = Some e.

Lemma batches_loop_rejects m :
  ∀ fuel i results completed0 log0,
    i + m * concurrency = before * concurrency → m < fuel →
    ∃ log1,
      batches_loop processor sched fuel items concurrency delayMs i results
        completed0 log0 = Some (inl e, log1)
      ∧ omap started_item log1
        = omap started_item log0
          ++ take (before * concurrency + concurrency - i) (drop i items).
Proof.
  induction m as [|m IH]; intros fuel i results completed0 log0 Hi Hfuel;
    (destruct fuel as [|fuel]; [lia|]); cbn [batches_loop];
    (destruct (Nat.ltb_spec i (length items)) as [Hlt|?]; [|lia]).
  - assert (i = before * concurrency) as -> by lia.
    destruct (run_window_rejects (length items)
                (take concurrency (drop (before * concurrency) items))
                (sched (before * concurrency)) completed0 log0 e rejects)
      as (completed1 & log1 & -> & Hlog).
    exists log1. split; [done|]. rewrite Hlog. do 2 f_equal. lia.
  - assert (Hnext : i + concurrency ≤ before * concurrency) by lia.
    assert (Hful : ∀ x, x ∈ take concurrency (drop i items) →
                        processor x = inr (f x)).
    { intros x Hx. apply elem_of_take in Hx as (k & Hk & Hkc).
      rewrite lookup_drop in Hk. apply (fulfilled_before (i + k)); [lia|done]. }
    destruct (run_window_events processor (length items)
                (take concurrency (drop i items)) f Hful (sched i) completed0
                log0 (settle_before i ltac:(lia))) as [-> _].
    destruct (Nat.ltb_spec (i + concurrency) (length items)) as [_|?]; [|lia].
    edestruct (IH fuel (i + concurrency)) as (log1 & -> & Hlog); [lia..|].
    exists log1. split; [done|]. rewrite Hlog, !omap_app.
    rewrite done_events_starts. cbn [omap list_omap waited_ms started_item].
    rewrite !app_nil_r, <- app_assoc. f_equal.
    assert (Hst : ∀ l : list T, omap started_item (Started (R:=R) <$> l) = l).
    { induction l as [|x l IHl]; [done|].
      rewrite fmap_cons. cbn [omap list_omap started_item]. by rewrite IHl. }
    rewrite Hst, <- (drop_drop items concurrency i), take_take_drop.
    f_equal. lia.
Qed.

(** X4. When the tasks of the first [before] windows are all fulfilled
    and settle, and a task of the next window rejects: the run is
    rejected with the error of the task of that window that rejects
    first, and the items after that window are never started. *)
Theorem runInBatches_rejected_window_ends_run fuel :
  length items < fuel →
  ∃ log1,
    runInBatches processor sched fuel items concurrency delayMs
    = Some (inl e, log1)
    ∧ omap started_item log1
      = take (before * concurrency + concurrency) items.
Proof.
  intros Hfuel.
  destruct (batches_loop_rejects before fuel 0 [] 0 []) as (log1 & Hrun & Hlog);
    [lia|nia|].
  exists log1. split; [done|].
  by rewrite Hlog, Nat.sub_0_r, drop_0.
Qed.

End Rejection.

(** Five items, two at a time, each window settling last task first. *)
Definition last_first (i : nat) : list nat :=
  rev (seq 0 (length (take 2 (drop i [1; 2; 3; 4; 5])))).

Definition times_ten (x : nat) : unit + nat := inr (x * 10).

Lemma last_first_settles i :
  i < length [1; 2; 3; 4; 5] →
  last_first i ≡ₚ seq 0 (length (take 2 (drop i [1; 2; 3; 4; 5]))).
Proof. intros _. unfold last_first. symmetry. apply Permutation_rev. Qed.

Lemma runInBatches_reports_each_item_once_witness :
  ∃ log1,
    runInBatches times_ten last_first 6 [1; 2; 3; 4; 5] 2 500%N
    = Some (inr [10; 20; 30; 40; 50], log1)
    ∧ omap started_item log1 = [1; 2; 3; 4; 5]
    ∧ omap done_count log1 = [1; 2; 3; 4; 5]
    ∧ omap done_report log1
      ≡ₚ [(5, 1, 10); (5, 2, 20); (5, 3, 30); (5, 4, 40); (5, 5, 50)].
Proof.
  apply (runInBatches_reports_each_item_once times_ten last_first
           [1; 2; 3; 4; 5] 2 500%N (λ x, x * 10)).
  - lia.
  - reflexivity.
  - apply last_first_settles.
  - simpl. lia.
Defined.

Lemma runInBatches_in_flight_bounded_witness :
  ∃ log1,
    runInBatches times_ten last_first 6 [1; 2; 3; 4; 5] 2 500%N
    = Some (inr [10; 20; 30; 40; 50], log1)
    ∧ ∀ m, dones (take m log1) ≤ starts (take m log1)
           ∧ starts (take m log1) ≤ dones (take m log1) + 2.
Proof.
  apply (runInBatches_in_flight_bounded times_ten last_first
           [1; 2; 3; 4; 5] 2 500%N (λ x, x * 10)).
  - lia.
  - reflexivity.
  - apply last_first_settles.
  - simpl. lia.
Defined.

Lemma runInBatches_waits_between_windows_witness :
  ∃ log1,
    runInBatches times_ten last_first 6 [1; 2; 3; 4; 5] 2 500%N
    = Some (inr [10; 20; 30; 40; 50], log1)
    ∧ omap waited_ms log1 = [500%N; 500%N]
    ∧ ∀ ms, last log1 ≠ Some (Waited ms).
Proof.
  apply (runInBatches_waits_between_windows times_ten last_first
           [1; 2; 3; 4; 5] 2 500%N (λ x, x * 10)).
  - lia.
  - reflexivity.
  - apply last_first_settles.
  - simpl. lia.
Defined.

(** The fourth item is rejected: the third window is not reached. *)
Definition fails_on_four (x : nat) : N + nat :=
  if x =? 4 then inl 503%N else inr (x * 10).

Lemma runInBatches_rejected_window_ends_run_witness :
  ∃ log1,
    runInBatches fails_on_four last_first 6 [1; 2; 3; 4; 5] 2 500%N
    = Some (inl 503%N, log1)
    ∧ omap started_item log1 = [1; 2; 3; 4].
Proof.
  apply (runInBatches_rejected_window_ends_run fails_on_four last_first
           [1; 2; 3; 4; 5] 2 500%N (λ x, x * 10) 1 503%N).
  - lia.
  - simpl. lia.
  - intros k x Hk Hx.
    destruct k as [|[|k]]; [injection Hx as <-; reflexivity..|simpl in Hk; lia].
  - intros i Hi. apply last_first_settles. simpl in *. lia.
  - reflexivity.
  - simpl. lia.
Defined.

Lemma runInBatches_zero_concurrency_witness :
  runInBatches times_ten last_first 1000 [1; 2; 3; 4; 5] 0 500%N = None.
Proof. by apply BatchFacts.runInBatches_zero_concurrency. Defined.

End BatchLogFacts.

(** ** parseCsvRow and escapeCsv *)

Module CsvFacts.

Import FileReader Exporter.

Lemma includes_unit_false (x : N) (s : jstr) :
  includes [x] s = false → Forall (λ c, c ≠ x) s.
Proof.
  induction s as [|c s IH]; [constructor|]. cbn [includes startsWith].
  rewrite andb_true_r. intros [Hc Hs]%orb_false_elim.
  constructor; [|by apply IH].
  intros ->. by rewrite N.eqb_refl in Hc.
Qed.

(** Outside quotes, the units of a field without a quote and without a
    comma are added to the current field. *)
Lemma parseCsvRow_loop_plain (w rest : jstr) fields current :
  Forall (λ c, c ≠ 34%N) w → Forall (λ c, c ≠ 44%N) w →
  parseCsvRow_loop (w ++ rest) fields current false
  = parseCsvRow_loop rest fields (current ++ w) false.
Proof.
  intros Hq Hc. revert current.
  induction w as [|c w IH]; intros current; [by rewrite app_nil_r|].
  apply Forall_cons in Hq as [Hq1 Hq]. apply Forall_cons in Hc as [Hc1 Hc].
  cbn [app parseCsvRow_loop].
  apply N.eqb_neq in Hq1 as ->. apply N.eqb_neq in Hc1 as ->.
  rewrite IH by done. by rewrite <- app_assoc.
Qed.

(** In quotes, a field whose quotes are doubled and the quote that ends
    it add the field to the current one, when no quote comes next. *)
Lemma parseCsvRow_loop_quoted (w rest : jstr) fields current :
  head rest ≠ Some 34%N →
  parseCsvRow_loop (double_quotes w ++ 34%N :: rest) fields current true
  = parseCsvRow_loop rest fields (current ++ w) false.
Proof.
  intros Hrest. revert current. unfold double_quotes.
  induction w as [|c w IH]; intros current.
  - cbn [List.map concat app parseCsvRow_loop N.eqb Pos.eqb].
    rewrite app_nil_r. destruct rest as [|c rest]; [done|].
    destruct (decide (c = 34%N)) as [->|Hc]; [done|].
    destruct c as [|p]; [done|].
    repeat (destruct p as [p|p|]; try done).
  - cbn [List.map concat]. destruct (N.eqb_spec c 34) as [->|Hc].
    + cbn [app parseCsvRow_loop N.eqb Pos.eqb]. rewrite IH.
      by rewrite <- app_assoc.
    + cbn [app parseCsvRow_loop]. apply N.eqb_neq in Hc as ->.
      rewrite IH. by rewrite <- app_assoc.
Qed.

Lemma parseCsvRow_loop_escaped (str rest : jstr) fields current :
  head rest ≠ Some 34%N →
  parseCsvRow_loop (escapeCsv (Some str) ++ rest) fields current false
  = parseCsvRow_loop rest fields (current ++ str) false.
Proof.
  intros Hrest. unfold escapeCsv. change (default [] (Some str)) with str.
  cbv zeta.
  destruct (includes [34%N] str) eqn:Hq; cbn [orb].
  { cbn [app parseCsvRow_loop N.eqb Pos.eqb]. rewrite <- app_assoc.
    by apply parseCsvRow_loop_quoted. }
  destruct (includes [44%N] str) eqn:Hc; cbn [orb].
  { cbn [app parseCsvRow_loop N.eqb Pos.eqb]. rewrite <- app_assoc.
    by apply parseCsvRow_loop_quoted. }
  destruct (includes [10%N] str || includes [13%N] str).
  { cbn [app parseCsvRow_loop N.eqb Pos.eqb]. rewrite <- app_assoc.
    by apply parseCsvRow_loop_quoted. }
  apply parseCsvRow_loop_plain; by apply includes_unit_false.
Qed.

(** The cells after the first, each with its comma. *)
Definition later_cells (cells : list jstr) : jstr :=
  List.concat (List.map (λ q, lit "," ++ q)
                 (List.map (λ str, escapeCsv (Some str)) cells)).

Lemma later_cells_head (cells : list jstr) :
  head (later_cells cells) ≠ Some 34%N.
Proof. by destruct cells. Qed.

Lemma parseCsvRow_loop_later_cells (cells : list jstr) fields current :
  parseCsvRow_loop (later_cells cells) fields current false
  = fields ++ current :: cells.
Proof.
  revert fields current. induction cells as [|c cells IH]; intros fields current;
    [done|].
  unfold later_cells. cbn [List.map concat]. fold (later_cells cells).
  change (lit ",") with [44%N]. rewrite <- app_assoc.
  cbn [app parseCsvRow_loop N.eqb Pos.eqb].
  rewrite parseCsvRow_loop_escaped by apply later_cells_head.
  rewrite IH. cbn [app]. by rewrite <- app_assoc.
Qed.

(** X6. A line that [toCsv] writes is read back by [parseCsvRow] as the
    cells it was written from, whatever they hold (commas, quotes, line
    ends), when there is one cell at least.  The line of no cells is
    empty, and is read as one empty cell. *)
Theorem parseCsvRow_reads_toCsv_line (cells : list jstr) :
  cells ≠ [] →
  parseCsvRow (toCsv_line cells) = cells
  ∧ parseCsvRow (toCsv_line []) = [[]].
Proof.
  intros Hne. split; [|done]. destruct cells as [|c cells]; [done|].
  unfold parseCsvRow, toCsv_line, Json.join_comma. cbn [List.map].
  fold (later_cells cells).
  rewrite parseCsvRow_loop_escaped by apply later_cells_head.
  apply parseCsvRow_loop_later_cells.
Qed.

(** Four cells: with a comma, with quotes, empty, and with a line end. *)
Definition awkward_cells : list jstr :=
  [lit "a,b"; [115; 97; 121; 32; 34; 104; 105; 34]%N; []; [120; 10; 121]%N].

Lemma parseCsvRow_reads_toCsv_line_witness :
  parseCsvRow (toCsv_line awkward_cells) = awkward_cells
  ∧ parseCsvRow (toCsv_line []) = [[]].
Proof. apply parseCsvRow_reads_toCsv_line. discriminate. Defined.

End CsvFacts.

(** ** findUrlColumn *)

Module ColumnFacts.

Import FileReader.

Lemma findIndex_Some {A} (p : A → bool) (l : list A) (idx : nat) :
  findIndex p l = Some idx →
  ∃ x, l !! idx = Some x ∧ p x = true
       ∧ ∀ j y, j < idx → l !! j = Some y → p y = false.
Proof.
  revert idx. induction l as [|x l IH]; intros idx; [done|].
  cbn [findIndex]. destruct (p x) eqn:Hx.
  - intros [= <-]. exists x. split; [done|]. split; [done|]. lia.
  - destruct (findIndex p l) as [k|]; [|done]. intros [= <-].
    destruct (IH k eq_refl) as (y & Hy & Hpy & Hbefore).
    exists y. split; [done|]. split; [done|].
    intros [|j] z Hj Hz; [by injection Hz as <-|].
    apply (Hbefore j); [lia|done].
Qed.

Lemma findIndex_None {A} (p : A → bool) (l : list A) :
  findIndex p l = None → ∀ x, x ∈ l → p x = false.
Proof.
  induction l as [|x l IH]; [by intros _ y ?%elem_of_nil|].
  cbn [findIndex]. destruct (p x) eqn:Hx; [done|].
  destruct (findIndex p l); [done|]. intros _ y [->|Hy]%elem_of_cons; [done|].
  by apply IH.
Qed.

(** A header has the name [name]: trimmed and in lower case it is that
    name. *)
Definition header_is (name h : jstr) : bool :=
  jstr_eqb (toLowerCase (trim h)) name.

Lemma first_named_spec (headers names : list jstr) :
  match first_named headers names with
  | Some idx =>
      ∃ i name h,
        names !! i = Some name ∧ headers !! idx = Some h
        ∧ header_is name h = true
        ∧ (∀ j h', j < idx → headers !! j = Some h' → header_is name h' = false)
        ∧ (∀ i' name' h', i' < i → names !! i' = Some name' → h' ∈ headers →
             header_is name' h' = false)
  | None => ∀ name h, name ∈ names → h ∈ headers → header_is name h = false
  end.
Proof.
  induction names as [|name names IH]; [by intros name h ?%elem_of_nil|].
  cbn [first_named]. fold (header_is name).
  destruct (findIndex (header_is name) headers) as [idx|] eqn:Hidx.
  - destruct (findIndex_Some _ _ _ Hidx) as (h & Hh & Hname & Hbefore).
    exists 0, name, h. repeat split; try done. lia.
  - pose proof (findIndex_None _ _ Hidx) as Hnone.
    destruct (first_named headers names) as [idx|].
    + destruct IH as (i & name' & h & Hi & Hh & Hname & Hbefore & Hearlier).
      exists (S i), name', h. repeat split; try done.
      intros [|i'] name'' h' Hlt Hn Hin.
      * injection Hn as <-. by apply Hnone.
      * apply (Hearlier i'); [lia|done..].
    + intros name' h [->|Hn]%elem_of_cons Hh; [by apply Hnone|by apply IH].
Qed.

(** X7. Without a preferred name (or with the empty one), [findUrlColumn]
    goes through the names url, loc, link, href, address, uri in that
    order, and returns for the first of them that some header has, trimmed
    and in lower case, the index of the first such header: a name earlier
    in the list wins over a header earlier in the row.  It fails when no
    header has any of the names.  With a preferred name, the six names
    are not looked at: the index is that of the first header equal to it,
    both trimmed and in lower case, and there is an error when there is
    none. *)
Theorem findUrlColumn_name_order_before_header_order
    (String_toLowerCase : jstr → jstr) (headers : list jstr) :
  match findUrlColumn String_toLowerCase headers None with
  | inr idx =>
      ∃ i name h,
        URL_COLUMN_NAMES !! i = Some name ∧ headers !! idx = Some h
        ∧ header_is name h = true
        ∧ (∀ j h', j < idx → headers !! j = Some h' → header_is name h' = false)
        ∧ (∀ i' name' h', i' < i → URL_COLUMN_NAMES !! i' = Some name' →
             h' ∈ headers → header_is name' h' = false)
  | inl err =>
      err = NoUrlColumn headers
      ∧ ∀ name h, name ∈ URL_COLUMN_NAMES → h ∈ headers →
          header_is name h = false
  end
  ∧ findUrlColumn String_toLowerCase headers (Some [])
    = findUrlColumn String_toLowerCase headers None
  ∧ ∀ c p,
      let same h := jstr_eqb (String_toLowerCase (trim h))
                      (String_toLowerCase (trim (c :: p))) in
      match findUrlColumn String_toLowerCase headers (Some (c :: p)) with
      | inr idx =>
          ∃ h, headers !! idx = Some h ∧ same h = true
               ∧ ∀ j h', j < idx → headers !! j = Some h' → same h' = false
      | inl err =>
          err = ColumnNotFound (c :: p) headers
          ∧ ∀ h, h ∈ headers → same h = false
      end.
Proof.
  split; [|split; [done|]].
  - unfold findUrlColumn.
    pose proof (first_named_spec headers URL_COLUMN_NAMES) as Hspec.
    destruct (first_named headers URL_COLUMN_NAMES) as [idx|]; [done|].
    split; [done|exact Hspec].
  - intros c p same. unfold findUrlColumn. fold same.
    destruct (findIndex same headers) as [idx|] eqn:Hidx.
    + by apply findIndex_Some.
    + split; [done|]. by apply findIndex_None.
Qed.

(** The link comes first in the row and the URL second: the URL is the
    column. *)
Lemma findUrlColumn_link_and_url (String_toLowerCase : jstr → jstr) :
  findUrlColumn String_toLowerCase [lit "Link"; lit " URL "; lit "Name"] None
  = inr 1.
Proof. reflexivity. Qed.

End ColumnFacts.

(** ** cleanText and the words of a text *)

Module TextFacts.

Import Cheerio Crawler ProductExtractor.

(** The words of a text: its maximal runs of units that are not white
    space, in order.  [cur] is the word that is being read. *)
Fixpoint words_from (cur : jstr) (s : jstr) : list jstr :=
  match s with
  | [] => match cur with [] => [] | _ => [cur] end
  | c :: r =>
      if is_ws c
      then match cur with [] => words_from [] r | _ => cur :: words_from [] r end
      else words_from (cur ++ [c]) r
  end.

Definition words (s : jstr) : list jstr := words_from [] s.

(** [l.join(" ")] *)
Definition join_space (l : list jstr) : jstr :=
  match l with
  | [] => []
  | p :: ps => p ++ List.concat (List.map (λ q, 32%N :: q) ps)
  end.

Definition ws_free (p : jstr) : Prop := Forall (λ c, is_ws c = false) p.

Definition word (p : jstr) : Prop := p ≠ [] ∧ ws_free p.

Definition nonempties (l : list jstr) : list jstr :=
  List.filter (λ p, negb (jstr_eqb p [])) l.

(** All the pieces but the last are not empty. *)
Fixpoint tail_ok (l : list jstr) : Prop :=
  match l with
  | [] => True
  | p :: r => match r with [] => True | _ => p ≠ [] end ∧ tail_ok r
  end.

Lemma jstr_eqb_nil (p : jstr) : jstr_eqb p [] = true ↔ p = [].
Proof. unfold jstr_eqb. by rewrite bool_decide_eq_true. Qed.

Lemma nonempties_cons (p : jstr) (l : list jstr) :
  nonempties (p :: l)
  = if jstr_eqb p [] then nonempties l else p :: nonempties l.
Proof. unfold nonempties. cbn [List.filter]. by destruct (jstr_eqb p []). Qed.

Lemma join_space_cons (p : jstr) (l : list jstr) :
  l ≠ [] → join_space (p :: l) = p ++ 32%N :: join_space l.
Proof. destruct l as [|q l]; [done|]. intros _. reflexivity. Qed.

(** *** Splitting *)

Lemma split_from_not_nil b cur s : split_from b cur s ≠ [].
Proof.
  revert b cur. induction s as [|c s IH]; intros b cur; [done|].
  cbn [split_from]. destruct (is_ws c); [|apply IH].
  destruct b; [apply IH|done].
Qed.

(** [s.replace(/\s+/g, " ")] is [s.split(/\s+/).join(" ")]. *)
Lemma collapse_from_split_from (s : jstr) : ∀ b cur,
  (b = true → cur = []) →
  cur ++ collapse_from b s = join_space (split_from b cur s).
Proof.
  induction s as [|c s IH]; intros b cur Hb.
  { cbn. by rewrite app_nil_r. }
  cbn [collapse_from split_from]. destruct (is_ws c) eqn:Hc.
  - destruct b.
    + rewrite Hb by done. by apply IH.
    + rewrite join_space_cons by apply split_from_not_nil.
      by rewrite <- (IH true []).
  - rewrite <- (IH false (cur ++ [c])) by done.
    rewrite <- app_assoc. destruct b; [|done]. by rewrite Hb.
Qed.

Lemma split_from_ws_free (s : jstr) : ∀ b cur,
  ws_free cur → Forall ws_free (split_from b cur s).
Proof.
  induction s as [|c s IH]; intros b cur Hcur.
  { by repeat constructor. }
  cbn [split_from]. destruct (is_ws c) eqn:Hc.
  - destruct b; [by apply IH; constructor|].
    constructor; [done|]. by apply IH; constructor.
  - apply IH. apply Forall_app. by repeat constructor.
Qed.

Lemma split_from_tail_ok (s : jstr) : ∀ b cur,
  (b = true → cur = []) → (b = false → cur ≠ []) →
  tail_ok (split_from b cur s).
Proof.
  induction s as [|c s IH]; intros b cur Ht Hf; [done|].
  cbn [split_from]. destruct (is_ws c) eqn:Hc.
  - destruct b; [by apply IH|].
    cbn [tail_ok]. split; [|by apply IH].
    destruct (split_from true [] s); [done|by apply Hf].
  - apply IH; [done|]. intros _. by destruct cur.
Qed.

(** The pieces of a text: the first may be empty, and the last. *)
Lemma split_ws_shape (s : jstr) :
  ∃ p0 r, split_ws s = p0 :: r ∧ tail_ok r ∧ Forall ws_free (p0 :: r).
Proof.
  pose proof (split_from_ws_free s false [] ltac:(constructor)) as Hfree.
  unfold split_ws in *. destruct s as [|c s]; [by exists [], []|].
  cbn [split_from] in *. destruct (is_ws c) eqn:Hc.
  - exists [], (split_from true [] s). split; [done|]. split; [|done].
    by apply split_from_tail_ok.
  - pose proof (split_from_tail_ok s false [c] ltac:(done) ltac:(done)) as Hok.
    cbn [app] in *.
    pose proof (split_from_not_nil false [c] s) as Hne.
    destruct (split_from false [c] s) as [|p0 r]; [done|].
    exists p0, r. split; [done|]. split; [apply Hok|done].
Qed.

Lemma words_from_split_from (s : jstr) : ∀ b cur,
  (b = true → cur = []) →
  words_from cur s = nonempties (split_from b cur s).
Proof.
  induction s as [|c s IH]; intros b cur Hb.
  { cbn. by destruct cur. }
  cbn [words_from split_from]. destruct (is_ws c) eqn:Hc.
  - destruct b.
    + rewrite Hb by done. by apply IH.
    + unfold nonempties. cbn [List.filter]. fold (nonempties (split_from true [] s)).
      rewrite <- (IH true []) by done. by destruct cur.
  - by apply IH.
Qed.

Lemma words_nonempties (s : jstr) : words s = nonempties (split_ws s).
Proof. by apply words_from_split_from. Qed.

Lemma nonempties_word (l : list jstr) :
  Forall ws_free l → Forall word (nonempties l).
Proof.
  induction 1 as [|p l Hp _ IH]; [constructor|].
  unfold nonempties. cbn [List.filter].
  destruct (jstr_eqb p []) eqn:Hnil; cbn [negb]; [done|].
  constructor; [|done]. split; [|done].
  intros ->. by rewrite (proj2 (jstr_eqb_nil [])) in Hnil.
Qed.

Lemma nonempties_words (l : list jstr) : Forall word l → nonempties l = l.
Proof.
  induction 1 as [|p l [Hp _] _ IH]; [done|].
  unfold nonempties. cbn [List.filter]. fold (nonempties l).
  destruct (jstr_eqb p []) eqn:Hnil; [by apply jstr_eqb_nil in Hnil|].
  cbn [negb]. by rewrite IH.
Qed.

Lemma words_word (s : jstr) : Forall word (words s).
Proof.
  rewrite words_nonempties. apply nonempties_word.
  destruct (split_ws_shape s) as (p0 & r & -> & _ & Hfree). done.
Qed.

(** *** Trimming *)

Lemma trimStart_app (u v : jstr) :
  trimStart (u ++ v)
  = match trimStart u with [] => trimStart v | _ => trimStart u ++ v end.
Proof.
  induction u as [|c u IH]; [done|]. cbn [app trimStart].
  destruct (is_ws c); [done|reflexivity].
Qed.

Lemma trimEnd_app (a b : jstr) :
  trimEnd (a ++ b)
  = match trimEnd b with [] => trimEnd a | _ => a ++ trimEnd b end.
Proof.
  unfold trimEnd. rewrite rev_app_distr, trimStart_app.
  destruct (trimStart (rev b)) as [|c t] eqn:Hb; [done|].
  rewrite rev_app_distr, rev_involutive.
  destruct (rev (c :: t)) eqn:Hrev; [|done].
  apply (f_equal (@rev N)) in Hrev. rewrite rev_involutive in Hrev.
  discriminate Hrev.
Qed.

Lemma trimStart_word (p x : jstr) : word p → trimStart (p ++ x) = p ++ x.
Proof.
  intros [Hne Hfree]. destruct p as [|c p]; [done|].
  apply Forall_cons in Hfree as [Hc _]. cbn [app trimStart]. by rewrite Hc.
Qed.

Lemma trimEnd_ws_free (p : jstr) : ws_free p → trimEnd p = p.
Proof.
  intros Hfree. induction p as [|c p IH] using rev_ind; [done|].
  apply Forall_app in Hfree as [Hp Hc]. apply Forall_cons in Hc as [Hc _].
  rewrite trimEnd_app.
  assert (Hunit : trimEnd [c] = [c]).
  { unfold trimEnd. cbn [rev app trimStart]. by rewrite Hc. }
  by rewrite Hunit.
Qed.

Lemma join_space_words_not_nil (l : list jstr) :
  Forall word l → l ≠ [] → join_space l ≠ [].
Proof.
  intros Hl Hne. destruct l as [|p l]; [done|].
  apply Forall_cons in Hl as [[Hp _] _]. cbn [join_space].
  by destruct p.
Qed.

Lemma trimEnd_join_space (l : list jstr) :
  Forall ws_free l → tail_ok l →
  trimEnd (join_space l) = join_space (nonempties l).
Proof.
  induction l as [|p l IH]; [done|]. intros Hfree Hok.
  apply Forall_cons in Hfree as [Hp Hl]. cbn [tail_ok] in Hok.
  destruct Hok as [Hne Hok]. destruct l as [|q l].
  { cbn [join_space List.map concat]. rewrite app_nil_r, trimEnd_ws_free by done.
    unfold nonempties. cbn [List.filter].
    destruct (jstr_eqb p []) eqn:Hnil; cbn [negb join_space List.map concat].
    - by apply jstr_eqb_nil in Hnil.
    - by rewrite app_nil_r. }
  rewrite join_space_cons by done. specialize (IH Hl Hok).
  pose proof (nonempties_word (q :: l) Hl) as Hwords.
  rewrite (nonempties_cons p).
  destruct (jstr_eqb p []) eqn:Hnil; [by apply jstr_eqb_nil in Hnil|].
  rewrite trimEnd_app.
  change (32%N :: join_space (q :: l)) with ([32%N] ++ join_space (q :: l)).
  rewrite trimEnd_app, IH.
  destruct (nonempties (q :: l)) as [|w ws] eqn:Hws.
  - change (join_space []) with (@nil N).
    change (trimEnd [32%N]) with (@nil N). cbv iota.
    rewrite trimEnd_ws_free by done.
    cbn [join_space List.map concat]. by rewrite app_nil_r.
  - pose proof (join_space_words_not_nil (w :: ws) Hwords ltac:(done)) as Hj.
    rewrite (join_space_cons p) by done.
    destruct (join_space (w :: ws)) as [|c t] eqn:Hjoin; done.
Qed.

(** The text with every run of white space made one space and no white
    space at either end is its words with one space between them. *)
Lemma trim_collapse_ws_words (s : jstr) :
  trim (collapse_ws s) = join_space (words s).
Proof.
  rewrite words_nonempties. unfold collapse_ws, trim.
  change (collapse_from false s) with ([] ++ collapse_from false s).
  rewrite (collapse_from_split_from s false []) by done.
  fold (split_ws s).
  destruct (split_ws_shape s) as (p0 & r & -> & Hok & Hfree).
  pose proof Hfree as Hall. apply Forall_cons in Hfree as [Hp0 Hr].
  destruct p0 as [|c p0].
  - rewrite (nonempties_cons []).
    change (jstr_eqb [] []) with true. cbv iota.
    destruct r as [|p1 r]; [done|].
    change (join_space ([] :: p1 :: r)) with (32%N :: join_space (p1 :: r)).
    cbn [trimStart is_ws]. cbn.
    destruct p1 as [|c1 p1].
    + cbn [tail_ok] in Hok. destruct r as [|p2 r]; [done|]. by destruct Hok.
    + change (join_space ((c1 :: p1) :: r))
        with ((c1 :: p1) ++ concat (List.map (λ q, 32%N :: q) r)).
      rewrite trimStart_word.
      * change ((c1 :: p1) ++ concat (List.map (λ q, 32%N :: q) r))
          with (join_space ((c1 :: p1) :: r)).
        by apply trimEnd_join_space.
      * apply Forall_cons in Hr as [Hp1 _]. by split.
  - change (join_space ((c :: p0) :: r))
      with ((c :: p0) ++ concat (List.map (λ q, 32%N :: q) r)).
    rewrite trimStart_word by (by split).
    change ((c :: p0) ++ concat (List.map (λ q, 32%N :: q) r))
      with (join_space ((c :: p0) :: r)).
    apply trimEnd_join_space; [done|].
    cbn [tail_ok]. split; [|done]. by destruct r.
Qed.

(** *** Splitting a text that is in that form *)

Lemma split_from_ws_free_app (w x : jstr) : ∀ cur,
  ws_free w → split_from false cur (w ++ x) = split_from false (cur ++ w) x.
Proof.
  induction w as [|c w IH]; intros cur Hw; [by rewrite app_nil_r|].
  apply Forall_cons in Hw as [Hc Hw]. cbn [app split_from]. rewrite Hc.
  rewrite IH by done. by rewrite <- app_assoc.
Qed.

Lemma split_ws_join_space (l : list jstr) :
  Forall word l → l ≠ [] → split_ws (join_space l) = l.
Proof.
  induction l as [|w l IH]; [done|]. intros Hl _.
  apply Forall_cons in Hl as [[Hne Hw] Hl]. destruct l as [|w2 l].
  { cbn [join_space List.map concat]. unfold split_ws.
    rewrite split_from_ws_free_app by done. reflexivity. }
  rewrite join_space_cons by done. unfold split_ws in *.
  rewrite split_from_ws_free_app by done. cbn [app split_from is_ws].
  change (is_ws 32%N) with true. cbv iota. f_equal.
  assert (Hrun : split_from true [] (join_space (w2 :: l))
                 = split_from false [] (join_space (w2 :: l))).
  { pose proof Hl as Hl'. apply Forall_cons in Hl' as [[Hne2 Hw2] _].
    destruct w2 as [|c w2]; [done|].
    apply Forall_cons in Hw2 as [Hc _].
    change (join_space ((c :: w2) :: l))
      with (c :: (w2 ++ concat (List.map (λ q, 32%N :: q) l))).
    cbn [split_from]. by rewrite Hc. }
  rewrite Hrun. by apply IH.
Qed.

Lemma words_join_space (l : list jstr) :
  Forall word l → words (join_space l) = l.
Proof.
  intros Hl. destruct l as [|w l]; [done|].
  rewrite words_nonempties, split_ws_join_space by done.
  by apply nonempties_words.
Qed.

(** X8. [cleanText] returns the words of the text, its maximal runs of
    units that are not white space, with one space between them: the
    result has no white space but these single spaces, none at either end,
    and [cleanText] changes nothing in a text it has returned. *)
Theorem cleanText_words_single_spaced (text : jstr) :
  cleanText text = join_space (words text)
  ∧ Forall word (words text)
  ∧ words (cleanText text) = words text
  ∧ cleanText (cleanText text) = cleanText text.
Proof.
  unfold cleanText. rewrite !trim_collapse_ws_words.
  pose proof (words_word text) as Hw.
  rewrite (words_join_space _ Hw). by repeat split.
Qed.

(** X9. The words that [crawlPage] counts in a cleaned text are its
    words: on the text of the page container, cleaned and not longer than
    2000 units, [word_count] is the number of maximal runs of units that
    are not white space in the text of the container (0 when there is
    none). *)
Theorem count_words_of_clean_text (text : jstr) :
  count_words (trim (collapse_ws text)) = length (words text)
  ∧ (length (trim (collapse_ws text)) ≤ 2000 →
     count_words (slice0 2000 (trim (collapse_ws text))) = length (words text)).
Proof.
  assert (Hcount : count_words (trim (collapse_ws text)) = length (words text)).
  { rewrite trim_collapse_ws_words. pose proof (words_word text) as Hw.
    unfold count_words. destruct (words text) as [|w l] eqn:Hwords; [done|].
    pose proof (join_space_words_not_nil _ Hw ltac:(done)) as Hne.
    destruct (jstr_eqb (join_space (w :: l)) []) eqn:Hnil;
      [by apply jstr_eqb_nil in Hnil|].
    by rewrite split_ws_join_space. }
  split; [done|]. intros Hlen. unfold slice0. by rewrite take_ge.
Qed.

Lemma count_words_of_clean_text_witness :
  count_words (trim (collapse_ws (lit "  one  two three ")))
  = length (words (lit "  one  two three "))
  ∧ count_words (slice0 2000 (trim (collapse_ws (lit "  one  two three "))))
    = length (words (lit "  one  two three ")).
Proof.
  destruct (count_words_of_clean_text (lit "  one  two three ")) as [H1 H2].
  split; [exact H1|]. apply H2. vm_compute. lia.
Defined.

End TextFacts.

(** ** crawlPage: what it reads of the page, and its failures *)

Module CrawlFacts.

Import Json Cheerio Crawler Utils.

(** The tags of the elements that [extractContent] removes. *)
Definition noise_tags : list jstr :=
  [lit "script"; lit "style"; lit "noscript"; lit "iframe"; lit "svg";
   lit "nav"; lit "header"; lit "footer"].

Definition noise_tag (t : jstr) : bool := bool_decide (t ∈ noise_tags).

(** Some element under the node (the node included) has one of the tags. *)
Fixpoint has_noise (n : node) : bool :=
  match n with
  | Text _ => false
  | Elem t _ cs => noise_tag t || existsb has_noise cs
  end.

Definition noise_free (forest : list node) : Prop :=
  Forall (λ n, has_noise n = false) forest.

Lemma matches_noise anc t a : matches noise anc (t, a) = noise_tag t.
Proof.
  unfold noise_tag, noise_tags, matches, noise, tag, matches_complex,
    matches_compound.
  cbn [existsb rev app forallb fst snd matches_simple].
  assert (Hanc : match_ancestors [] anc = true) by (by destruct anc).
  rewrite Hanc. unfold jstr_eqb. rewrite !andb_true_r, orb_false_r.
  repeat case_bool_decide; cbn [orb]; try done;
    repeat match goal with
           | H : _ ∈ _ :: _ |- _ => apply elem_of_cons in H as [H|H]
           | H : _ ∈ [] |- _ => by apply elem_of_nil in H
           | H : ¬ _ ∈ _ |- _ => exfalso; apply H; subst;
                                 repeat (first [by left|right])
           end; try done.
Qed.

Lemma noise_free_concat (ls : list (list node)) :
  Forall noise_free ls → noise_free (List.concat ls).
Proof.
  unfold noise_free. induction 1 as [|l ls Hl _ IH]; simpl.
  - constructor.
  - by apply Forall_app.
Qed.

Lemma existsb_has_noise_false (cs : list node) :
  existsb has_noise cs = false ↔ noise_free cs.
Proof.
  unfold noise_free. induction cs as [|c cs IH]; [by split; [constructor|]|].
  cbn [existsb]. rewrite orb_false_iff, Forall_cons, IH. done.
Qed.

Lemma remove_in_noise_free (n : node) :
  ∀ anc, noise_free (remove_in noise anc n).
Proof.
  induction n as [d|t a cs IH] using PageFacts.node_children_ind; intros anc.
  - by repeat constructor.
  - cbn [remove_in]. rewrite matches_noise.
    destruct (noise_tag t) eqn:Ht; [constructor|].
    apply Forall_cons. split; [|constructor].
    cbn [has_noise]. rewrite Ht. cbn [orb].
    apply existsb_has_noise_false, noise_free_concat, Forall_forall.
    intros l Hl. apply list_elem_of_In, in_map_iff in Hl as (c & <- & Hc).
    apply list_elem_of_In in Hc. rewrite Forall_forall in IH. by apply IH.
Qed.

Lemma remove_in_fixed (n : node) :
  ∀ anc, has_noise n = false → remove_in noise anc n = [n].
Proof.
  induction n as [d|t a cs IH] using PageFacts.node_children_ind;
    intros anc Hfree; [done|].
  cbn [remove_in has_noise] in *. rewrite matches_noise.
  apply orb_false_iff in Hfree as [-> Hcs]. do 2 f_equal.
  induction cs as [|c cs IHcs]; [done|].
  apply Forall_cons in IH as [IHc IH]. cbn [existsb] in Hcs.
  apply orb_false_iff in Hcs as [Hc Hcs].
  cbn [List.map concat]. rewrite IHc by done. cbn [app]. f_equal.
  by apply IHcs.
Qed.

Lemma remove_noise_free (doc : list node) : noise_free (remove noise doc).
Proof.
  unfold remove. apply noise_free_concat, Forall_forall.
  intros l Hl. apply list_elem_of_In, in_map_iff in Hl as (c & <- & _).
  apply remove_in_noise_free.
Qed.

Lemma remove_noise_fixed (doc : list node) :
  noise_free doc → remove noise doc = doc.
Proof.
  unfold remove, noise_free. induction 1 as [|n doc Hn _ IH]; [done|].
  cbn [List.map concat]. by rewrite remove_in_fixed, IH.
Qed.

Section Platform.

Variable Number_toString : float → jstr.
Variable JSON_parse : jstr → option json.
Variable URL_of_absolute : jstr → option URL.

(** X10. [extractContent] leaves in the page no [script], [style],
    [noscript], [iframe], [svg], [nav], [header] or [footer] element, at
    any depth, and changes nothing in a page that has none; so what
    [crawlPage] reports of a response (content, words, links, price, page
    type) is what it reports of the same response without these
    elements: nothing under them is ever read. *)
Theorem crawlPage_reads_page_without_noise (url : jstr) (st : nat)
    (doc : list node) :
  noise_free (extractContent doc).2
  ∧ (noise_free doc → (extractContent doc).2 = doc)
  ∧ pageData Number_toString JSON_parse URL_of_absolute url (MkResponse st doc)
    = pageData Number_toString JSON_parse URL_of_absolute url
        (MkResponse st (remove noise doc)).
Proof.
  split; [apply remove_noise_free|]. split; [apply remove_noise_fixed|].
  unfold pageData, extractContent. cbn [data status].
  by rewrite (remove_noise_fixed (remove noise doc)) by apply remove_noise_free.
Qed.

(** X11. A page that [crawlPage] reports has the URL that was asked for
    and the status of the response that [withRetry] returned; its count of
    internal links is the length of their list; no JSON-LD block is ever
    found in it, since the scripts are removed before the search: the page
    type is the one of the path alone ([page] when no pattern matches) and
    the price is read from the [itemprop] elements alone. *)
Theorem crawlPage_success_never_reads_json_ld {S : Type} (u : jstr)
    (http_get : jstr → S → (error + response) * S) (w w' : world S)
    (d : PageData) :
  crawlPage Number_toString JSON_parse URL_of_absolute u http_get w
  = (Success d, w') →
  ∃ resp parsed,
    withRetry (http_get u) w = (inr resp, w')
    ∧ newURL URL_of_absolute u = Some parsed
    ∧ url d = u
    ∧ status_code d = status resp
    ∧ internal_links_count d = length (internal_links d)
    ∧ json_ld_found d = false
    ∧ page_type_of d = default page (classifyPath (pathname parsed))
    ∧ price d = match price_itemprop_content (remove noise (data resp)) with
                | Some c => c
                | None => trim (text (select sel_itemprop_price
                                        (remove noise (data resp))))
                end.
Proof.
  unfold crawlPage.
  destruct (withRetry (http_get u) w) as [[err|resp] w1] eqn:Hretry; [done|].
  destruct (pageData Number_toString JSON_parse URL_of_absolute u resp)
    as [err|d'] eqn:Hdata; [done|].
  intros [= -> ->]. exists resp.
  destruct (PageFacts.pageData_fields _ _ _ _ _ _ Hdata)
    as (_ & _ & _ & Hld & parsed & Hparsed & Htype).
  exists parsed. split; [done|]. split; [done|].
  unfold pageData in Hdata. rewrite Hparsed in Hdata.
  pose proof (PageFacts.extractJsonLd_after_extractContent JSON_parse
                (data resp)) as Hnone.
  pose proof (PageFacts.extractPrice_html_sources Number_toString
                (remove noise (data resp)) None eq_refl) as Hprice.
  unfold extractContent in *. cbn [snd] in Hnone. rewrite Hnone in Hdata.
  destruct (extractLinks _ _ _) as [internal externalCount].
  destruct (extractPrice _ _ _) as [p c]. cbn [fst] in Hprice.
  destruct (classifyPage _ _ _) as [pt|]; [|done].
  injection Hdata as <-. cbn [url status_code internal_links_count
    internal_links json_ld_found page_type_of price] in *.
  by repeat split.
Qed.

(** X12. The failures of [crawlPage].  When both requests fail, the failure
    has the URL, and the status and the message of the first error, and
    the second request came 1000 ms after the first; when a request
    succeeds and the URL is not one that the parser accepts, the failure
    comes after the request, without a status. *)
Theorem crawlPage_failure_of_first_error {S : Type} (u : jstr)
    (http_get : jstr → S → (error + response) * S) (s : S)
    (tr : list event) :
  (∀ e1 s1 e2 s2,
     http_get u s = (inl e1, s1) → http_get u s1 = (inl e2, s2) →
     crawlPage Number_toString JSON_parse URL_of_absolute u http_get
       (World s tr)
     = (Failure u (getErrorStatus e1) (getErrorMessage e1),
        World s2 (tr ++ [Called; Slept 1000; Called])))
  ∧ (∀ resp s1,
       http_get u s = (inr resp, s1) → newURL URL_of_absolute u = None →
       crawlPage Number_toString JSON_parse URL_of_absolute u http_get
         (World s tr)
       = (Failure u None (lit "Invalid URL"), World s1 (tr ++ [Called]))).
Proof.
  split.
  - intros e1 s1 e2 s2 H1 H2. unfold crawlPage.
    by rewrite (RetryFacts.withRetry_second_run _ _ tr _ _ H1), H2.
  - intros resp s1 H1 Hurl. unfold crawlPage.
    rewrite (RetryFacts.withRetry_first_success _ _ tr _ _ H1).
    unfold pageData. by rewrite Hurl.
Qed.

End Platform.

(** A client whose requests time out, on a counter of the requests. *)
Definition timed_out : error :=
  AxiosError (Some (lit "ECONNABORTED")) None None
    (lit "timeout of 10000ms exceeded").

Definition always_times_out (_ : jstr) (n : nat) : (error + response) * nat :=
  (inl timed_out, S n).

(** A client that answers with a page of one paragraph, one link in the
    navigation and a JSON-LD block of a product. *)
Definition product_page : list node :=
  Examples.html_body
    [Elem (lit "nav") [] [Examples.a_href "/home"];
     Elem (lit "script") [(lit "type", lit "application/ld+json")]
       [Text (lit "{}")];
     Elem (lit "p") [] [Text (lit "One lamp")]].

Definition always_answers (_ : jstr) (n : nat) : (error + response) * nat :=
  (inr (MkResponse 200 product_page), S n).

Lemma crawlPage_failure_of_first_error_witness :
  crawlPage Examples.no_numbers Examples.no_JSON Examples.simple_URL
    (lit "https://shop.test/x") always_times_out (World 0 [])
  = (Failure (lit "https://shop.test/x") None (lit "Request timed out"),
     World 2 [Called; Slept 1000; Called])
  ∧ crawlPage Examples.no_numbers Examples.no_JSON Examples.simple_URL
      (lit "shop.test/x") always_answers (World 0 [])
    = (Failure (lit "shop.test/x") None (lit "Invalid URL"),
       World 1 [Called]).
Proof.
  split.
  - destruct (crawlPage_failure_of_first_error Examples.no_numbers
                Examples.no_JSON Examples.simple_URL
                (lit "https://shop.test/x") always_times_out 0 [])
      as [Hboth _].
    apply (Hboth timed_out 1 timed_out 2); reflexivity.
  - destruct (crawlPage_failure_of_first_error Examples.no_numbers
                Examples.no_JSON Examples.simple_URL (lit "shop.test/x")
                always_answers 0 [])
      as [_ Hurl].
    apply (Hurl (MkResponse 200 product_page) 1); reflexivity.
Defined.

Lemma crawlPage_success_never_reads_json_ld_witness :
  ∃ d w', crawlPage Examples.no_numbers Examples.no_JSON Examples.simple_URL
            (lit "https://shop.test/x") always_answers (World 0 [])
          = (Success d, w')
          ∧ json_ld_found d = false ∧ page_type_of d = page
          ∧ internal_links d = [].
Proof.
  eexists _, _. split; [vm_compute; reflexivity|].
  destruct (crawlPage_success_never_reads_json_ld Examples.no_numbers
              Examples.no_JSON Examples.simple_URL (lit "https://shop.test/x")
              always_answers (World 0 []) _ _ eq_refl)
    as (resp & parsed & _ & _ & _ & _ & _ & Hld & _).
  split; [exact Hld|]. split; reflexivity.
Defined.

End CrawlFacts.

(** ** deduplicateUrls and then filterUrls *)

Module PipelineFacts.

Import Utils SitemapParser DedupeFacts.

(** The pattern tells no URL from the same URL with or without its last
    slash. *)
Definition slash_blind (pattern_test : jstr → bool) : Prop :=
  ∀ u v, strip_trailing_slash u = strip_trailing_slash v →
         pattern_test u = pattern_test v.

Lemma filter_dedupe_from (pattern_test : jstr → bool) (urls : list jstr) :
  slash_blind pattern_test →
  ∀ seen seen' : gset jstr,
    (∀ u, pattern_test u = true →
          strip_trailing_slash u ∈ seen ↔ strip_trailing_slash u ∈ seen') →
    List.filter pattern_test (dedupe_from seen urls)
    = dedupe_from seen' (List.filter pattern_test urls).
Proof.
  intros Hblind. induction urls as [|url rest IH]; intros seen seen' Hseen;
    [done|].
  cbn [dedupe_from List.filter].
  destruct (pattern_test url) eqn:Htest.
  - cbn [dedupe_from].
    destruct (decide (strip_trailing_slash url ∈ seen)) as [Hin|Hin].
    + rewrite decide_True by (by apply Hseen). by apply IH.
    + rewrite decide_False by (by rewrite <- Hseen).
      cbn [List.filter]. rewrite Htest. f_equal. apply IH.
      intros u Hu. rewrite !elem_of_union, (Hseen u Hu). done.
  - destruct (decide (strip_trailing_slash url ∈ seen)) as [Hin|Hin];
      [by apply IH|].
    cbn [List.filter]. rewrite Htest. apply IH.
    intros u Hu. rewrite elem_of_union, elem_of_singleton, <- (Hseen u Hu).
    split; [|by right]. intros [Hkey|?]; [|done].
    rewrite (Hblind u url Hkey), Htest in Hu. discriminate Hu.
Qed.

(** Two entries of one page, of which the pattern takes the second
    only. *)
Definition two_spellings : list jstr :=
  [lit "https://s.test/a/"; lit "https://s.test/a"].

Definition ends_with_a (u : jstr) : bool :=
  bool_decide (last u = Some 97%N).

(** X13. The crawl removes the duplicates first and filters then.  For a
    pattern that tells no URL from the same URL with or without its last
    slash, that is the same as filtering first.  For another pattern it
    is not: a URL that the pattern takes is lost when an earlier entry
    for the same page, which the pattern does not take, has made it a
    duplicate. *)
Theorem filterUrls_after_deduplicateUrls (pattern_test : jstr → bool)
    (rawUrls : list jstr) :
  slash_blind pattern_test →
  filterUrls (deduplicateUrls rawUrls) pattern_test
  = deduplicateUrls (filterUrls rawUrls pattern_test)
  ∧ filterUrls (deduplicateUrls two_spellings) ends_with_a = []
  ∧ deduplicateUrls (filterUrls two_spellings ends_with_a)
    = [lit "https://s.test/a"].
Proof.
  intros Hblind. split; [|by vm_compute].
  unfold filterUrls. rewrite !deduplicateUrls_unfold.
  by apply filter_dedupe_from.
Qed.

Definition names_shop (u : jstr) : bool :=
  includes (lit "shop") (strip_trailing_slash u).

Lemma filterUrls_after_deduplicateUrls_witness :
  filterUrls
    (deduplicateUrls [lit "https://shop.test/a/"; lit "https://s.test/b";
                      lit "https://shop.test/a"]) names_shop
  = deduplicateUrls
      (filterUrls [lit "https://shop.test/a/"; lit "https://s.test/b";
                   lit "https://shop.test/a"] names_shop)
  ∧ filterUrls (deduplicateUrls two_spellings) ends_with_a = []
  ∧ deduplicateUrls (filterUrls two_spellings ends_with_a)
    = [lit "https://s.test/a"].
Proof.
  apply filterUrls_after_deduplicateUrls.
  intros u v Huv. unfold names_shop. by rewrite Huv.
Defined.

End PipelineFacts.

(** ** toSnakeCase and makeAbsolute *)

Module KeyFacts.

Import ProductExtractor StringFacts.

(** A key: lower-case ASCII letters, digits and underscores. *)
Definition key_char (c : N) : Prop := is_snake_char c = true ∨ c = 95%N.

Definition key_chars (s : jstr) : Prop := Forall key_char s.

(** No two underscores next to each other. *)
Fixpoint single_underscores (s : jstr) : Prop :=
  match s with
  | [] => True
  | c :: r => (c = 95%N → head r ≠ Some 95%N) ∧ single_underscores r
  end.

Lemma is_snake_char_95 : is_snake_char 95 = false.
Proof. reflexivity. Qed.

Lemma underscore_runs_key_chars (s : jstr) : ∀ b,
  key_chars (underscore_runs b s).
Proof.
  induction s as [|c s IH]; intros b; [constructor|].
  cbn [underscore_runs]. destruct (is_snake_char c) eqn:Hc.
  - constructor; [by left|apply IH].
  - destruct b; [apply IH|]. constructor; [by right|apply IH].
Qed.

Lemma underscore_runs_head (s : jstr) :
  head (underscore_runs true s) ≠ Some 95%N.
Proof.
  induction s as [|c s IH]; [done|]. cbn [underscore_runs].
  destruct (is_snake_char c) eqn:Hc; [|done].
  cbn [head]. intros [= ->]. by rewrite is_snake_char_95 in Hc.
Qed.

Lemma underscore_runs_single (s : jstr) : ∀ b,
  single_underscores (underscore_runs b s).
Proof.
  induction s as [|c s IH]; intros b; [done|].
  cbn [underscore_runs]. destruct (is_snake_char c) eqn:Hc.
  - split; [|apply IH]. intros ->. by rewrite is_snake_char_95 in Hc.
  - destruct b; [apply IH|]. split; [|apply IH].
    intros _. apply underscore_runs_head.
Qed.

Lemma drop_underscores_suffix (s : jstr) :
  ∃ us, s = us ++ drop_underscores s ∧ Forall (λ c, c = 95%N) us.
Proof.
  induction s as [|c s (us & Hs & Hus)]; [by exists []|].
  cbn [drop_underscores]. destruct (N.eqb_spec c 95) as [->|Hc].
  - exists (95%N :: us). split; [by rewrite Hs at 1|by constructor].
  - by exists [].
Qed.

Lemma drop_underscores_head (s : jstr) :
  head (drop_underscores s) ≠ Some 95%N.
Proof.
  induction s as [|c s IH]; [done|]. cbn [drop_underscores].
  destruct (N.eqb_spec c 95) as [->|Hc]; [done|]. cbn. by intros [= ->].
Qed.

Lemma drop_underscores_fixed (s : jstr) :
  head s ≠ Some 95%N → drop_underscores s = s.
Proof.
  destruct s as [|c s]; [done|]. cbn [head drop_underscores].
  intros Hc. destruct (N.eqb_spec c 95) as [->|_]; done.
Qed.

Lemma single_underscores_app (a b : jstr) :
  single_underscores (a ++ b) → single_underscores a ∧ single_underscores b.
Proof.
  induction a as [|c a IH]; [done|]. cbn [app single_underscores].
  intros [Hc Hab]. destruct (IH Hab) as [Ha Hb]. split; [|done].
  split; [|done]. intros ->. specialize (Hc eq_refl).
  by destruct a.
Qed.

Lemma single_underscores_snoc (a : jstr) (c : N) :
  single_underscores a → (c = 95%N → last a ≠ Some 95%N) →
  single_underscores (a ++ [c]).
Proof.
  induction a as [|x a IH]; intros Ha Hc; [done|].
  cbn [app single_underscores] in *. destruct Ha as [Hx Ha]. split.
  - intros ->. specialize (Hx eq_refl). destruct a as [|y a]; [|done].
    cbn. intros [= ->]. by apply Hc.
  - apply IH; [done|]. intros ->. specialize (Hc eq_refl).
    destruct a as [|y a]; [done|]. by rewrite last_cons_cons in Hc.
Qed.

Lemma last_rev (s : jstr) : last (rev s) = head s.
Proof. destruct s as [|c s]; [done|]. cbn [rev]. by rewrite last_snoc. Qed.

Lemma head_rev (s : jstr) : head (rev s) = last s.
Proof.
  induction s as [|c s _] using rev_ind; [done|].
  by rewrite rev_app_distr, last_snoc.
Qed.

Lemma single_underscores_rev (s : jstr) :
  single_underscores s → single_underscores (rev s).
Proof.
  induction s as [|c s IH]; [done|]. cbn [single_underscores rev].
  intros [Hc Hs]. apply single_underscores_snoc; [by apply IH|].
  intros ->. rewrite last_rev. by apply Hc.
Qed.

Lemma last_app_not_nil (a b : jstr) : b ≠ [] → last (a ++ b) = last b.
Proof.
  intros Hb. induction b as [|c b _] using rev_ind; [done|].
  by rewrite app_assoc, !last_snoc.
Qed.

Lemma is_snake_char_range (c : N) :
  is_snake_char c = true → (97 ≤ c ≤ 122 ∨ 48 ≤ c ≤ 57)%N.
Proof.
  unfold is_snake_char, is_digit.
  rewrite orb_true_iff, !andb_true_iff, !N.leb_le. tauto.
Qed.

Lemma key_chars_lower (s : jstr) : key_chars s → toLowerCase s = s.
Proof.
  unfold toLowerCase. induction 1 as [|c s Hc _ IH]; [done|].
  cbn [List.map concat]. rewrite IH.
  assert (Hunit : lower_unit c = [c]); [|by rewrite Hunit].
  unfold lower_unit. destruct Hc as [Hc| ->]; [|done].
  apply is_snake_char_range in Hc.
  destruct (N.leb_spec 65 c), (N.leb_spec c 90); cbn [andb]; try lia;
    (destruct (N.eqb_spec c 8490); [lia|]);
    (destruct (N.eqb_spec c 304); [lia|]); done.
Qed.

Lemma underscore_runs_fixed (s : jstr) : ∀ b,
  key_chars s → single_underscores s → (b = true → head s ≠ Some 95%N) →
  underscore_runs b s = s.
Proof.
  induction s as [|c s IH]; intros b Hkey Hsingle Hb; [done|].
  apply Forall_cons in Hkey as [Hc Hkey]. destruct Hsingle as [Hnext Hsingle].
  cbn [underscore_runs]. destruct Hc as [Hc| ->].
  - rewrite Hc. f_equal. by apply IH.
  - rewrite is_snake_char_95. destruct b; [by destruct Hb|].
    f_equal. apply IH; [done..|]. intros _. by apply Hnext.
Qed.

(** X14. A key that [toSnakeCase] returns is made of lower-case ASCII
    letters, digits and underscores, with no two underscores next to each
    other and none at either end; and [toSnakeCase] changes nothing in a
    key it has returned. *)
Theorem toSnakeCase_key (str : jstr) :
  key_chars (toSnakeCase str)
  ∧ single_underscores (toSnakeCase str)
  ∧ head (toSnakeCase str) ≠ Some 95%N
  ∧ last (toSnakeCase str) ≠ Some 95%N
  ∧ toSnakeCase (toSnakeCase str) = toSnakeCase str.
Proof.
  assert (Hkey : key_chars (toSnakeCase str)
                 ∧ single_underscores (toSnakeCase str)
                 ∧ head (toSnakeCase str) ≠ Some 95%N
                 ∧ last (toSnakeCase str) ≠ Some 95%N).
  { unfold toSnakeCase.
    set (m := underscore_runs false (toLowerCase str)).
    pose proof (underscore_runs_key_chars (toLowerCase str) false) as Hm1.
    pose proof (underscore_runs_single (toLowerCase str) false) as Hm2.
    fold m in Hm1, Hm2.
    destruct (drop_underscores_suffix m) as (us1 & Hus1 & _).
    set (d1 := drop_underscores m) in *.
    assert (Hd1 : key_chars d1 ∧ single_underscores d1).
    { rewrite Hus1 in Hm1, Hm2. apply Forall_app in Hm1 as [_ Hm1].
      by apply single_underscores_app in Hm2 as [_ Hm2]. }
    destruct Hd1 as [Hd1k Hd1s].
    pose proof (drop_underscores_head m) as Hd1h. fold d1 in Hd1h.
    assert (Hy : key_chars (rev d1) ∧ single_underscores (rev d1)
                 ∧ last (rev d1) ≠ Some 95%N).
    { split; [by apply Forall_rev|]. split; [by apply single_underscores_rev|].
      by rewrite last_rev. }
    destruct Hy as (Hyk & Hys & Hyl).
    destruct (drop_underscores_suffix (rev d1)) as (us2 & Hus2 & _).
    pose proof (drop_underscores_head (rev d1)) as Hd2h.
    set (d2 := drop_underscores (rev d1)) in *.
    assert (Hd2 : key_chars d2 ∧ single_underscores d2 ∧ last d2 ≠ Some 95%N).
    { rewrite Hus2 in Hyk, Hys, Hyl. apply Forall_app in Hyk as [_ Hyk].
      apply single_underscores_app in Hys as [_ Hys].
      split; [done|]. split; [done|].
      destruct (decide (d2 = [])) as [->|Hne]; [done|].
      by rewrite last_app_not_nil in Hyl. }
    destruct Hd2 as (Hd2k & Hd2s & Hd2l).
    split; [by apply Forall_rev|]. split; [by apply single_underscores_rev|].
    by rewrite head_rev, last_rev. }
  destruct Hkey as (Hk & Hs & Hh & Hl). repeat split; try done.
  unfold toSnakeCase at 1.
  rewrite key_chars_lower, underscore_runs_fixed by done.
  rewrite (drop_underscores_fixed (toSnakeCase str)) by done.
  rewrite drop_underscores_fixed by (by rewrite head_rev).
  apply rev_involutive.
Qed.

(** X15. [makeAbsolute] returns the empty string for the empty link and
    for it only; any other result starts with [http://] or [https://]:
    a link with one of the two is returned as it is, and any other link,
    be it one that starts with two slashes, is a path under the base URL;
    so [makeAbsolute] changes nothing in a link it has returned. *)
Theorem makeAbsolute_absolute_or_empty (href : jstr) :
  (makeAbsolute href = [] ↔ href = [])
  ∧ (href ≠ [] →
     startsWith (lit "http://") (makeAbsolute href)
     || startsWith (lit "https://") (makeAbsolute href) = true)
  ∧ (startsWith (lit "http://") href || startsWith (lit "https://") href = false →
     href ≠ [] →
     makeAbsolute href
     = BASE_URL ++ (if startsWith (lit "/") href then href else lit "/" ++ href))
  ∧ makeAbsolute (makeAbsolute href) = makeAbsolute href.
Proof.
  assert (Hbase : ∀ r, startsWith (lit "https://") (BASE_URL ++ r) = true).
  { intros r. reflexivity. }
  assert (Hlong : ∀ r : jstr, BASE_URL ++ r ≠ []).
  { intros r Hr. apply (f_equal length) in Hr. rewrite length_app in Hr.
    cbn in Hr. lia. }
  assert (Hkept : ∀ h, h ≠ [] →
            startsWith (lit "http://") h || startsWith (lit "https://") h = true →
            makeAbsolute h = h).
  { intros h Hh Hs. unfold makeAbsolute. rewrite Hs.
    destruct (jstr_eqb h []) eqn:Hnil; [|done].
    by apply TextFacts.jstr_eqb_nil in Hnil. }
  destruct (decide (href = [])) as [->|Hne]; [by repeat split|].
  destruct (startsWith (lit "http://") href || startsWith (lit "https://") href)
    eqn:Hscheme.
  - rewrite !(Hkept href Hne Hscheme). by repeat split.
  - assert (Hpath : makeAbsolute href
                    = BASE_URL ++ (if startsWith (lit "/") href then href
                                   else lit "/" ++ href)).
    { unfold makeAbsolute. rewrite Hscheme.
      destruct (jstr_eqb href []) eqn:Hnil; [|done].
      by apply TextFacts.jstr_eqb_nil in Hnil. }
    rewrite !Hpath. split; [|split; [|split]].
    + split; [|done]. intros Hr. by apply Hlong in Hr.
    + intros _. by rewrite Hbase, orb_true_r.
    + done.
    + apply Hkept; [apply Hlong|]. by rewrite Hbase, orb_true_r.
Qed.

Lemma makeAbsolute_absolute_or_empty_witness :
  makeAbsolute (lit "//cdn.test/lamp.jpg")
  = lit "https://www.artcrystal.eu//cdn.test/lamp.jpg".
Proof.
  destruct (makeAbsolute_absolute_or_empty (lit "//cdn.test/lamp.jpg"))
    as (_ & _ & Hpath & _).
  by apply Hpath.
Defined.

End KeyFacts.

(** ** parsePrice: the separators *)

Module SeparatorFacts.

Import ProductExtractor.

Definition digits (s : jstr) : Prop := Forall (λ c, is_digit c = true) s.

(** The number with the integer digits [ip] and the fraction digits [fp],
    when there is a digit. *)
Definition number_of (ip fp : jstr) : option float :=
  if jstr_eqb (ip ++ fp) [] then None
  else
    let x := Num.of_decimal (Num.digits_value (ip ++ fp)) (length fp) in
    if Num.isNaN x then None else Some x.

Lemma digit_not_separator (c : N) :
  is_digit c = true → (c =? 46)%N = false ∧ (c =? 44)%N = false.
Proof.
  unfold is_digit. rewrite andb_true_iff, !N.leb_le. intros [? ?].
  split; apply N.eqb_neq; lia.
Qed.

Lemma filter_digits (a r : jstr) :
  digits a →
  List.filter is_price_char (a ++ r) = a ++ List.filter is_price_char r.
Proof.
  induction 1 as [|c a Hc _ IH]; [done|].
  cbn [app List.filter]. unfold is_price_char at 1. rewrite Hc. cbn [orb].
  by rewrite IH.
Qed.

Lemma remove_thousands_digits (a r : jstr) :
  digits a → remove_thousands (a ++ r) = a ++ remove_thousands r.
Proof.
  induction 1 as [|c a Hc _ IH]; [done|].
  cbn [app remove_thousands].
  destruct (digit_not_separator c Hc) as [-> _]. cbn [andb]. by rewrite IH.
Qed.

Lemma replace_first_comma_digits (a r : jstr) :
  digits a → replace_first_comma (a ++ r) = a ++ replace_first_comma r.
Proof.
  induction 1 as [|c a Hc _ IH]; [done|].
  cbn [app replace_first_comma].
  destruct (digit_not_separator c Hc) as [_ ->]. by rewrite IH.
Qed.

Lemma span_digits_digits (a r : jstr) :
  digits a →
  span_digits (a ++ r) = (a ++ (span_digits r).1, (span_digits r).2).
Proof.
  induction 1 as [|c a Hc _ IH]; [cbn [app]; by destruct (span_digits r)|].
  cbn [app span_digits]. by rewrite Hc, IH.
Qed.

Lemma thousands_follow_three (b r : jstr) :
  digits b → length b = 3 → head r = None ∨ head r = Some 44%N →
  thousands_follow (b ++ r) = true.
Proof.
  intros Hb Hlen Hr. destruct b as [|d1 [|d2 [|d3 [|? ?]]]]; try done.
  apply Forall_cons in Hb as [H1 Hb]. apply Forall_cons in Hb as [H2 Hb].
  apply Forall_cons in Hb as [H3 _].
  cbn [app thousands_follow]. rewrite H1, H2, H3. cbn [andb].
  destruct r as [|c r]; [done|]. destruct Hr as [Hr|Hr]; [done|].
  injection Hr as ->. reflexivity.
Qed.

Lemma thousands_follow_not_three (d : jstr) :
  digits d → length d ≠ 3 → thousands_follow d = false.
Proof.
  intros Hd Hlen. destruct d as [|d1 [|d2 [|d3 [|d4 d]]]]; try done.
  do 3 apply Forall_cons in Hd as [_ Hd]. apply Forall_cons in Hd as [H4 _].
  cbn [thousands_follow]. destruct (digit_not_separator d4 H4) as [_ ->].
  by rewrite !andb_false_r.
Qed.

Lemma parseFloat_point (ip fp : jstr) :
  digits ip → digits fp →
  (if Num.isNaN (parseFloat (ip ++ 46%N :: fp)) then None
   else Some (parseFloat (ip ++ 46%N :: fp)))
  = number_of ip fp.
Proof.
  intros Hip Hfp.
  assert (Hspan : (span_digits fp).1 = fp).
  { pose proof (span_digits_digits fp [] Hfp) as H.
    rewrite !app_nil_r in H. by rewrite H. }
  unfold parseFloat, number_of.
  rewrite (span_digits_digits ip _ Hip). cbn [span_digits is_digit fst snd].
  change (is_digit 46) with false. cbv iota. cbn [fst snd].
  rewrite app_nil_r, !Hspan.
  by destruct (jstr_eqb (ip ++ fp) []).
Qed.

Lemma parseFloat_integer (ip : jstr) :
  digits ip →
  (if Num.isNaN (parseFloat ip) then None else Some (parseFloat ip))
  = number_of ip [].
Proof.
  intros Hip.
  assert (Hspan : span_digits ip = (ip, [])).
  { pose proof (span_digits_digits ip [] Hip) as H.
    by rewrite !app_nil_r in H. }
  unfold parseFloat, number_of. rewrite Hspan, !app_nil_r.
  by destruct (jstr_eqb ip []).
Qed.

Lemma parsePrice_normalized (s : jstr) :
  s ≠ [] → List.filter is_price_char s = s →
  parsePrice s
  = let num := parseFloat (replace_first_comma (remove_thousands s)) in
    if Num.isNaN num then None else Some num.
Proof.
  intros Hne Hs. unfold parsePrice. rewrite Hs.
  destruct (jstr_eqb s []) eqn:Hnil; [|done].
  by apply TextFacts.jstr_eqb_nil in Hnil.
Qed.

Lemma filter_price_chars (parts : list jstr) :
  Forall (λ p, digits p ∨ p = [46%N] ∨ p = [44%N]) parts →
  List.filter is_price_char (concat parts) = concat parts.
Proof.
  induction 1 as [|p parts Hp _ IH]; [done|]. cbn [concat].
  destruct Hp as [Hp|[->| ->]].
  - by rewrite filter_digits, IH.
  - cbn [app List.filter]. change (is_price_char 46) with true.
    cbv iota. by rewrite IH.
  - cbn [app List.filter]. change (is_price_char 44) with true.
    cbv iota. by rewrite IH.
Qed.

(** X16. The separators of [parsePrice], for strings of digits [a], [b]
    and [d], [b] of three digits.  A period before three digits that end
    the string or come before a comma separates thousands and is dropped;
    a comma, the first one, is the decimal point; a period before another
    number of digits is the decimal point too.  So [1.250] is 1250 while
    [1,250] is 1.25.  Whatever is not a digit, a period or a comma is
    dropped before anything else. *)
Theorem parsePrice_separators (a b d : jstr) :
  digits a → digits b → digits d → length b = 3 →
  parsePrice (a ++ [46%N] ++ b) = number_of (a ++ b) []
  ∧ parsePrice (a ++ [44%N] ++ d) = number_of a d
  ∧ (length d ≠ 3 → parsePrice (a ++ [46%N] ++ d) = number_of a d)
  ∧ parsePrice (a ++ [46%N] ++ b ++ [44%N] ++ d) = number_of (a ++ b) d
  ∧ ∀ raw, parsePrice raw = parsePrice (List.filter is_price_char raw).
Proof.
  intros Ha Hb Hd Hlen.
  assert (Hfilter : ∀ parts,
            Forall (λ p, digits p ∨ p = [46%N] ∨ p = [44%N]) parts →
            concat parts ≠ [] →
            parsePrice (concat parts)
            = let num := parseFloat (replace_first_comma
                                       (remove_thousands (concat parts))) in
              if Num.isNaN num then None else Some num).
  { intros parts Hparts Hne. apply parsePrice_normalized; [done|].
    by apply filter_price_chars. }
  assert (Hdigits_id : ∀ x, digits x → remove_thousands x = x
                                       ∧ replace_first_comma x = x).
  { intros x Hx. split.
    - rewrite <- (app_nil_r x) at 1. by rewrite remove_thousands_digits,
        app_nil_r.
    - rewrite <- (app_nil_r x) at 1. by rewrite replace_first_comma_digits,
        app_nil_r. }
  assert (Htf : thousands_follow b = true).
  { rewrite <- (app_nil_r b). apply thousands_follow_three; [done..|by left]. }
  assert (Htf' : thousands_follow (b ++ 44%N :: d) = true).
  { apply thousands_follow_three; [done..|by right]. }
  destruct (Hdigits_id b Hb) as [Hb1 Hb2].
  destruct (Hdigits_id d Hd) as [Hd1 Hd2].
  split; [|split; [|split; [|split]]].
  - specialize (Hfilter [a; [46%N]; b]). cbn [concat] in Hfilter.
    rewrite app_nil_r in Hfilter. rewrite Hfilter.
    + cbv zeta. rewrite remove_thousands_digits by done.
      cbn [app remove_thousands N.eqb Pos.eqb andb].
      rewrite Htf, Hb1, replace_first_comma_digits, Hb2 by done.
      apply parseFloat_integer. by apply Forall_app.
    + by repeat constructor; auto.
    + by destruct a.
  - specialize (Hfilter [a; [44%N]; d]). cbn [concat] in Hfilter.
    rewrite app_nil_r in Hfilter. rewrite Hfilter.
    + cbv zeta. rewrite remove_thousands_digits by done.
      cbn [app remove_thousands N.eqb Pos.eqb andb].
      rewrite Hd1, replace_first_comma_digits by done.
      cbn [replace_first_comma N.eqb Pos.eqb].
      by apply parseFloat_point.
    + by repeat constructor; auto.
    + by destruct a.
  - intros Hnot. specialize (Hfilter [a; [46%N]; d]). cbn [concat] in Hfilter.
    rewrite app_nil_r in Hfilter. rewrite Hfilter.
    + cbv zeta. rewrite remove_thousands_digits by done.
      cbn [app remove_thousands N.eqb Pos.eqb andb].
      rewrite thousands_follow_not_three by done.
      rewrite Hd1, replace_first_comma_digits by done.
      cbn [replace_first_comma N.eqb Pos.eqb]. rewrite Hd2.
      by apply parseFloat_point.
    + by repeat constructor; auto.
    + by destruct a.
  - specialize (Hfilter [a; [46%N]; b; [44%N]; d]). cbn [concat] in Hfilter.
    rewrite app_nil_r in Hfilter. rewrite Hfilter.
    + cbv zeta. rewrite remove_thousands_digits by done.
      cbn [app remove_thousands N.eqb Pos.eqb andb].
      rewrite Htf'.
      rewrite remove_thousands_digits by done.
      cbn [app remove_thousands N.eqb Pos.eqb andb]. rewrite Hd1.
      rewrite replace_first_comma_digits by done.
      rewrite replace_first_comma_digits by done.
      cbn [replace_first_comma N.eqb Pos.eqb].
      rewrite app_assoc. apply parseFloat_point; [by apply Forall_app|done].
    + by repeat constructor; auto.
    + by destruct a.
  - intros raw. unfold parsePrice.
    assert (Hidem : List.filter is_price_char (List.filter is_price_char raw)
                    = List.filter is_price_char raw).
    { induction raw as [|c raw IH]; [done|]. cbn [List.filter].
      destruct (is_price_char c) eqn:Hc; [|done].
      cbn [List.filter]. by rewrite Hc, IH. }
    by rewrite Hidem.
Qed.

Lemma parsePrice_separators_witness :
  parsePrice (lit "1.250") = Some 1250%float
  ∧ parsePrice (lit "1,250") = Some 1.25%float
  ∧ parsePrice (lit "1.25") = Some 1.25%float
  ∧ parsePrice (lit "1.250,50") = Some 1250.5%float.
Proof.
  destruct (parsePrice_separators (lit "1") (lit "250") (lit "250"))
    as (H1 & H2 & _ & _); [by repeat constructor..|done|].
  destruct (parsePrice_separators (lit "1") (lit "250") (lit "25"))
    as (_ & _ & H3 & _); [by repeat constructor..|done|].
  destruct (parsePrice_separators (lit "1") (lit "250") (lit "50"))
    as (_ & _ & _ & H4 & _); [by repeat constructor..|done|].
  split; [etransitivity; [exact H1|vm_compute; reflexivity]|].
  split; [etransitivity; [exact H2|vm_compute; reflexivity]|].
  split; [etransitivity; [exact (H3 ltac:(done))|vm_compute; reflexivity]|].
  etransitivity; [exact H4|vm_compute; reflexivity].
Defined.

End SeparatorFacts.

(** ** formatPrice: two decimals *)

Module FixedFacts.

Import ProductExtractor SeparatorFacts.

(** A number that [toFixed] prints in fixed notation: zero, or finite and
    below [10^21] in absolute value. *)
Definition prints_fixed (x : float) : bool :=
  match Prim2SF x with
  | S754_zero _ => true
  | S754_finite _ m e => negb (Num.ge_1e21 m e)
  | _ => false
  end.

Lemma string_of_uint_digits (u : Decimal.uint) :
  digits (lit (NilZero.string_of_uint u))
  ∧ lit (NilZero.string_of_uint u) ≠ [].
Proof.
  assert (Hall : digits (lit (NilEmpty.string_of_uint u))).
  { unfold digits. induction u as [|u IH|u IH|u IH|u IH|u IH|u IH|u IH|u IH|u IH|u IH];
      [constructor|by constructor..]. }
  unfold NilZero.string_of_uint. destruct u; (split; [|done]);
    try exact Hall; by repeat constructor.
Qed.

Lemma of_Z_nonneg_digits (z : Z) :
  digits (of_Z_nonneg z) ∧ of_Z_nonneg z ≠ [].
Proof. apply string_of_uint_digits. Qed.

(** The digits of [fixed_digits]: one at least before the point, and two
    after it. *)
Lemma fixed_digits_shape (n : Z) :
  ∃ ip fp, Num.fixed_digits n = ip ++ [46%N] ++ fp
           ∧ digits ip ∧ ip ≠ [] ∧ digits fp ∧ length fp = 2.
Proof.
  unfold Num.fixed_digits. destruct (of_Z_nonneg_digits n) as [Hds Hne].
  set (ds := of_Z_nonneg n) in *.
  set (ds' := if length ds <=? 2 then repeat 48%N (3 - length ds) ++ ds
              else ds).
  assert (Hds' : digits ds' ∧ 3 ≤ length ds').
  { unfold ds'. destruct (Nat.leb_spec (length ds) 2) as [Hle|Hgt].
    - split.
      + apply Forall_app. split; [|done].
        apply Forall_forall. intros c Hc%list_elem_of_In.
        by apply repeat_spec in Hc as ->.
      + rewrite length_app, repeat_length. lia.
    - split; [done|lia]. }
  destruct Hds' as [Hdig Hlen]. cbv zeta. fold ds'.
  exists (take (length ds' - 2) ds'), (drop (length ds' - 2) ds').
  split; [done|]. split; [by apply Forall_take|].
  split.
  { intros Hnil. apply (f_equal length) in Hnil.
    rewrite length_take in Hnil. cbn in Hnil. lia. }
  split; [by apply Forall_drop|]. rewrite length_drop. lia.
Qed.

Section Platform.

Variable Number_toString : float → jstr.

(** X17. [formatPrice] of a number that is zero or finite and below
    [10^21] in absolute value is a minus sign for a negative number, then
    one digit at least, a period and two digits; no exponent and no
    other character. *)
Theorem formatPrice_two_decimals (num : float) :
  prints_fixed num = true →
  ∃ sign ip fp,
    formatPrice Number_toString num = sign ++ ip ++ [46%N] ++ fp
    ∧ (sign = [] ∨ sign = [45%N])
    ∧ digits ip ∧ ip ≠ [] ∧ digits fp ∧ length fp = 2.
Proof.
  unfold prints_fixed, formatPrice, Num.toFixed2.
  destruct (Prim2SF num) as [s|s| |s m e]; try done.
  - intros _. exists [], [48%N], [48%N; 48%N].
    split; [done|]. split; [by left|]. by repeat constructor.
  - intros Hsmall. apply negb_true_iff in Hsmall. rewrite Hsmall.
    destruct (fixed_digits_shape (Num.scaled_round m e))
      as (ip & fp & -> & Hip & Hne & Hfp & Hlen).
    exists (if s then [45%N] else []), ip, fp.
    split; [by destruct s|]. split; [destruct s; auto|done].
Qed.

End Platform.

Lemma formatPrice_two_decimals_witness :
  ∃ sign ip fp,
    formatPrice Examples.no_numbers (PrimFloat.div 770 VAT)
    = sign ++ ip ++ [46%N] ++ fp
    ∧ (sign = [] ∨ sign = [45%N])
    ∧ digits ip ∧ ip ≠ [] ∧ digits fp ∧ length fp = 2.
Proof.
  apply (formatPrice_two_decimals Examples.no_numbers (PrimFloat.div 770 VAT)).
  vm_compute. reflexivity.
Defined.

End FixedFacts.

(** ** The embeds of an article *)

Module EmbedFacts.

Import Cheerio ArticleExtractor StringFacts.

Lemma includes_nil (p : jstr) : p ≠ [] → includes p [] = false.
Proof. intros Hp. by destruct p. Qed.




End EmbedFacts.

(** ** parseSitemap *)

Module SitemapFacts.

Import Utils SitemapParser.







Section Platform.

Context {S : Type}.
Variable http_get : jstr → S → (error + jstr) * S.
Variable XML_parse : jstr → error + xml_doc.


Lemma fetch_succeeds (url xml : jstr) (w : world S) :
  (∀ s, (http_get url s).1 = inr xml) →
  ∃ s', fetchSitemapXml http_get url w
        = (inr xml, World s' (trace w ++ [Called])).
Proof.
  intros Hget. destruct w as [s tr]. specialize (Hget s).
  destruct (http_get url s) as [r s1] eqn:Hs. cbn [fst] in Hget. subst r.
  exists s1. by apply RetryFacts.withRetry_first_success.
Qed.




(** X20. A sitemap index that lists itself first is never read to the
    end: whatever the depth allowed, [parseSitemap] does not return. *)
Theorem parseSitemap_index_of_itself (url xml : jstr)
    (entries : list (option jstr)) (pages : option (list (option jstr)))
    (rest : list jstr) (fuel : nat) (w : world S) :
  (∀ s, (http_get url s).1 = inr xml) →
  XML_parse xml = inr (MkXml (Some entries) pages) →
  locs entries = url :: rest →
  parseSitemap http_get XML_parse fuel url w = None.
Proof.
  intros Hget Hparse Hlocs. revert w.
  induction fuel as [|fuel IH]; intros w; [done|]. cbn [parseSitemap].
  destruct (fetch_succeeds url xml w Hget) as (s' & ->).
  rewrite Hparse. cbn [sitemapindex_sitemap]. rewrite Hlocs.
  cbn [each_child]. by rewrite IH.
Qed.

End Platform.

(** A site of one index over a sitemap of two pages, a sitemap that
    cannot be fetched, and a sitemap that is not reached. *)
Definition sitemap_body (url : jstr) : jstr := lit "<xml " ++ url ++ lit ">".

Definition not_found : error :=
  AxiosError None (Some (404%nat, lit "Not Found")) None
    (lit "Request failed with status code 404").

Definition small_site_get (url : jstr) (n : nat) : (error + jstr) * nat :=
  if jstr_eqb url (lit "https://s.test/b.xml") then (inl not_found, S n)
  else (inr (sitemap_body url), S n).

Definition small_site_parse (xml : jstr) : error + xml_doc :=
  if jstr_eqb xml (sitemap_body (lit "https://s.test/sitemap.xml"))
  then inr (MkXml (Some [Some (lit "https://s.test/a.xml"); None;
                         Some (lit "https://s.test/b.xml");
                         Some (lit "https://s.test/c.xml")]) None)
  else if jstr_eqb xml (sitemap_body (lit "https://s.test/loop.xml"))
  then inr (MkXml (Some [Some (lit "https://s.test/loop.xml")]) None)
  else inr (MkXml None (Some [Some (lit "https://s.test/1"); Some [];
                              Some (lit "https://s.test/2")])).




Lemma parseSitemap_index_of_itself_witness :
  parseSitemap small_site_get small_site_parse 1000
    (lit "https://s.test/loop.xml") (World 0 []) = None.
Proof.
  apply (parseSitemap_index_of_itself small_site_get small_site_parse
           (lit "https://s.test/loop.xml")
           (sitemap_body (lit "https://s.test/loop.xml"))
           [Some (lit "https://s.test/loop.xml")] None []); done.
Defined.

End SitemapFacts.
